(** * The migration job orchestration core of SFDX-Data-Move-Utility

    A shallow embedding of
      - [MigrationJob] (src/modules/models/job_models/migrationJob.ts):
        [setup], [validateCSVFiles], [getTotalRecordsCount],
        [deleteOldRecords], [retrieveRecords], [updateRecords],
        [getTaskBySObjectName], [saveCachedCsvDataFiles], and the helper
        class [CachedCSVContent];
      - [ApiEngineBase] (src/modules/models/api_models/ApiEngineBase.ts):
        [executeCRUD], [processCRUDApiJobAsync] and the simulation of a job;
      - [TaskData.prevTasks], [TaskData.nextTasks], [TaskOrgData.allRecords]
        and [CsvChunks] of the task data models.

    Conventions.
      - A JavaScript array is a [list]; [splice], [indexOf], [unshift] and
        [push] are written out with what they do out of range.
      - A JavaScript [Map] keeps its entries in insertion order: it is an
        association list, [keys] and [values] read it front to back.
      - An object compared with [===] (a task in [indexOf]) carries the
        identity it was allocated with.
      - The records of a CRUD job are objects that the engine changes in
        place: a record of a chunk the engine stores is named by its place,
        and what is assigned to it or deleted from it is written there.
      - Awaited calls run to completion one after the other, so an [async]
        method is the function from the state before to the state after.
      - What a method does to the outside (a call of a task, of the logger,
        of the prompt, a file written) is an event of its trace. The logger
        calls of [setup] and [saveCachedCsvDataFiles] are left out: they
        change nothing the methods compute. *)

From stdpp Require Import base tactics option list numbers strings gmap sorting.
From Stdlib Require Import ZArith Lia Ascii.

Local Open Scope Z_scope.
Local Open Scope nat_scope.

(** ** JavaScript arrays *)

Section JsArray.
Context {A : Type}.

(** The index at which [Array.prototype.splice] starts: a negative [start]
    counts from the end, and the result is clamped to [0 .. length]. *)
Definition spliceStart (len : nat) (start : Z) : nat :=
  if (start <? 0)%Z
  then Z.to_nat (Z.max (Z.of_nat len + start) 0)
  else Nat.min (Z.to_nat start) len.

(** [array.splice(start, 1)] *)
Definition splice_delete1 (l : list A) (start : Z) : list A :=
  let s := spliceStart (length l) start in
  take s l ++ drop (S s) l.

(** [array.splice(start, 0, x)] *)
Definition splice_insert (l : list A) (start : Z) (x : A) : list A :=
  let s := spliceStart (length l) start in
  take s l ++ x :: drop s l.

(** [array.unshift(x)] and [array.push(x)] *)
Definition unshift (l : list A) (x : A) : list A := x :: l.
Definition push (l : list A) (x : A) : list A := l ++ [x].

(** [array.indexOf(x)], with [same] for [===]: the first index holding
    [x], or [-1]. *)
Fixpoint indexOfFrom (same : A -> A -> bool) (l : list A) (x : A) (i : Z) : Z :=
  match l with
  | [] => (-1)%Z
  | y :: l' => if same y x then i else indexOfFrom same l' x (i + 1)%Z
  end.

Definition indexOf (same : A -> A -> bool) (l : list A) (x : A) : Z :=
  indexOfFrom same l x 0%Z.
End JsArray.

(** ** Entity descriptors and tasks *)

(** [CONSTANTS.RECORD_TYPE_SOBJECT_NAME]. Modelled from the spec: the module
    [statics] that declares the constant is not among the sources; the
    special entity placed first is the RecordType object. *)
Definition RECORD_TYPE_SOBJECT_NAME : string := "RecordType".

(** The members of [ScriptObject] that [MigrationJob.setup] reads or writes.
    [parentLookupObjects] and [parentMasterDetailObjects] are arrays of
    script objects of which [setup] reads the [name] only, so they are kept
    as lists of names. *)
Record ScriptObject : Type := mkScriptObject {
  name : string;
  allRecords : bool;
  isSpecialObject : bool;
  isObjectWithoutRelationships : bool;
  hasComplexExternalId : bool;
  hasAutonumberExternalId : bool;
  isReadonlyObject : bool;
  isLimitedQuery : bool;
  parentLookupObjects : list string;
  parentMasterDetailObjects : list string;
  processAllSource : bool;
  processAllTarget : bool
}.

(** A [MigrationJobTask]: [taskId] is the identity of the object made by
    [new Task(...)] (the position of its descriptor in [script.objects]). *)
Record Task : Type := mkTask {
  taskId : nat;
  scriptObject : ScriptObject
}.

Definition sameTask (t1 t2 : Task) : bool := taskId t1 =? taskId t2.

(** [task.sObjectName] *)
Definition sObjectName (t : Task) : string := name (scriptObject t).

(** [task.sourceData.allRecords]: [TaskOrgData.allRecords] with [isSource]. *)
Definition sourceData_allRecords (t : Task) : bool :=
  processAllSource (scriptObject t).

(** ** MigrationJob.setup *)

(** The assignments to [processAllSource] and [processAllTarget]. *)
Definition setProcessAll (objectToAdd : ScriptObject) : ScriptObject :=
  if allRecords objectToAdd || isSpecialObject objectToAdd
     || isObjectWithoutRelationships objectToAdd
  then mkScriptObject (name objectToAdd) (allRecords objectToAdd)
         (isSpecialObject objectToAdd) (isObjectWithoutRelationships objectToAdd)
         (hasComplexExternalId objectToAdd) (hasAutonumberExternalId objectToAdd)
         (isReadonlyObject objectToAdd) (isLimitedQuery objectToAdd)
         (parentLookupObjects objectToAdd) (parentMasterDetailObjects objectToAdd)
         true true
  else mkScriptObject (name objectToAdd) (allRecords objectToAdd)
         (isSpecialObject objectToAdd) (isObjectWithoutRelationships objectToAdd)
         (hasComplexExternalId objectToAdd) (hasAutonumberExternalId objectToAdd)
         (isReadonlyObject objectToAdd) (isLimitedQuery objectToAdd)
         (parentLookupObjects objectToAdd) (parentMasterDetailObjects objectToAdd)
         false
         (hasComplexExternalId objectToAdd || hasAutonumberExternalId objectToAdd).

(** [objects.some(x => x.name == n)] on a list of names *)
Definition someNamed (objects : list string) (n : string) : bool :=
  existsb (fun x => String.eqb x n) objects.

(** The state of the first [forEach] of [setup]. *)
Record Chain : Type := mkChain {
  tasks : list Task;
  lowerIndexForAnyObjects : nat;
  lowerIndexForReadonlyObjects : nat
}.

(** The [for] loop that looks for the index where a new object goes:
    [existedTaskIndex] runs from the end of the chain down to
    [lowerIndexForAnyObjects]. *)
Definition indexToInsertFor (ts : list Task) (lower : nat) (objectToAdd : ScriptObject) : nat :=
  foldl (fun indexToInsert existedTaskIndex =>
           match ts !! existedTaskIndex with
           | Some existedTask =>
               let isObjectToAdd_ParentLookup :=
                 someNamed (parentLookupObjects (scriptObject existedTask)) (name objectToAdd) in
               if isObjectToAdd_ParentLookup then existedTaskIndex else indexToInsert
           | None => indexToInsert
           end)
        (length ts)
        (reverse (seq lower (length ts - lower))).

(** The body of the first [forEach]; [index] is the position of
    [objectToAdd] in [script.objects]. *)
Definition addObject (c : Chain) (index : nat) (objectToAdd : ScriptObject) : Chain :=
  let objectToAdd := setProcessAll objectToAdd in
  let newTask := mkTask index objectToAdd in
  if String.eqb (name objectToAdd) RECORD_TYPE_SOBJECT_NAME then
    mkChain (unshift (tasks c) newTask)
            (S (lowerIndexForAnyObjects c)) (S (lowerIndexForReadonlyObjects c))
  else if isReadonlyObject objectToAdd then
    mkChain (splice_insert (tasks c) (Z.of_nat (lowerIndexForReadonlyObjects c)) newTask)
            (S (lowerIndexForAnyObjects c)) (lowerIndexForReadonlyObjects c)
  else if length (tasks c) =? 0 then
    mkChain (push (tasks c) newTask)
            (lowerIndexForAnyObjects c) (lowerIndexForReadonlyObjects c)
  else
    let indexToInsert := indexToInsertFor (tasks c) (lowerIndexForAnyObjects c) objectToAdd in
    mkChain (splice_insert (tasks c) (Z.of_nat indexToInsert) newTask)
            (lowerIndexForAnyObjects c) (lowerIndexForReadonlyObjects c).

Fixpoint addObjects (c : Chain) (index : nat) (objects : list ScriptObject) : Chain :=
  match objects with
  | [] => c
  | objectToAdd :: rest => addObjects (addObject c index objectToAdd) (S index) rest
  end.

(** The task chain after the first [forEach], before the fix-up loop. *)
Definition createTaskChain (objects : list ScriptObject) : list Task :=
  tasks (addObjects (mkChain [] 0 0) 0 objects).

(** [rightIsParentMasterDetailOfLeft] *)
Definition rightIsParentMasterDetailOfLeft (leftTask rightTask : Task) : bool :=
  someNamed (parentMasterDetailObjects (scriptObject leftTask)) (sObjectName rightTask).

(** The two [splice] calls that put [rightTask] at the index [leftTask] has. *)
Definition putBefore (ts : list Task) (leftTask rightTask : Task) : list Task :=
  let leftTaskIndex := indexOf sameTask ts leftTask in
  let rightTaskIndex := indexOf sameTask ts rightTask in
  splice_insert (splice_delete1 ts rightTaskIndex) leftTaskIndex rightTask.

(** One step of the inner [for] of [___putMasterDetailsBefore]; the state is
    [(swapped, self.tasks)]. *)
Definition rightStep (tempTasks : list Task) (leftTask : Task)
    (st : bool * list Task) (rightIndex : nat) : bool * list Task :=
  match tempTasks !! rightIndex with
  | Some rightTask =>
      if rightIsParentMasterDetailOfLeft leftTask rightTask
      then (true, putBefore st.2 leftTask rightTask)
      else st
  | None => st
  end.

(** One step of the outer [for]. *)
Definition leftStep (tempTasks : list Task)
    (st : bool * list Task) (leftIndex : nat) : bool * list Task :=
  match tempTasks !! leftIndex with
  | Some leftTask =>
      foldl (rightStep tempTasks leftTask) st
            (seq (S leftIndex) (length tempTasks - S leftIndex))
  | None => st
  end.

(** [___putMasterDetailsBefore()]: returns [swapped] and the new
    [self.tasks]; [tempTasks] is the copy taken on entry. *)
Definition ___putMasterDetailsBefore (ts : list Task) : bool * list Task :=
  let tempTasks := ts in
  foldl (leftStep tempTasks) (false, ts) (seq 0 (length tempTasks - 1)).

(** The loop
      [for (let iteration = 0; iteration < 10 || !swapped; iteration++)]
        [swapped = ___putMasterDetailsBefore();]
    [fuel] bounds the number of times the condition is tested: [None] says
    the loop was still running when the fuel ran out. ([iteration] only
    takes part in the test [iteration < 10], so it is counted in [nat].) *)
Fixpoint putMasterDetailsLoop (fuel : nat) (iteration : nat) (swapped : bool)
    (ts : list Task) : option (list Task) :=
  match fuel with
  | 0 => None
  | S fuel' =>
      if (iteration <? 10) || negb swapped
      then let r := ___putMasterDetailsBefore ts in
           putMasterDetailsLoop fuel' (S iteration) r.1 r.2
      else Some ts
  end.

(** The task chain after [n] runs of [___putMasterDetailsBefore]. *)
Fixpoint afterPasses (n : nat) (ts : list Task) : list Task :=
  match n with
  | 0 => ts
  | S n' => afterPasses n' (___putMasterDetailsBefore ts).2
  end.

(** The value of [swapped] after [n] runs, from the value it had. *)
Fixpoint swappedAfter (n : nat) (swapped : bool) (ts : list Task) : bool :=
  match n with
  | 0 => swapped
  | S n' => swappedAfter n' (___putMasterDetailsBefore ts).1 (___putMasterDetailsBefore ts).2
  end.

(** The two [forEach] that fill [queryTasks]. *)
Definition isQueriedFirst (task : Task) : bool :=
  sourceData_allRecords task || isLimitedQuery (scriptObject task).

Definition createQueryTasks (ts : list Task) : list Task :=
  let queryTasks :=
    foldl (fun queryTasks task =>
             if isQueriedFirst task then push queryTasks task else queryTasks) [] ts in
  foldl (fun queryTasks task =>
           if (indexOf sameTask queryTasks task <? 0)%Z
           then push queryTasks task else queryTasks) queryTasks ts.

(** [setup()] on a job whose [tasks] and [queryTasks] are still empty:
    the pair [(tasks, queryTasks)] it leaves, when the loop ends. *)
Definition setup (fuel : nat) (objects : list ScriptObject) : option (list Task * list Task) :=
  match putMasterDetailsLoop fuel 0 true (createTaskChain objects) with
  | Some ts => Some (ts, createQueryTasks ts)
  | None => None
  end.

(** ** MigrationJob.retrieveRecords *)

(** The string literals ["forwards" | "backwards" | "target"]. *)
Inductive QueryMode : Type := forwards | backwards | target.

(** The members of [RESOURCES] the two orchestration methods print. *)
Inductive RESOURCES : Type :=
  | newLine | separator | noRecords | nothingUpdated | writingToCSV
  | retrievingData | retrievingDataCompleted | fetchingSummary
  | queryingTotallyFetched | targetResource
  | Step1 | Step2 | Pass1 | Pass2 | Pass3 | Pass4
  | updatingTarget | updatingTargetObjectCompleted | updatingTargetCompleted.

Inductive LoggerMethod : Type :=
  | infoMinimal | infoNormal | infoVerbose | headerMinimal | headerNormal.

(** What [retrieveRecords] does, in order: a call of
    [task.retrieveRecords(queryMode, reversed)] or a call of the logger. *)
Inductive RetrieveEvent : Type :=
  | Retrieved (task : Task) (queryMode : QueryMode) (reversed : bool)
  | RLogged (method : LoggerMethod) (message : RESOURCES).

Section RetrieveRecords.
(** Whatever the tasks read and write besides (the orgs, the record maps). *)
Context {World : Type}.
(** [task.retrieveRecords]: a method of [MigrationJobTask], which is not
    in this file; it answers whether records were fetched. It is taken to
    return: a failure of the transport is an exception that ends the run. *)
Variable task_retrieveRecords : Task -> QueryMode -> bool -> World -> bool * World.

Record Retrieval : Type := mkRetrieval {
  world : World;
  retrieveTrace : list RetrieveEvent
}.

Definition rlog (method : LoggerMethod) (message : RESOURCES) (st : Retrieval) : Retrieval :=
  mkRetrieval (world st) (retrieveTrace st ++ [RLogged method message]).

(** [for (index ...) { retrieved = await task.retrieveRecords(..) || retrieved; }] *)
Definition retrieveLoop (queryTasks : list Task) (queryMode : QueryMode) (reversed : bool)
    (st : Retrieval) : bool * Retrieval :=
  foldl (fun (acc : bool * Retrieval) task =>
           let r := task_retrieveRecords task queryMode reversed (world acc.2) in
           (r.1 || acc.1,
            mkRetrieval r.2 (retrieveTrace acc.2 ++ [Retrieved task queryMode reversed])))
        (false, st) queryTasks.

(** [if (!retrieved) this.logger.infoNormal(RESOURCES.noRecords);] *)
Definition logIfNothing (r : bool * Retrieval) : Retrieval :=
  if r.1 then r.2 else rlog infoNormal noRecords r.2.

Definition retrieveRecords (queryTasks : list Task) (st : Retrieval) : Retrieval :=
  (* STEP 1 SOURCE FORWARDS *)
  let st := rlog infoMinimal newLine st in
  let st := rlog headerMinimal retrievingData st in
  let st := logIfNothing (retrieveLoop queryTasks forwards false st) in
  let st := rlog infoNormal retrievingDataCompleted st in
  (* STEP 2 SOURCE BACKWARDS, PASS 1 *)
  let st := rlog infoMinimal newLine st in
  let st := rlog headerMinimal retrievingData st in
  let st := rlog infoNormal Pass1 st in
  let st := rlog infoNormal separator st in
  let st := logIfNothing (retrieveLoop queryTasks backwards false st) in
  (* PASS 2 *)
  let st := rlog infoNormal newLine st in
  let st := rlog infoNormal Pass2 st in
  let st := rlog infoNormal separator st in
  let st := logIfNothing (retrieveLoop queryTasks backwards false st) in
  (* PASS 3, SOURCE FORWARDS (REVERSE A) *)
  let st := rlog infoNormal newLine st in
  let st := rlog infoNormal Pass3 st in
  let st := rlog infoNormal separator st in
  let st := logIfNothing (retrieveLoop queryTasks forwards true st) in
  (* PASS 4, SOURCE FORWARDS (REVERSE B) *)
  let st := rlog infoNormal newLine st in
  let st := rlog infoNormal Pass4 st in
  let st := rlog infoNormal separator st in
  let st := logIfNothing (retrieveLoop queryTasks forwards true st) in
  (* STEP 3 TARGET *)
  let st := rlog infoMinimal newLine st in
  let st := rlog infoMinimal targetResource st in
  let st := rlog infoMinimal separator st in
  let st := logIfNothing (retrieveLoop queryTasks target false st) in
  let st := rlog infoNormal retrievingDataCompleted st in
  (* TOTAL FETCHED SUMMARY *)
  let st := rlog infoNormal newLine st in
  let st := rlog headerNormal fetchingSummary st in
  foldl (fun st (_ : Task) => rlog infoNormal queryingTotallyFetched st) st queryTasks.
End RetrieveRecords.

(** The calls of [task.retrieveRecords] in a trace, in order. *)
Definition retrieveCalls (tr : list RetrieveEvent) : list (Task * QueryMode * bool) :=
  omap (fun e => match e with
                 | Retrieved task queryMode reversed => Some (task, queryMode, reversed)
                 | RLogged _ _ => None
                 end) tr.

(** The calls of one pass: every task of [queryTasks], in query order. *)
Definition callsOfPass (queryTasks : list Task) (queryMode : QueryMode) (reversed : bool)
    : list (Task * QueryMode * bool) :=
  (fun task => (task, queryMode, reversed)) <$> queryTasks.

(** ** MigrationJob.updateRecords *)

(** [IMissingParentLookupRecordCsvRow] *)
Record IMissingParentLookupRecordCsvRow : Type := mkMissingParentLookup {
  Date_update : string;
  Child_lookup_object : string;
  Child_lookup_field : string;
  Child_ExternalId_field : string;
  Parent_lookup_object : string;
  Parent_ExternalId_field : string;
  Missing_parent_ExternalId_value : string
}.

(** [ProcessedData], of which the orchestrator reads [missingParentLookups]. *)
Record ProcessedData : Type := mkProcessedData {
  missingParentLookups : list IMissingParentLookupRecordCsvRow
}.

(** [DATA_MEDIA_TYPE] *)
Inductive DATA_MEDIA_TYPE : Type := Org | File.

(** [CONSTANTS.MISSING_PARENT_LOOKUP_RECORDS_ERRORS_FILENAME]. Modelled from
    the spec: the constant is declared in [statics], which is not among the
    sources; it names the missing-lookup report file, and no property
    depends on the name. *)
Definition MISSING_PARENT_LOOKUP_RECORDS_ERRORS_FILENAME : string :=
  "MissingParentRecordsReport.csv".

(** What [updateRecords] does, in order: a call of [task.updateRecords], of
    [Common.abortWithPrompt], of [logger.warn] (both with
    [RESOURCES.missingParentLookupsPrompt], the name of the object and the
    number of missing lookups), of [Common.writeCsvFileAsync], or of another
    method of the logger. *)
Inductive UpdateEvent : Type :=
  | Updated (task : Task) (updateMode : QueryMode)
  | PromptedToAbort (sObjectName : string) (missing : nat)
  | Warned (sObjectName : string) (missing : nat)
  | SavedCSVFile (fileName : string) (data : list IMissingParentLookupRecordCsvRow)
  | ULogged (method : LoggerMethod) (message : RESOURCES).

(** A method that works on a state [S] and returns, or throws: [None] is a
    thrown exception, which the callers here never catch. *)
Definition Job (S A : Type) : Type := S -> option A * S.

Definition jret {S A} (a : A) : Job S A := fun s => (Some a, s).
Definition jbind {S A B} (m : Job S A) (k : A -> Job S B) : Job S B :=
  fun s => match m s with
           | (Some a, s') => k a s'
           | (None, s') => (None, s')
           end.
Definition jthrow {S A} : Job S A := fun s => (None, s).
Definition jget {S} : Job S S := fun s => (Some s, s).
Definition jmodify {S} (f : S -> S) : Job S unit := fun s => (Some tt, f s).

#[global] Instance job_ret {S} : MRet (Job S) := fun A => @jret S A.
#[global] Instance job_bind {S} : MBind (Job S) := fun A B k m => @jbind S A B m k.

(** [for (const x of l) { await body(x); }] *)
Fixpoint jforEach {S A} (l : list A) (body : A -> Job S unit) : Job S unit :=
  match l with
  | [] => jret tt
  | x :: l' => body x ;; jforEach l' body
  end.

(** A call of the callback: the task that makes it and the data. *)
Definition Report : Type := Task * ProcessedData.

(** The rows of a list of reports, one report after the other. *)
Definition reportedRows (rs : list Report) : list IMissingParentLookupRecordCsvRow :=
  rs ≫= fun r => missingParentLookups r.2.

Definition promptFor (r : Report) : UpdateEvent :=
  PromptedToAbort (sObjectName r.1) (length (missingParentLookups r.2)).

Definition warningFor (r : Report) : UpdateEvent :=
  Warned (sObjectName r.1) (length (missingParentLookups r.2)).

(** The prompts and the warnings of a trace, and the prompts alone. *)
Definition promptsAndWarnings (tr : list UpdateEvent) : list UpdateEvent :=
  omap (fun e => match e with
                 | PromptedToAbort _ _ | Warned _ _ => Some e
                 | _ => None
                 end) tr.

Definition prompts (tr : list UpdateEvent) : list UpdateEvent :=
  omap (fun e => match e with
                 | PromptedToAbort _ _ => Some e
                 | _ => None
                 end) tr.

(** The report files a trace saves. *)
Definition savedFiles (tr : list UpdateEvent)
    : list (string * list IMissingParentLookupRecordCsvRow) :=
  omap (fun e => match e with
                 | SavedCSVFile fileName data => Some (fileName, data)
                 | _ => None
                 end) tr.

Section UpdateRecords.
(** [task.updateRecords(updateMode, callback)], a method of
    [MigrationJobTask], which is not in this file: what it does in a run,
    for each task and pass, is the data it hands to the callback, call
    after call, and the amount of processed records it returns. *)
Variable task_updateRecords : Task -> QueryMode -> list ProcessedData * nat.
(** Modelled from the spec: [Common.abortWithPrompt] is not among the
    sources. It is the abort-prompt collaborator (continue or abort):
    answered negatively it runs the [onBeforeAbort] callback it was given
    and raises the job-abort condition; [userContinues] is the answer,
    which may depend on what the prompt shows. *)
Variable userContinues : string -> nat -> bool.
(** [script.targetOrg.media] *)
Variable targetOrgMedia : DATA_MEDIA_TYPE.

Record Update : Type := mkUpdate {
  noAbortPrompt : bool;
  totalProcessedRecordsAmount : nat;
  allMissingParentLookups : list IMissingParentLookupRecordCsvRow;
  updateTrace : list UpdateEvent
}.

Definition emit (e : UpdateEvent) : Job Update unit :=
  jmodify (fun s => mkUpdate (noAbortPrompt s)
                      (totalProcessedRecordsAmount s) (allMissingParentLookups s)
                      (updateTrace s ++ [e])).

(** [saveCSVFileAsync(fileName, data)] *)
Definition saveCSVFileAsync (fileName : string)
    (data : list IMissingParentLookupRecordCsvRow) : Job Update unit :=
  emit (ULogged infoVerbose writingToCSV) ;;
  emit (SavedCSVFile fileName data).

Definition abortWithPrompt (sObjectName : string) (missing : nat)
    (onBeforeAbortAsync : Job Update unit) : Job Update unit :=
  emit (PromptedToAbort sObjectName missing) ;;
  if userContinues sObjectName missing then jret tt
  else onBeforeAbortAsync ;; jthrow.

(** [___promptToAbort(data, sObjectName)] *)
Definition ___promptToAbort (data : ProcessedData) (sObjectName : string) : Job Update unit :=
  abortWithPrompt sObjectName (length (missingParentLookups data))
    (s ← jget;
     saveCSVFileAsync MISSING_PARENT_LOOKUP_RECORDS_ERRORS_FILENAME
       (allMissingParentLookups s)).

(** [___warn(data, sObjectName)] *)
Definition ___warn (data : ProcessedData) (sObjectName : string) : Job Update unit :=
  emit (Warned sObjectName (length (missingParentLookups data))).

(** The callback both passes hand to [task.updateRecords]. *)
Definition warnUserCallback (task : Task) (data : ProcessedData) : Job Update unit :=
  jmodify (fun s => mkUpdate (noAbortPrompt s) (totalProcessedRecordsAmount s)
                      (allMissingParentLookups s ++ missingParentLookups data)
                      (updateTrace s)) ;;
  s ← jget;
  if noAbortPrompt s then ___warn data (sObjectName task)
  else
    ___promptToAbort data (sObjectName task) ;;
    jmodify (fun s => mkUpdate true (totalProcessedRecordsAmount s)
                        (allMissingParentLookups s) (updateTrace s)).

(** The body of the [for] loop of either pass. *)
Definition updateTask (updateMode : QueryMode) (task : Task) : Job Update unit :=
  let r := task_updateRecords task updateMode in
  emit (Updated task updateMode) ;;
  jforEach r.1 (warnUserCallback task) ;;
  let processedRecordsAmount := r.2 in
  (if 0 <? processedRecordsAmount
   then emit (ULogged infoNormal updatingTargetObjectCompleted) else jret tt) ;;
  jmodify (fun s => mkUpdate (noAbortPrompt s)
                      (totalProcessedRecordsAmount s + processedRecordsAmount)
                      (allMissingParentLookups s) (updateTrace s)).

Definition logTotal : Job Update unit :=
  s ← jget;
  if 0 <? totalProcessedRecordsAmount s
  then emit (ULogged infoNormal updatingTargetCompleted)
  else emit (ULogged infoNormal nothingUpdated).

Definition resetTotal : Job Update unit :=
  jmodify (fun s => mkUpdate (noAbortPrompt s) 0
                      (allMissingParentLookups s) (updateTrace s)).

(** The two passes, up to the last log before the report is saved. *)
Definition updatePasses (ts : list Task) : Job Update unit :=
  (* STEP 1 FORWARDS *)
  emit (ULogged infoMinimal newLine) ;;
  emit (ULogged headerMinimal updatingTarget) ;;
  jforEach ts (updateTask forwards) ;;
  logTotal ;;
  (* STEP 2 BACKWARDS *)
  emit (ULogged infoMinimal newLine) ;;
  emit (ULogged headerMinimal updatingTarget) ;;
  resetTotal ;;
  (match targetOrgMedia with
   | Org => jforEach ts (updateTask backwards)
   | File => jret tt
   end) ;;
  logTotal ;;
  emit (ULogged infoVerbose newLine).

Definition updateRecords (ts : list Task) : Job Update unit :=
  updatePasses ts ;;
  s ← jget;
  saveCSVFileAsync MISSING_PARENT_LOOKUP_RECORDS_ERRORS_FILENAME (allMissingParentLookups s).

(** The state [updateRecords] starts from:
    [noAbortPrompt = false], [totalProcessedRecordsAmount = 0],
    [allMissingParentLookups = new Array()]. *)
Definition updateStart : Update := mkUpdate false 0 [] [].

(** The calls of the callback in one pass, and in both passes, in the order
    they are made when none aborts the run. *)
Definition reportsOfPass (ts : list Task) (updateMode : QueryMode) : list Report :=
  ts ≫= fun task => (fun data => (task, data)) <$> (task_updateRecords task updateMode).1.

Definition allReports (ts : list Task) : list Report :=
  reportsOfPass ts forwards
  ++ match targetOrgMedia with
     | Org => reportsOfPass ts backwards
     | File => []
     end.

(** The answer to the prompt a report would trigger. *)
Definition answer (r : Report) : bool :=
  userContinues (sObjectName r.1) (length (missingParentLookups r.2)).

(** The calls of the callback that are made in the run: all of them, or the
    first alone when the prompt it triggers is answered with abort. *)
Definition reportsMade (ts : list Task) : list Report :=
  match allReports ts with
  | [] => []
  | r :: later => if answer r then r :: later else [r]
  end.

(** A part of the run that makes the calls [rs] of the callback, seen from
    the state [s] it starts in: it goes on past them when the prompt was shown
    before or is answered with continue. *)
Definition continues (prompted : bool) (rs : list Report) : bool :=
  prompted || match rs with [] => true | r :: _ => answer r end.

Definition eventsFor (prompted : bool) (rs : list Report) : list UpdateEvent :=
  if prompted then warningFor <$> rs
  else match rs with
       | [] => []
       | r :: later => promptFor r :: (warningFor <$> later)
       end.

Definition delivered (s s' : Update) (rs : list Report) : Prop :=
  noAbortPrompt s' = match rs with [] => noAbortPrompt s | _ => true end
  /\ allMissingParentLookups s' = allMissingParentLookups s ++ reportedRows rs
  /\ promptsAndWarnings (updateTrace s')
     = promptsAndWarnings (updateTrace s) ++ eventsFor (noAbortPrompt s) rs
  /\ savedFiles (updateTrace s') = savedFiles (updateTrace s).

Definition aborted (s s' : Update) (rs : list Report) : Prop :=
  exists r later,
    rs = r :: later
    /\ allMissingParentLookups s' = allMissingParentLookups s ++ reportedRows [r]
    /\ promptsAndWarnings (updateTrace s')
       = promptsAndWarnings (updateTrace s) ++ [promptFor r]
    /\ savedFiles (updateTrace s')
       = savedFiles (updateTrace s)
         ++ [(MISSING_PARENT_LOOKUP_RECORDS_ERRORS_FILENAME, allMissingParentLookups s')].

Definition delivers (m : Job Update unit) (rs : list Report) : Prop :=
  forall s,
    if continues (noAbortPrompt s) rs
    then exists s', m s = (Some tt, s') /\ delivered s s' rs
    else exists s', m s = (None, s') /\ aborted s s' rs.

(** A part of the run that calls the callback never and throws never. *)
Definition silent (m : Job Update unit) : Prop :=
  forall s, exists s', m s = (Some tt, s') /\ delivered s s' [].
End UpdateRecords.

(** ** CachedCSVContent and MigrationJob.saveCachedCsvDataFiles *)

(** A JavaScript [Map]: entries in insertion order. *)
Definition JsMap (K V : Type) : Type := list (K * V).

Section JsMap.
Context {K V : Type} `{EqDecision K}.

Definition jsmap_keys (m : JsMap K V) : list K := m.*1.
Definition jsmap_values (m : JsMap K V) : list V := m.*2.

Fixpoint jsmap_get (m : JsMap K V) (k : K) : option V :=
  match m with
  | [] => None
  | (k', v) :: m' => if decide (k' = k) then Some v else jsmap_get m' k
  end.
End JsMap.

(** A row of a csv file: the values by column. *)
Definition CsvRow : Type := list (string * string).

(** [String(num)] for a whole number [0 <= num]: its decimal digits, the
    most significant first. *)
Definition digitChar (d : Z) : ascii := ascii_of_nat (48 + Z.to_nat d).

Fixpoint digitsOf (fuel : nat) (num : Z) (acc : string) : string :=
  match fuel with
  | 0 => acc
  | S fuel' =>
      let acc' := String (digitChar (num mod 10)) acc in
      if (num / 10 =? 0)%Z then acc' else digitsOf fuel' (num / 10) acc'
  end.

Definition numberToString (num : Z) : string :=
  digitsOf (S (Z.to_nat (Z.log2 num))) num "".

Fixpoint leadingZeros (k : nat) (s : string) : string :=
  match k with
  | 0 => s
  | S k' => String "0"%char (leadingZeros k' s)
  end.

(** [Common.addLeadnigZeros(num, size)]. Modelled from the spec: the class
    [Common] is not among the sources; the counter is printed as a
    zero-padded decimal of fixed width [size]: zeros are put in front of the
    decimal numeral until it is [size] characters long. *)
Definition addLeadnigZeros (num : Z) (size : nat) : string :=
  let s := numberToString num in
  leadingZeros (size - String.length s) s.

(** [idCounter] is a JavaScript number. On the values the counter takes
    (whole numbers from 1 on) adding 1 is exact below 2^53, and
    2^53 + 1 is rounded back to 2^53. *)
Definition MAX_EXACT : Z := 2 ^ 53.

Definition increment (n : Z) : Z :=
  if (n <? MAX_EXACT)%Z then (n + 1)%Z else n.

Record CachedCSVContent : Type := mkCachedCSVContent {
  csvDataCacheMap : JsMap string (JsMap string CsvRow);
  updatedFilenames : gset string;
  idCounter : Z
}.

(** [clear()], which the constructor calls. *)
Definition clear : CachedCSVContent := mkCachedCSVContent [] ∅ 1%Z.

(** [get nextId()]: the value read, and the cache with [idCounter++] done. *)
Definition nextId (c : CachedCSVContent) : string * CachedCSVContent :=
  ("ID" +:+ addLeadnigZeros (idCounter c) 16,
   mkCachedCSVContent (csvDataCacheMap c) (updatedFilenames c) (increment (idCounter c))).

(** [n] reads of [nextId], one after the other: the ids read, and the cache. *)
Fixpoint nextIds (n : nat) (c : CachedCSVContent) : list string * CachedCSVContent :=
  match n with
  | 0 => ([], c)
  | S n' => let r := nextId c in
            let rs := nextIds n' r.2 in
            (r.1 :: rs.1, rs.2)
  end.

(** The disk, as far as the job writes it: the calls of
    [Common.writeCsvFileAsync(filePath, rows, true)], in order, each taken
    to succeed. *)
Definition Disk : Type := list (string * list CsvRow).

Definition writeCsvFileAsync (filePath : string) (rows : list CsvRow) (d : Disk) : Disk :=
  d ++ [(filePath, rows)].

(** [saveCachedCsvDataFiles()]: it reads the cache and assigns to none of
    its members. *)
Definition saveCachedCsvDataFiles (c : CachedCSVContent) (d : Disk) : Disk :=
  let filePaths := jsmap_keys (csvDataCacheMap c) in
  foldl (fun d filePath =>
           if decide (filePath ∈ updatedFilenames c) then
             match jsmap_get (csvDataCacheMap c) filePath with
             | Some csvData => writeCsvFileAsync filePath (jsmap_values csvData) d
             | None => d
             end
           else d)
        d filePaths.

(** The paths a sequence of writes went to. *)
Definition writtenPaths (d : Disk) : list string := d.*1.

(** ** ApiEngineBase.processCRUDApiJobAsync *)

Section ApiEngineBase.
(** A record sent to or returned by the API ([any] in the source). *)
Context {Rec : Type}.

(** [ICsvChunk] *)
Record ICsvChunk : Type := mkCsvChunk {
  csvString : string;
  records : list Rec
}.

(** The members of the engine the method reads;
    [chunks] is [apiJobCreateResult.chunks.chunks]. *)
Record ApiEngineBase : Type := mkApiEngine {
  simulationMode : bool;
  createTargetCSVFiles : bool;
  targetCSVFullFilename : string;
  chunks : list ICsvChunk
}.

(** The target csv file: the calls of [Common.writeCsvFileAsync] on it. *)
Definition TargetDisk : Type := list (string * list Rec).

(** [processCRUDApiBatchAsync] and [processCRUDSimulationBatchAsync] are
    the methods the engines override; each answers the result records of
    one chunk, or a value that [!resultRecords] takes for an error
    ([null]), which is [None]. *)
Variable processCRUDApiBatchAsync : ICsvChunk -> option (list Rec).
Variable processCRUDSimulationBatchAsync : ICsvChunk -> option (list Rec).

(** [writeToTargetCSVFileAsync(records)] *)
Definition writeToTargetCSVFileAsync (e : ApiEngineBase) (recs : list Rec)
    (d : TargetDisk) : TargetDisk :=
  if createTargetCSVFiles e
  then d ++ [(targetCSVFullFilename e, recs)]
  else d.

(** What processing one chunk yields, by the mode of the engine: the
    [if (!this.simulationMode)] of the loop body. *)
Definition chunkResult (e : ApiEngineBase) (csvCunk : ICsvChunk) : option (list Rec) :=
  if negb (simulationMode e)
  then processCRUDApiBatchAsync csvCunk
  else processCRUDSimulationBatchAsync csvCunk.

(** The [for] loop over the chunks, from [index] on, with
    [allResultRecords] so far; then the write and the return. *)
Fixpoint processChunks (e : ApiEngineBase) (rest : list ICsvChunk)
    (allResultRecords : list Rec) (d : TargetDisk) : option (list Rec) * TargetDisk :=
  match rest with
  | [] => (Some allResultRecords, writeToTargetCSVFileAsync e allResultRecords d)
  | csvCunk :: rest' =>
      match chunkResult e csvCunk with
      | None => (None, writeToTargetCSVFileAsync e [] d)
      | Some resultRecords => processChunks e rest' (allResultRecords ++ resultRecords) d
      end
  end.

Definition processCRUDApiJobAsync (e : ApiEngineBase) (d : TargetDisk)
    : option (list Rec) * TargetDisk :=
  processChunks e (chunks e) [] d.
End ApiEngineBase.

(** An engine that creates no target csv files, with two chunks of numbers;
    and a batch processor that fails on the chunks holding a [0]. *)
Definition engineWithoutTargetCSV : @ApiEngineBase nat :=
  mkApiEngine false false "target.csv" [mkCsvChunk "" [1; 2]; mkCsvChunk "" [0; 3]].

Definition failOnZero (csvChunk : @ICsvChunk nat) : option (list nat) :=
  if bool_decide (0 ∈ records csvChunk) then None else Some (records csvChunk).

(** ** The order of the task chain, as the properties state it *)

(** The three zones of the chain: the RecordType object (0), the readonly
    objects (1), every other object (2); [addObject] tests them in this
    order. *)
Definition zoneOf (o : ScriptObject) : nat :=
  if String.eqb (name o) RECORD_TYPE_SOBJECT_NAME then 0
  else if isReadonlyObject o then 1 else 2.

Definition zone (t : Task) : nat := zoneOf (scriptObject t).

Definition zoneLe (t1 t2 : Task) : Prop := zone t1 <= zone t2.

Definition isRecordType (t : Task) : bool :=
  String.eqb (sObjectName t) RECORD_TYPE_SOBJECT_NAME.

(** A special entity, if present, is first. *)
Definition specialFirst (ts : list Task) : Prop :=
  (exists t, t ∈ ts /\ isRecordType t = true) ->
  exists t0, head ts = Some t0 /\ isRecordType t0 = true.

(** Every readonly entity precedes every entity that is neither special
    nor readonly. *)
Definition readonlyBeforeOthers (ts : list Task) : Prop :=
  forall i j r o, ts !! i = Some r -> ts !! j = Some o ->
    isReadonlyObject (scriptObject r) = true ->
    isRecordType o = false -> isReadonlyObject (scriptObject o) = false ->
    i < j.

Definition zonesInOrder (ts : list Task) : Prop :=
  specialFirst ts /\ readonlyBeforeOthers ts.

(** No entity of the set names, among its master-detail parents, an entity
    of the set that belongs to a later zone. *)
Definition masterDetailsStayInZone (objects : list ScriptObject) : Prop :=
  forall child parent, child ∈ objects -> parent ∈ objects ->
    someNamed (parentMasterDetailObjects child) (name parent) = true ->
    zoneOf parent <= zoneOf child.

(** The chain is made of the three zones, one after the other, and the two
    lower indexes are where the second and the third start. *)
Definition chainZones (c : Chain) : Prop :=
  exists l0 l1 l2,
    tasks c = l0 ++ l1 ++ l2
    /\ Forall (fun t => zone t = 0) l0
    /\ Forall (fun t => zone t = 1) l1
    /\ Forall (fun t => zone t = 2) l2
    /\ lowerIndexForReadonlyObjects c = length l0
    /\ lowerIndexForAnyObjects c = length l0 + length l1.

(** The condition of [masterDetailsStayInZone], on the tasks of a chain. *)
Definition tasksStayInZone (ts : list Task) : Prop :=
  forall leftTask rightTask, leftTask ∈ ts -> rightTask ∈ ts ->
    rightIsParentMasterDetailOfLeft leftTask rightTask = true ->
    zone rightTask <= zone leftTask.



(** ** Descriptor sets used as examples *)

(** A descriptor with the given name, readonly trait and parents, and no
    other trait. *)
Definition entity (n : string) (readonly : bool)
    (lookups masterDetails : list string) : ScriptObject :=
  mkScriptObject n false false false false false readonly false
    lookups masterDetails false false.

(** [A] has no parents, [B] looks up [A], [C] is a master-detail child of
    [B]; supplied in the order [C], [A], [B]. [masterDetailIsLookup] says
    whether the master-detail parent of [C] is also listed among its parent
    lookups. *)
Definition descriptorsCAB (masterDetailIsLookup : bool) : list ScriptObject :=
  [ entity "C" false (if masterDetailIsLookup then ["B"%string] else []) ["B"%string];
    entity "A" false [] [];
    entity "B" false ["A"%string] [] ].

(** A readonly detail [R] of a master [N] that is not readonly, and two
    entities [X] and [Y] that are master-detail parents of each other; a
    master-detail parent is listed among the parent lookups too. *)
Definition descriptorsReadonlyDetail : list ScriptObject :=
  [ entity "R" true ["N"%string] ["N"%string];
    entity "N" false [] [];
    entity "X" false ["Y"%string] ["Y"%string];
    entity "Y" false ["X"%string] ["X"%string] ].

(** The RecordType object, a readonly entity, and [X] and [Y] as above. *)
Definition descriptorsZones : list ScriptObject :=
  [ entity "X" false ["Y"%string] ["Y"%string];
    entity "R" true [] [];
    entity "Y" false ["X"%string] ["X"%string];
    entity RECORD_TYPE_SOBJECT_NAME false [] [] ].





(** The decimal numeral of [n] on [w] digits, zero-padded: digit by digit,
    the most significant first. *)
Fixpoint fixedWidthDecimal (w : nat) (n : Z) : string :=
  match w with
  | 0 => ""
  | S w' => String (digitChar (n / 10 ^ Z.of_nat w' mod 10)) (fixedWidthDecimal w' n)
  end.

(** [s1 < s2] on JavaScript strings: the code units are compared from the
    left. *)
Definition string_lt (s1 s2 : string) : Prop := String.compare s1 s2 = Lt.

(** The id of a counter value: ["ID"], then the value on 16 digits; and the
    ids of [n] counter values in a row. *)
Definition syntheticId (counter : Z) : string :=
  "ID" +:+ fixedWidthDecimal 16 counter.

Fixpoint syntheticIds (counter : Z) (n : nat) : list string :=
  match n with
  | 0 => []
  | S n' => syntheticId counter :: syntheticIds (counter + 1) n'
  end.

(** A cache of two files, of which [a.csv] alone is marked dirty. *)
Definition cacheWithDirtyFile : CachedCSVContent :=
  mkCachedCSVContent
    [ ("a.csv"%string, [("ID0000000000000001"%string, [("Id", "ID0000000000000001")]%string)]);
      ("b.csv"%string, []) ]
    {[ "a.csv"%string ]}
    2%Z.

(** ** Other members of the job and of the task data *)

(** [task.targetData.allRecords]: [TaskOrgData.allRecords] without
    [isSource]. *)
Definition targetData_allRecords (t : Task) : bool :=
  processAllTarget (scriptObject t).

(** [getTaskBySObjectName(sObjectName)]: [filter(...)[0]], which is
    [undefined] ([None]) when no task has the name. *)
Definition getTaskBySObjectName (ts : list Task) (n : string) : option Task :=
  head (filter (fun x => sObjectName x = n) ts).

(** [TaskData.prevTasks] and [TaskData.nextTasks] of a task, over
    [task.job.tasks]. *)
Definition prevTasks (jobTasks : list Task) (this_task : Task) : list Task :=
  filter (fun task => (indexOf sameTask jobTasks task < indexOf sameTask jobTasks this_task)%Z)
         jobTasks.

Definition nextTasks (jobTasks : list Task) (this_task : Task) : list Task :=
  filter (fun task => (indexOf sameTask jobTasks task > indexOf sameTask jobTasks this_task)%Z)
         jobTasks.

(** The task [setup] makes for the descriptor at position [i]. *)
Definition taskOf (i : nat) (o : ScriptObject) : Task := mkTask i (setProcessAll o).

(** Whether a task names the object among its parent lookups. *)
Definition looksUp (t : Task) (o : ScriptObject) : bool :=
  someNamed (parentLookupObjects (scriptObject t)) (name o).

(** ** MigrationJob.getTotalRecordsCount and MigrationJob.deleteOldRecords *)

(** The members of [RESOURCES] these two methods and the validation of the
    csv files print, besides the ones above. *)
Inductive JOB_RESOURCES : Type :=
  | gettingRecordsCount | deletingOldData
  | deletingOldDataCompleted | deletingOldDataSkipped
  | readingValuesMappingFile
  | validatingAndFixingSourceCSVFiles | validationAndFixingsourceCSVFilesCompleted
  | validatingSourceCSVFilesSkipped | csvFilesWereUpdated
  | noIssuesFoundDuringCSVValidation.

(** What the two methods do, in order: a call of
    [task.getTotalRecordsCountAsync()], of [task.deleteOldTargetRecords()],
    or of the logger. *)
Inductive JobEvent : Type :=
  | CountedRecords (task : Task)
  | DeletedOldRecords (task : Task)
  | JLogged (method : LoggerMethod) (message : RESOURCES + JOB_RESOURCES).

Section TaskLoops.
Context {World : Type}.
(** Two methods of [MigrationJobTask], which is not in this file; the second
    answers whether records were deleted. *)
Variable task_getTotalRecordsCountAsync : Task -> World -> World.
Variable task_deleteOldTargetRecords : Task -> World -> bool * World.

Record JobRun : Type := mkJobRun {
  jobWorld : World;
  jobTrace : list JobEvent
}.

Definition jlog (method : LoggerMethod) (message : RESOURCES + JOB_RESOURCES)
    (st : JobRun) : JobRun :=
  mkJobRun (jobWorld st) (jobTrace st ++ [JLogged method message]).

(** [getTotalRecordsCount()] *)
Definition getTotalRecordsCount (ts : list Task) (st : JobRun) : JobRun :=
  let st := jlog infoMinimal (inl newLine) st in
  let st := jlog headerMinimal (inr gettingRecordsCount) st in
  foldl (fun st task =>
           mkJobRun (task_getTotalRecordsCountAsync task (jobWorld st))
                    (jobTrace st ++ [CountedRecords task]))
        st ts.

(** [deleteOldRecords()]: [index] runs from [tasks.length - 1] down to [0],
    and [deleted = await task.deleteOldTargetRecords() || deleted] makes the
    call before it reads [deleted]. *)
Definition deleteOldRecords (ts : list Task) (st : JobRun) : JobRun :=
  let st := jlog infoMinimal (inl newLine) st in
  let st := jlog headerMinimal (inr deletingOldData) st in
  let r := foldl (fun (acc : bool * JobRun) task =>
                    let r := task_deleteOldTargetRecords task (jobWorld acc.2) in
                    (r.1 || acc.1,
                     mkJobRun r.2 (jobTrace acc.2 ++ [DeletedOldRecords task])))
                 (false, st) (reverse ts) in
  if r.1 then jlog infoVerbose (inr deletingOldDataCompleted) r.2
  else jlog infoVerbose (inr deletingOldDataSkipped) r.2.
End TaskLoops.

(** The tasks a trace calls, in order, and the messages it logs. *)
Definition taskCalls (tr : list JobEvent) : list Task :=
  omap (fun e => match e with
                 | CountedRecords task | DeletedOldRecords task => Some task
                 | JLogged _ _ => None
                 end) tr.

Definition jobMessages (tr : list JobEvent) : list (RESOURCES + JOB_RESOURCES) :=
  omap (fun e => match e with
                 | JLogged _ message => Some message
                 | _ => None
                 end) tr.

(** The calls of [task.updateRecords] in a trace, in order. *)
Definition updateCalls (tr : list UpdateEvent) : list (Task * QueryMode) :=
  omap (fun e => match e with
                 | Updated task updateMode => Some (task, updateMode)
                 | _ => None
                 end) tr.

(** A part of [updateRecords] that makes the calls [calls] of
    [task.updateRecords] when it returns, and the first of them when it
    throws. *)
Definition makesCalls (m : Job Update unit) (calls : list (Task * QueryMode)) : Prop :=
  forall s,
    match (m s).1 with
    | Some _ => updateCalls (updateTrace (m s).2) = updateCalls (updateTrace s) ++ calls
    | None => exists k, updateCalls (updateTrace (m s).2)
                        = updateCalls (updateTrace s) ++ take k calls
    end.

(** The calls of one pass over the chain. *)
Definition callsOfUpdatePass (ts : list Task) (updateMode : QueryMode)
    : list (Task * QueryMode) :=
  (fun task => (task, updateMode)) <$> ts.

(** ** MigrationJob.validateCSVFiles *)

Section JsMapSet.
Context {K V : Type} `{EqDecision K}.

(** [map.has(k)] and [map.set(k, v)]: a key that is there keeps its place. *)
Definition jsmap_has (m : JsMap K V) (k : K) : bool :=
  match jsmap_get m k with Some _ => true | None => false end.

Fixpoint jsmap_set (m : JsMap K V) (k : K) (v : V) : JsMap K V :=
  match m with
  | [] => [(k, v)]
  | (k', v') :: m' =>
      if decide (k' = k) then (k, v) :: m' else (k', v') :: jsmap_set m' k v
  end.
End JsMapSet.

(** A cell of a row read from a csv file, a string or [null]; [row[column]]
    is [undefined] ([None]) when the row has no such column. *)
Inductive CsvCell : Type := cellNull | cellText (s : string).

Definition RawCsvRow : Type := JsMap string CsvCell.

Definition cellOf (row : RawCsvRow) (column : string) : option CsvCell :=
  jsmap_get row column.

(** A value taken for a condition: [undefined], [null] and the empty string
    are falsy. *)
Definition truthy (v : option CsvCell) : bool :=
  match v with
  | Some (cellText s) => negb (String.eqb s "")
  | _ => false
  end.

(** [String(v)] *)
Definition JsString (v : option CsvCell) : string :=
  match v with
  | None => "undefined"
  | Some cellNull => "null"
  | Some (cellText s) => s
  end.

Section LoadCSVValueMapping.
(** [String.prototype.trim] *)
Variable trim : string -> string.

Definition valueMappingKey (row : RawCsvRow) : string :=
  trim (JsString (cellOf row "ObjectName")) +:+ trim (JsString (cellOf row "FieldName")).

Definition valueMappingRawValue (row : RawCsvRow) : string :=
  trim (JsString (cellOf row "RawValue")).

(** [(String(row["Value"]) || "").trim()] *)
Definition valueMappingValue (row : RawCsvRow) : string :=
  let v := JsString (cellOf row "Value") in
  trim (if String.eqb v "" then "" else v).

(** [row["ObjectName"] && row["FieldName"]] *)
Definition isValueMappingRow (row : RawCsvRow) : bool :=
  truthy (cellOf row "ObjectName") && truthy (cellOf row "FieldName").

(** The body of the [forEach] of [_loadCSVValueMappingFileAsync]. The inner
    map is there when it is read: it was set just before if it was not. *)
Definition loadValueMappingRow (csvValuesMapping : JsMap string (JsMap string string))
    (row : RawCsvRow) : JsMap string (JsMap string string) :=
  if isValueMappingRow row then
    let key := valueMappingKey row in
    let csvValuesMapping :=
      if negb (jsmap_has csvValuesMapping key)
      then jsmap_set csvValuesMapping key [] else csvValuesMapping in
    match jsmap_get csvValuesMapping key with
    | Some values =>
        jsmap_set csvValuesMapping key
          (jsmap_set values (valueMappingRawValue row) (valueMappingValue row))
    | None => csvValuesMapping
    end
  else csvValuesMapping.

(** What [_loadCSVValueMappingFileAsync] makes of [csvValuesMapping], from
    the rows [Common.readCsvFileAsync] has read. *)
Definition loadCSVValueMapping (csvRows : list RawCsvRow)
    (csvValuesMapping : JsMap string (JsMap string string))
    : JsMap string (JsMap string string) :=
  foldl loadValueMappingRow csvValuesMapping csvRows.
End LoadCSVValueMapping.

(** The value the table gives for a raw value of a field:
    [csvValuesMapping.get(key).get(rawValue)]. *)
Definition mappedValue (csvValuesMapping : JsMap string (JsMap string string))
    (key rawValue : string) : option string :=
  jsmap_get csvValuesMapping key ≫= fun values => jsmap_get values rawValue.

(** [ICSVIssueCsvRow] *)
Record ICSVIssueCsvRow : Type := mkCSVIssue {
  issue_Date_update : string;
  Child_value : string;
  Child_sObject : string;
  Child_field : string;
  Parent_value : string;
  Parent_sObject : string;
  Parent_field : string;
  Error : string
}.

(** [CONSTANTS.CSV_ISSUES_ERRORS_FILENAME]. Modelled from the spec: the
    constant is declared in [statics], which is not among the sources; it
    names the issue report file, and no property depends on the name. *)
Definition CSV_ISSUES_ERRORS_FILENAME : string := "CSVIssuesReport.csv".

(** The two ways a run ends early: [throw new SuccessExit()], and the
    job-abort condition [Common.abortWithPrompt] raises. *)
Inductive Exit : Type := SuccessExit | CommandAbortedByUser.

(** A method that works on a state [S] and returns, or throws one of the
    two. *)
Definition Run (S A : Type) : Type := S -> (Exit + A) * S.

Definition rret {S A} (a : A) : Run S A := fun s => (inr a, s).
Definition rbind {S A B} (m : Run S A) (k : A -> Run S B) : Run S B :=
  fun s => match m s with
           | (inr a, s') => k a s'
           | (inl e, s') => (inl e, s')
           end.
Definition rthrow {S A} (e : Exit) : Run S A := fun s => (inl e, s).
Definition rget {S} : Run S S := fun s => (inr s, s).
Definition rmodify {S} (f : S -> S) : Run S unit := fun s => (inr tt, f s).

#[global] Instance run_ret {S} : MRet (Run S) := fun A => @rret S A.
#[global] Instance run_bind {S} : MBind (Run S) := fun A B k m => @rbind S A B m k.

(** Whether a method returned. *)
Definition returned {A} (r : Exit + A) : bool :=
  match r with inr _ => true | inl _ => false end.

Fixpoint rforEach {S A} (l : list A) (body : A -> Run S unit) : Run S unit :=
  match l with
  | [] => rret tt
  | x :: l' => body x ;; rforEach l' body
  end.

(** What [validateCSVFiles] does, in order: a call of a method of a task,
    of [Common.mergeCsvFilesAsync], of [fs.copyFileSync], of
    [Common.abortWithPrompt] and of [logger.warn] (both with
    [RESOURCES.issuesFoundDuringCSVValidation] and the number of issues), of
    [Common.writeCsvFileAsync] on the issue report, or of another method of
    the logger. The files of the cache that are written are in [csvDisk]. *)
Inductive CsvEvent : Type :=
  | MergedUserGroupCSVfiles
  | CopiedCSVFile (task : Task)
  | ValidatedCSV (task : Task)
  | RepairedCSV (task : Task)
  | PromptedOnIssues (issues : nat)
  | WarnedOnIssues (issues : nat)
  | SavedIssues (fileName : string) (data : list ICSVIssueCsvRow)
  | CLogged (method : LoggerMethod) (message : RESOURCES + JOB_RESOURCES).

(** The members of the job the method works on, the disk and the trace. *)
Record CsvJob : Type := mkCsvJob {
  csvIssues : list ICSVIssueCsvRow;
  cachedCSVContent : CachedCSVContent;
  csvValuesMapping : JsMap string (JsMap string string);
  csvDisk : Disk;
  csvTrace : list CsvEvent
}.

Definition cemit (e : CsvEvent) : Run CsvJob unit :=
  rmodify (fun s => mkCsvJob (csvIssues s) (cachedCSVContent s) (csvValuesMapping s)
                      (csvDisk s) (csvTrace s ++ [e])).

(** [this.csvIssues = this.csvIssues.concat(issues)] *)
Definition addIssues (issues : list ICSVIssueCsvRow) : Run CsvJob unit :=
  rmodify (fun s => mkCsvJob (csvIssues s ++ issues) (cachedCSVContent s)
                      (csvValuesMapping s) (csvDisk s) (csvTrace s)).

Definition setCache (c : CachedCSVContent) : Run CsvJob unit :=
  rmodify (fun s => mkCsvJob (csvIssues s) c (csvValuesMapping s) (csvDisk s) (csvTrace s)).

(** [clearCachedCSVData()] *)
Definition clearCachedCSVData : Run CsvJob unit := setCache clear.

(** [saveCSVFileAsync(fileName, data)], on the issue rows. *)
Definition saveIssuesCSVFileAsync (fileName : string) (data : list ICSVIssueCsvRow)
    : Run CsvJob unit :=
  cemit (CLogged infoVerbose (inl writingToCSV)) ;;
  cemit (SavedIssues fileName data).

(** [saveCachedCsvDataFiles()], on the cache and the disk of the state. *)
Definition flushCachedCsvDataFiles : Run CsvJob unit :=
  rmodify (fun s => mkCsvJob (csvIssues s) (cachedCSVContent s) (csvValuesMapping s)
                      (saveCachedCsvDataFiles (cachedCSVContent s) (csvDisk s))
                      (csvTrace s)).

Section ValidateCSVFiles.
(** [task.validateCSV()] and [task.repairCSV(cachedCSVContent)], methods of
    [MigrationJobTask], which is not in this file: each answers the issues
    it found; the second works on the cache it is handed. *)
Variable task_validateCSV : Task -> list ICSVIssueCsvRow.
Variable task_repairCSV : Task -> CachedCSVContent -> list ICSVIssueCsvRow * CachedCSVContent.
(** [fs.existsSync(task.data.csvFilename)] *)
Variable csvFileExists : Task -> bool.
(** The rows [Common.readCsvFileAsync] reads from the value mapping file. *)
Variable valueMappingRows : list RawCsvRow.
Variable trim : string -> string.
(** The answer to the prompt of [Common.abortWithPrompt], which may depend
    on the number of issues it shows. *)
Variable userContinuesOnIssues : nat -> bool.
(** [script.sourceOrg.media], [script.importCSVFilesAsIs] and
    [script.validateCSVFilesOnly] *)
Variable sourceOrgMedia : DATA_MEDIA_TYPE.
Variable importCSVFilesAsIs : bool.
Variable validateCSVFilesOnly : bool.

(** Modelled from the spec: [Common.abortWithPrompt] is not among the
    sources. It is the abort-prompt collaborator: answered negatively it
    runs the [onBeforeAbort] callback it was given and raises the job-abort
    condition. *)
Definition abortWithPromptOnIssues (issues : nat)
    (onBeforeAbortAsync : Run CsvJob unit) : Run CsvJob unit :=
  cemit (PromptedOnIssues issues) ;;
  if userContinuesOnIssues issues then rret tt
  else onBeforeAbortAsync ;; rthrow CommandAbortedByUser.

(** [___promptToAbort()] of [_validateAndRepairSourceCSVFiles] *)
Definition ___promptToAbortOnIssues : Run CsvJob unit :=
  s ← rget;
  abortWithPromptOnIssues (length (csvIssues s))
    (s ← rget; saveIssuesCSVFileAsync CSV_ISSUES_ERRORS_FILENAME (csvIssues s)).

(** [_validateAndRepairSourceCSVFiles()] *)
Definition _validateAndRepairSourceCSVFiles (ts : list Task) : Run CsvJob unit :=
  (* Analyse csv structure *)
  rforEach ts (fun task =>
    cemit (ValidatedCSV task) ;;
    addIssues (task_validateCSV task)) ;;
  s ← rget;
  noAbortPrompt ← (if 0 <? length (csvIssues s)
                   then ___promptToAbortOnIssues ;; rret true
                   else rret false);
  (* Check and repair the source csvs *)
  rforEach ts (fun task =>
    s ← rget;
    let r := task_repairCSV task (cachedCSVContent s) in
    cemit (RepairedCSV task) ;;
    setCache r.2 ;;
    addIssues r.1) ;;
  (* Save the changed source csvs *)
  flushCachedCsvDataFiles ;;
  cemit (CLogged infoVerbose (inr csvFilesWereUpdated)) ;;
  s ← rget;
  if 0 <? length (csvIssues s) then
    if negb noAbortPrompt then ___promptToAbortOnIssues
    else
      saveIssuesCSVFileAsync CSV_ISSUES_ERRORS_FILENAME (csvIssues s) ;;
      cemit (WarnedOnIssues (length (csvIssues s)))
  else cemit (CLogged infoVerbose (inr noIssuesFoundDuringCSVValidation)).

(** [_loadCSVValueMappingFileAsync()] *)
Definition _loadCSVValueMappingFileAsync : Run CsvJob unit :=
  if 0 <? length valueMappingRows then
    cemit (CLogged infoVerbose (inr readingValuesMappingFile)) ;;
    rmodify (fun s => mkCsvJob (csvIssues s) (cachedCSVContent s)
                        (loadCSVValueMapping trim valueMappingRows (csvValuesMapping s))
                        (csvDisk s) (csvTrace s))
  else rret tt.

(** [_copyCSVFilesToSourceSubDir()] *)
Definition _copyCSVFilesToSourceSubDir (ts : list Task) : Run CsvJob unit :=
  rforEach ts (fun task =>
    if csvFileExists task then cemit (CopiedCSVFile task) else rret tt).

(** [validateCSVFiles()] *)
Definition validateCSVFiles (ts : list Task) : Run CsvJob unit :=
  match sourceOrgMedia with
  | File =>
      cemit MergedUserGroupCSVfiles ;;
      _loadCSVValueMappingFileAsync ;;
      _copyCSVFilesToSourceSubDir ts ;;
      if negb importCSVFilesAsIs then
        cemit (CLogged infoMinimal (inr validatingAndFixingSourceCSVFiles)) ;;
        _validateAndRepairSourceCSVFiles ts ;;
        cemit (CLogged infoVerbose (inr validationAndFixingsourceCSVFilesCompleted)) ;;
        (if validateCSVFilesOnly then rthrow SuccessExit else rret tt) ;;
        clearCachedCSVData
      else cemit (CLogged infoMinimal (inr validatingSourceCSVFilesSkipped))
  | Org => rret tt
  end.

(** The issues the structure check finds, task after task; and the issues
    the repair finds, with the cache it leaves, from the cache [c]. *)
Definition structureIssues (ts : list Task) : list ICSVIssueCsvRow :=
  ts ≫= task_validateCSV.

Fixpoint repairAll (ts : list Task) (c : CachedCSVContent)
    : list ICSVIssueCsvRow * CachedCSVContent :=
  match ts with
  | [] => ([], c)
  | task :: ts' =>
      let r := task_repairCSV task c in
      let rest := repairAll ts' r.2 in
      (r.1 ++ rest.1, rest.2)
  end.

(** Whether the run ends at the prompt that follows the structure check. *)
Definition abortsOnStructure (ts : list Task) : bool :=
  (0 <? length (structureIssues ts))
  && negb (userContinuesOnIssues (length (structureIssues ts))).
End ValidateCSVFiles.

(** A job that has found no issue yet, with its cache, value mapping and
    disk. *)
Definition csvJobStart (c : CachedCSVContent)
    (mapping : JsMap string (JsMap string string)) (d : Disk) : CsvJob :=
  mkCsvJob [] c mapping d [].

(** The calls of [Common.abortWithPrompt] in a trace, the issue reports it
    saves, and the calls of the tasks. *)
Definition issuePrompts (tr : list CsvEvent) : list nat :=
  omap (fun e => match e with PromptedOnIssues n => Some n | _ => None end) tr.

Definition savedIssueReports (tr : list CsvEvent) : list (string * list ICSVIssueCsvRow) :=
  omap (fun e => match e with
                 | SavedIssues fileName data => Some (fileName, data)
                 | _ => None
                 end) tr.

Definition csvTaskCalls (tr : list CsvEvent) : list CsvEvent :=
  omap (fun e => match e with
                 | ValidatedCSV _ | RepairedCSV _ => Some e
                 | _ => None
                 end) tr.

(** ** ApiEngineBase.executeCRUD and CsvChunks *)

#[local] Set Warnings "-register-all".

(** A JavaScript value, as far as the records of a CRUD job go:
    [undefined], [null], a string, or an object with its properties in the
    order they were created. (A number or a boolean in a record is only
    copied by these methods, as a string is.) *)
Inductive JsValue : Type :=
  | JsUndefined
  | JsNull
  | JsText (s : string)
  | JsObject (props : list (string * JsValue)).

(** [value[key]] for a key that is neither an index nor ["length"]: reading
    a property of [undefined] or [null] throws a [TypeError] ([None]). *)
Definition getProperty (value : JsValue) (key : string) : option JsValue :=
  match value with
  | JsObject props => Some (default JsUndefined (jsmap_get props key))
  | JsText _ => Some JsUndefined
  | JsUndefined | JsNull => None
  end.

(** [value[key] = v] in strict mode: a [TypeError] on anything but an
    object. *)
Definition setProperty (value : JsValue) (key : string) (v : JsValue) : option JsValue :=
  match value with
  | JsObject props => Some (JsObject (jsmap_set props key v))
  | _ => None
  end.

(** [delete value[key]] *)
Definition deleteProperty (value : JsValue) (key : string) : option JsValue :=
  match value with
  | JsObject props => Some (JsObject (filter (fun p => p.1 <> key) props))
  | JsText s => Some (JsText s)
  | JsUndefined | JsNull => None
  end.

(** The members of [OPERATION] the engine tests, and the others. *)
Inductive OPERATION : Type := Insert | Delete | otherOperation (n : nat).

(** [CsvChunks] *)
Record CsvChunks : Type := mkCsvChunks {
  csvChunks : list (@ICsvChunk JsValue);
  header : list string
}.

(** What the engine is set up with, the members [executeCRUD] assigns, and
    what it does to the outside: the target csv file, the job states handed
    to the progress callback, and the number of ids [Common.makeId] has
    made. ([simulationMode], [createTargetCSVFiles], [targetCSVFullFilename]
    and [sObjectName] carry a prefix here: the names are taken above.)
    [apiJobCreateResult_chunks] is [apiJobCreateResult.chunks]; the
    [apiInfo] and [allRecords] stored beside it are read by none of these
    methods.

    An array of records is given by what its records hold, one after the
    other, and the records of the chunks of a job are taken to be different
    objects. The engine keeps the records it is handed, it does not copy
    them: in simulation mode the [records] of the chunk it stores is the
    very array of the mapped records (which [apiJobCreateResult.allRecords]
    is too, and the array of the caller when no field mapping replaces
    [sourceRecordsToTarget]). So a record of a stored chunk is named by its
    place, the index of the chunk and the index of the record in it, and
    what a method assigns to such a record or deletes from it is written at
    that place of [apiJobCreateResult_chunks]. *)
Record Engine : Type := mkEngine {
  engine_simulationMode : bool;
  engine_createTargetCSVFiles : bool;
  engine_targetCSVFullFilename : string;
  operation : OPERATION;
  updateRecordId : bool;
  engine_sObjectName : string;
  oldSObjectName : string;
  apiJobCreateResult_chunks : CsvChunks;
  targetFile : list (string * list JsValue);
  progress : list string;
  idsMade : nat
}.

Section ExecuteCRUD.
(** [Object.keys] on a value that is neither [undefined] nor [null]. *)
Variable Object_keys : JsValue -> list string.
(** [CONSTANTS.__ID_FIELD_NAME], declared in [statics]. *)
Variable __ID_FIELD_NAME : string.
(** [Common.makeId(length)]: the id the call number [n] makes. *)
Variable makeId : nat -> nat -> string.
(** [sourceRecordsToTarget] and [targetRecordsToSource], which the field
    mapping may replace: the records and the object name of the result. The
    second is handed [null] when the job failed. *)
Variable sourceRecordsToTarget : list JsValue -> string -> list JsValue * string.
Variable targetRecordsToSource : option (list JsValue) -> string -> option (list JsValue).
(** [createCRUDApiJobAsync] and [processCRUDApiBatchAsync], which the
    engines override: the chunks of the job the first creates, and the
    result records of a chunk, or [null]. *)
Variable createCRUDApiJobAsync : list JsValue -> CsvChunks.
Variable processCRUDApiBatchAsync : @ICsvChunk JsValue -> option (list JsValue).

(** [fromArrayChunks(arrayChunks)] on a new [CsvChunks]: [Some None] is
    [undefined], returned for no chunk at all; [None] is the [TypeError] of
    [Object.keys(arrayChunks[0][0])] when the first chunk has no first
    record. *)
Definition fromArrayChunks (arrayChunks : list (list JsValue)) : option (option CsvChunks) :=
  match arrayChunks with
  | [] => Some None
  | first :: _ =>
      let chunks := (fun records => mkCsvChunk "" records) <$> arrayChunks in
      match head first with
      | None | Some JsUndefined | Some JsNull => None
      | Some record => Some (Some (mkCsvChunks chunks (Object_keys record)))
      end
  end.

(** [fromArray(array)] *)
Definition fromArray (array : list JsValue) : option (option CsvChunks) :=
  fromArrayChunks [array].

(** [getSourceRecordsArray(records)] *)
Definition getSourceRecordsArray (e : Engine) (records : list JsValue)
    : option (list JsValue) :=
  match operation e with
  | Delete =>
      if negb (engine_simulationMode e)
      then mapM (fun x => getProperty x "Id") records
      else Some records
  | _ => Some records
  end.

(** [getResultRecordsArray(records)] *)
Definition getResultRecordsArray (e : Engine) (records : list JsValue)
    : option (list JsValue) :=
  match operation e with
  | Delete =>
      mapM (fun record =>
              if negb (engine_simulationMode e)
              then Some (JsObject [("Id"%string, record)])
              else deleteProperty record __ID_FIELD_NAME)
           records
  | _ => Some records
  end.

Definition setEngine (f : Engine -> Engine) : Job Engine unit := jmodify f.

(** A throwing step lifted to the engine. *)
Definition orThrow {A} (r : option A) : Job Engine A :=
  match r with Some a => jret a | None => jthrow end.

(** [if (progressCallback) progressCallback(new ApiInfo({ jobState }))] *)
Definition reportProgress (progressCallback : bool) (jobState : string) : Job Engine unit :=
  if progressCallback
  then setEngine (fun e =>
         mkEngine (engine_simulationMode e) (engine_createTargetCSVFiles e)
           (engine_targetCSVFullFilename e) (operation e) (updateRecordId e)
           (engine_sObjectName e) (oldSObjectName e) (apiJobCreateResult_chunks e)
           (targetFile e) (progress e ++ [jobState]) (idsMade e))
  else jret tt.

(** [apiJobCreateResult.chunks.chunks[index].records]: reading [records]
    of a chunk that is not there is a [TypeError]. *)
Definition chunkRecords (e : Engine) (index : nat) : option (list JsValue) :=
  records <$> csvChunks (apiJobCreateResult_chunks e) !! index.

(** [records[recordIndex]] of that array, [undefined] past its end. *)
Definition chunkRecord (e : Engine) (index recordIndex : nat) : JsValue :=
  default JsUndefined (chunkRecords e index ≫= (.!! recordIndex)).

(** What a change of the record at [recordIndex] of the chunk at [index]
    leaves there: the record is changed in place, [record] is what it
    holds afterwards. *)
Definition setChunkRecord (index recordIndex : nat) (record : JsValue) : Job Engine unit :=
  setEngine (fun e =>
    mkEngine (engine_simulationMode e) (engine_createTargetCSVFiles e)
      (engine_targetCSVFullFilename e) (operation e) (updateRecordId e)
      (engine_sObjectName e) (oldSObjectName e)
      (mkCsvChunks
         (alter (fun csvChunk =>
                   mkCsvChunk (csvString csvChunk)
                     (<[recordIndex := record]> (records csvChunk)))
                index (csvChunks (apiJobCreateResult_chunks e)))
         (header (apiJobCreateResult_chunks e)))
      (targetFile e) (progress e) (idsMade e)).

(** [csvChunk.records.forEach(record => { record["Id"] = Common.makeId(18); })]
    on the chunk at [index], for the records at [recordIndexes]: each record
    is assigned its id in place. *)
Fixpoint assignIds (index : nat) (recordIndexes : list nat) : Job Engine unit :=
  match recordIndexes with
  | [] => jret tt
  | recordIndex :: rest =>
      e ← jget;
      setEngine (fun e =>
        mkEngine (engine_simulationMode e) (engine_createTargetCSVFiles e)
          (engine_targetCSVFullFilename e) (operation e) (updateRecordId e)
          (engine_sObjectName e) (oldSObjectName e) (apiJobCreateResult_chunks e)
          (targetFile e) (progress e) (S (idsMade e))) ;;
      record ← orThrow (setProperty (chunkRecord e index recordIndex) "Id"
                          (JsText (makeId 18 (idsMade e))));
      setChunkRecord index recordIndex record ;;
      assignIds index rest
  end.

(** [records.map(record => { delete record[CONSTANTS.__ID_FIELD_NAME];
    return record; })], the simulation branch of [getResultRecordsArray],
    on the chunk at [index], for the records at [recordIndexes]: the field
    is deleted from each record in place, and the array answered holds the
    records themselves. *)
Fixpoint deleteIdFields (index : nat) (recordIndexes : list nat)
    : Job Engine (list JsValue) :=
  match recordIndexes with
  | [] => jret []
  | recordIndex :: rest =>
      e ← jget;
      record ← orThrow (deleteProperty (chunkRecord e index recordIndex) __ID_FIELD_NAME);
      setChunkRecord index recordIndex record ;;
      rest' ← deleteIdFields index rest;
      jret (record :: rest')
  end.

(** [getResultRecordsArray(csvChunk.records)] on the chunk at [index]. A
    delete in simulation mode changes the records of the chunk; in every
    other case the method changes no record, and [getResultRecordsArray]
    gives what it answers. *)
Definition getResultRecordsOfChunk (index : nat) : Job Engine (list JsValue) :=
  e ← jget;
  records ← orThrow (chunkRecords e index);
  match operation e, engine_simulationMode e with
  | Delete, true => deleteIdFields index (seq 0 (length records))
  | _, _ => orThrow (getResultRecordsArray e records)
  end.

(** [processCRUDSimulationBatchAsync(csvChunk, progressCallback)], where
    [csvChunk] is [apiJobCreateResult.chunks.chunks[index]], the chunk
    [processCRUDApiJobAsync] hands it: the method changes the records of
    the chunk, so it is given the place of the chunk. *)
Definition processCRUDSimulationBatch (index : nat)
    (progressCallback : bool) : Job Engine (option (list JsValue)) :=
  reportProgress progressCallback "OperationStarted" ;;
  e ← jget;
  (match operation e with
   | Insert =>
       if updateRecordId e
       then records ← orThrow (chunkRecords e index);
            assignIds index (seq 0 (length records))
       else jret tt
   | _ => jret tt
   end) ;;
  reportProgress progressCallback "OperationFinished" ;;
  resultRecords ← getResultRecordsOfChunk index;
  jret (Some resultRecords).

(** [writeToTargetCSVFileAsync(records)] *)
Definition writeToTargetCSVFile (recs : list JsValue) : Job Engine unit :=
  e ← jget;
  if engine_createTargetCSVFiles e
  then setEngine (fun e =>
         mkEngine (engine_simulationMode e) (engine_createTargetCSVFiles e)
           (engine_targetCSVFullFilename e) (operation e) (updateRecordId e)
           (engine_sObjectName e) (oldSObjectName e) (apiJobCreateResult_chunks e)
           (targetFile e ++ [(engine_targetCSVFullFilename e, recs)])
           (progress e) (idsMade e))
  else jret tt.

(** The loop of [processCRUDApiJobAsync], with the state of the engine,
    over the indexes still to come: [csvCunk] is read from
    [apiJobCreateResult.chunks.chunks] at each turn. *)
Fixpoint processCRUDChunks (indexes : list nat)
    (progressCallback : bool) (allResultRecords : list JsValue)
    : Job Engine (option (list JsValue)) :=
  match indexes with
  | [] => writeToTargetCSVFile allResultRecords ;; jret (Some allResultRecords)
  | index :: rest =>
      e ← jget;
      resultRecords ← (if negb (engine_simulationMode e)
                       then csvCunk ← orThrow (csvChunks (apiJobCreateResult_chunks e) !! index);
                            jret (processCRUDApiBatchAsync csvCunk)
                       else processCRUDSimulationBatch index progressCallback);
      match resultRecords with
      | None => writeToTargetCSVFile [] ;; jret None
      | Some resultRecords =>
          processCRUDChunks rest progressCallback (allResultRecords ++ resultRecords)
      end
  end.

(** [processCRUDApiJobAsync(progressCallback)], with the state of the
    engine. No turn of the loop adds or removes a chunk, so [index] goes
    through the indexes below the length the array has at the start. *)
Definition processCRUDApiJob (progressCallback : bool)
    : Job Engine (option (list JsValue)) :=
  e ← jget;
  processCRUDChunks (seq 0 (length (csvChunks (apiJobCreateResult_chunks e))))
    progressCallback [].

Definition setChunks (chunks : CsvChunks) : Job Engine unit :=
  setEngine (fun e =>
    mkEngine (engine_simulationMode e) (engine_createTargetCSVFiles e)
      (engine_targetCSVFullFilename e) (operation e) (updateRecordId e)
      (engine_sObjectName e) (oldSObjectName e) chunks
      (targetFile e) (progress e) (idsMade e)).

(** [createCRUDSimulationJobAsync(allRecords)]: [fromArray] hands
    [fromArrayChunks] one chunk, so it does not answer [undefined]. *)
Definition createCRUDSimulationJobAsync (allRecords : list JsValue) : Job Engine unit :=
  e ← jget;
  source ← orThrow (getSourceRecordsArray e allRecords);
  chunks ← orThrow (fromArray source);
  match chunks with
  | Some chunks => setChunks chunks
  | None => jthrow
  end.

Definition setSObjectNames (sObjectName' oldSObjectName' : string) : Job Engine unit :=
  setEngine (fun e =>
    mkEngine (engine_simulationMode e) (engine_createTargetCSVFiles e)
      (engine_targetCSVFullFilename e) (operation e) (updateRecordId e)
      sObjectName' oldSObjectName' (apiJobCreateResult_chunks e)
      (targetFile e) (progress e) (idsMade e)).

(** [executeCRUD(allRecords, progressCallback)] *)
Definition executeCRUD (allRecords : list JsValue) (progressCallback : bool)
    : Job Engine (option (list JsValue)) :=
  (* Map source records *)
  e ← jget;
  let mappedRecords := sourceRecordsToTarget allRecords (engine_sObjectName e) in
  setSObjectNames mappedRecords.2 (engine_sObjectName e) ;;
  let allRecords := mappedRecords.1 in
  (* Create CRUD job *)
  (if negb (engine_simulationMode e)
   then setChunks (createCRUDApiJobAsync allRecords)
   else createCRUDSimulationJobAsync allRecords) ;;
  (* Execute CRUD job *)
  resultRecords ← processCRUDApiJob progressCallback;
  (* Map target records *)
  e ← jget;
  setSObjectNames (oldSObjectName e) (oldSObjectName e) ;;
  jret (targetRecordsToSource resultRecords (oldSObjectName e)).
End ExecuteCRUD.

(** The mappings an engine has when no field mapping replaces them. *)
Definition sourceRecordsToTarget_default (records : list JsValue) (sourceObjectName : string)
    : list JsValue * string := (records, sourceObjectName).

Definition targetRecordsToSource_default (records : option (list JsValue))
    (sourceObjectName : string) : option (list JsValue) := records.

(** A record with the id [id] assigned, and without the property [key]. *)
Definition withId (id : string) (record : JsValue) : JsValue :=
  default record (setProperty record "Id" (JsText id)).

Definition withoutProperty (key : string) (record : JsValue) : JsValue :=
  default record (deleteProperty record key).

(** The records a simulated job answers for the records it is handed. *)
Definition simulatedRecords (__ID_FIELD_NAME : string) (makeId : nat -> nat -> string)
    (e : Engine) (records : list JsValue) : list JsValue :=
  match operation e with
  | Insert =>
      if updateRecordId e
      then imap (fun i => withId (makeId 18 (idsMade e + i))) records
      else records
  | Delete => withoutProperty __ID_FIELD_NAME <$> records
  | _ => records
  end.

(** A part of [executeCRUD] that assigns neither [sObjectName] nor
    [oldSObjectName]. *)
Definition keepsNames {A} (m : Job Engine A) : Prop :=
  forall s, engine_sObjectName (m s).2 = engine_sObjectName s
            /\ oldSObjectName (m s).2 = oldSObjectName s.

(** An object. *)
Definition isObject (v : JsValue) : bool :=
  match v with JsObject _ => true | _ => false end.

(** ** An engine used as an example *)

(** An engine that inserts into [Account], with the target csv file on; two
    records, of which the second has an id already; the keys of an object
    in the order of its properties; and ids made by counting. *)
Definition exampleEngine (simulation : bool) : Engine :=
  mkEngine simulation true "Account_insert_target.csv" Insert true "Account" ""
    (mkCsvChunks [] []) [] [] 0.

Definition exampleRecords : list JsValue :=
  [ JsObject [("Name"%string, JsText "Acme")];
    JsObject [("Id"%string, JsText "001"); ("Name"%string, JsText "Bolt")] ].

Definition exampleKeys (value : JsValue) : list string :=
  match value with JsObject props => props.*1 | _ => [] end.

Definition exampleMakeId (size n : nat) : string :=
  if n =? 0 then "SIM-A" else "SIM-B".

(** A job of one chunk, and a batch that answers the records of the chunk. *)
Definition exampleCreateJob (records : list JsValue) : CsvChunks :=
  mkCsvChunks [mkCsvChunk "" records] [].

Definition exampleBatch (csvChunk : @ICsvChunk JsValue) : option (list JsValue) :=
  Some (records csvChunk).

(** [A] without parents, [B] looking up [A], [C] looking up [B], supplied
    parents first. *)
Definition descriptorsABC : list ScriptObject :=
  [ entity "A" false [] [];
    entity "B" false ["A"%string] [];
    entity "C" false ["B"%string] [] ].

(** The messages [updateRecords] logs, in order. *)
Definition updateMessages (tr : list UpdateEvent) : list (LoggerMethod * RESOURCES) :=
  omap (fun e => match e with
                 | ULogged method message => Some (method, message)
                 | _ => None
                 end) tr.

Section UpdateTotals.
Variable task_updateRecords : Task -> QueryMode -> list ProcessedData * nat.

(** The amount of records the tasks process in a pass, and the lines the
    pass logs for the tasks that processed some. *)
Definition processedInPass (ts : list Task) (updateMode : QueryMode) : nat :=
  sum_list ((fun task => (task_updateRecords task updateMode).2) <$> ts).

Definition taskLines (ts : list Task) (updateMode : QueryMode)
    : list (LoggerMethod * RESOURCES) :=
  ts ≫= fun task =>
    if 0 <? (task_updateRecords task updateMode).2
    then [(infoNormal, updatingTargetObjectCompleted)] else [].

(** The line that closes a pass in which [total] records were processed. *)
Definition totalLine (total : nat) : LoggerMethod * RESOURCES :=
  (infoNormal, if 0 <? total then updatingTargetCompleted else nothingUpdated).
End UpdateTotals.

(** ** A value mapping file and a repair used as examples *)

(** Two rows for the field [Type] of [Account] that map the same raw value,
    the second with blanks around the names, and a row without object name;
    [trim] is taken to drop the blanks of these names. *)
Definition exampleMappingRows : list RawCsvRow :=
  [ [("ObjectName", cellText "Account"); ("FieldName", cellText "Type");
     ("RawValue", cellText "Old"); ("Value", cellText "First")];
    [("ObjectName", cellText " Account"); ("FieldName", cellText "Type ");
     ("RawValue", cellText "Old"); ("Value", cellText "Second")];
    [("ObjectName", cellNull); ("FieldName", cellText "Type");
     ("RawValue", cellText "Old"); ("Value", cellText "Third")] ]%string.

Definition exampleTrim (s : string) : string :=
  if String.eqb s " Account" then "Account"
  else if String.eqb s "Type " then "Type" else s.

(** A structure check that finds nothing, and a repair that finds one issue
    for every task and leaves the cache as it is. *)
Definition exampleIssue (task : Task) : ICSVIssueCsvRow :=
  mkCSVIssue "" "" (sObjectName task) "Id" "" "" "" "MISSING ID".

Definition exampleRepair (task : Task) (c : CachedCSVContent)
    : list ICSVIssueCsvRow * CachedCSVContent :=
  ([exampleIssue task], c).

(** A repair that finds one issue for every task and leaves the cache with
    a dirty file. *)
Definition exampleRepairDirty (task : Task) (c : CachedCSVContent)
    : list ICSVIssueCsvRow * CachedCSVContent :=
  ([exampleIssue task], cacheWithDirtyFile).

(** * Properties *)

(** ** Folds and JavaScript arrays *)

Lemma foldl_invariant {A B} (P : A -> Prop) (f : A -> B -> A) (l : list B) (a : A) :
  P a -> (forall a' x, x ∈ l -> P a' -> P (f a' x)) -> P (foldl f a l).
Proof.
  revert a. induction l as [|x l IH]; intros a Ha Hstep; simpl; [done|].
  apply IH.
  - apply Hstep; [left | done].
  - intros a' y Hy. apply Hstep. by right.
Qed.

Lemma spliceStart_of_nat (len i : nat) : spliceStart len (Z.of_nat i) = Nat.min i len.
Proof.
  unfold spliceStart. destruct (Z.ltb_spec (Z.of_nat i) 0); [lia|].
  by rewrite Nat2Z.id.
Qed.

Lemma splice_insert_of_nat {A} (l : list A) (i : nat) (x : A) :
  splice_insert l (Z.of_nat i) x = take i l ++ x :: drop i l.
Proof.
  unfold splice_insert. rewrite spliceStart_of_nat.
  destruct (Nat.le_gt_cases i (length l)) as [Hle|Hgt].
  - by rewrite Nat.min_l.
  - rewrite Nat.min_r by lia.
    by rewrite !take_ge, !drop_ge by lia.
Qed.

Lemma splice_delete1_of_nat {A} (l : list A) (i : nat) :
  splice_delete1 l (Z.of_nat i) = delete i l.
Proof.
  unfold splice_delete1. rewrite spliceStart_of_nat, delete_take_drop.
  destruct (Nat.le_gt_cases i (length l)) as [Hle|Hgt].
  - by rewrite Nat.min_l.
  - rewrite Nat.min_r by lia.
    by rewrite !take_ge, !drop_ge by lia.
Qed.

Lemma splice_insert_Permutation {A} (l : list A) (start : Z) (x : A) :
  splice_insert l start x ≡ₚ x :: l.
Proof.
  unfold splice_insert.
  rewrite <- Permutation_middle. by rewrite take_drop.
Qed.

Lemma indexOfFrom_found {A} (same : A -> A -> bool) (l : list A) (x : A) (k : Z) (i : nat) y :
  l !! i = Some y -> same y x = true ->
  (forall j z, j < i -> l !! j = Some z -> same z x = false) ->
  indexOfFrom same l x k = (k + Z.of_nat i)%Z.
Proof.
  revert k i. induction l as [|z l IH]; intros k i Hi Hy Hbefore; [done|].
  destruct i as [|i]; simpl in *.
  - simplify_eq. rewrite Hy. lia.
  - rewrite (Hbefore 0 z) by (done || lia).
    rewrite (IH (k + 1)%Z i); [lia|done..|].
    intros j w Hj Hw. apply (Hbefore (S j)); [lia|done].
Qed.

(** ** Tasks are told apart by their identity *)

Lemma sameTask_true t1 t2 : sameTask t1 t2 = true <-> taskId t1 = taskId t2.
Proof. unfold sameTask. apply Nat.eqb_eq. Qed.

Lemma sameTask_false t1 t2 : sameTask t1 t2 = false <-> taskId t1 <> taskId t2.
Proof. unfold sameTask. apply Nat.eqb_neq. Qed.

Lemma NoDup_taskId_lookup (ts : list Task) i j x y :
  NoDup (taskId <$> ts) -> ts !! i = Some x -> ts !! j = Some y ->
  taskId x = taskId y -> i = j.
Proof.
  intros Hnd Hi Hj Heq.
  apply (NoDup_lookup (taskId <$> ts) i j (taskId x)); [done|..].
  - by rewrite list_lookup_fmap, Hi.
  - by rewrite list_lookup_fmap, Hj, Heq.
Qed.

Lemma indexOf_lookup (ts : list Task) i t :
  NoDup (taskId <$> ts) -> ts !! i = Some t ->
  indexOf sameTask ts t = Z.of_nat i.
Proof.
  intros Hnd Hi. unfold indexOf.
  rewrite (indexOfFrom_found sameTask ts t 0 i t); [lia|done|by apply sameTask_true|].
  intros j z Hj Hz. apply sameTask_false. intros Heq.
  assert (j = i) by eauto using NoDup_taskId_lookup. lia.
Qed.

(** [putBefore] takes [rightTask] out and puts it back next to [leftTask]. *)
Lemma putBefore_lookup (ts : list Task) i r leftTask rightTask :
  NoDup (taskId <$> ts) -> ts !! i = Some leftTask -> ts !! r = Some rightTask ->
  putBefore ts leftTask rightTask
  = take i (delete r ts) ++ rightTask :: drop i (delete r ts).
Proof.
  intros Hnd Hi Hr. unfold putBefore.
  rewrite (indexOf_lookup ts i leftTask), (indexOf_lookup ts r rightTask) by done.
  by rewrite splice_delete1_of_nat, splice_insert_of_nat.
Qed.

Lemma putBefore_Permutation (ts : list Task) leftTask rightTask :
  NoDup (taskId <$> ts) -> rightTask ∈ ts ->
  putBefore ts leftTask rightTask ≡ₚ ts.
Proof.
  intros Hnd [r Hr]%list_elem_of_lookup_1. unfold putBefore.
  rewrite splice_insert_Permutation.
  rewrite (indexOf_lookup ts r rightTask), splice_delete1_of_nat by done.
  symmetry. by apply delete_Permutation.
Qed.

(** ** One run of [___putMasterDetailsBefore] *)

(** A run that reports no swap left [self.tasks] as it was. *)
Lemma putMasterDetailsBefore_no_swap (ts : list Task) :
  (___putMasterDetailsBefore ts).1 = false -> (___putMasterDetailsBefore ts).2 = ts.
Proof.
  unfold ___putMasterDetailsBefore.
  apply (foldl_invariant (fun st => st.1 = false -> st.2 = ts)); [done|].
  intros st leftIndex _ IH. unfold leftStep.
  destruct (ts !! leftIndex) as [leftTask|]; [|done].
  apply (foldl_invariant (fun st => st.1 = false -> st.2 = ts)); [done|].
  intros st' rightIndex _ IH'. unfold rightStep.
  destruct (ts !! rightIndex) as [rightTask|]; [|done].
  by destruct (rightIsParentMasterDetailOfLeft leftTask rightTask).
Qed.

Lemma putMasterDetailsBefore_Permutation (ts : list Task) :
  NoDup (taskId <$> ts) -> (___putMasterDetailsBefore ts).2 ≡ₚ ts.
Proof.
  intros Hnd. unfold ___putMasterDetailsBefore.
  apply (foldl_invariant (fun st => st.2 ≡ₚ ts)); [done|].
  intros st leftIndex _ IH. unfold leftStep.
  destruct (ts !! leftIndex) as [leftTask|]; [|done].
  apply (foldl_invariant (fun st => st.2 ≡ₚ ts)); [done|].
  intros st' rightIndex _ IH'. unfold rightStep.
  destruct (ts !! rightIndex) as [rightTask|] eqn:Hr; [|done].
  destruct (rightIsParentMasterDetailOfLeft leftTask rightTask); [|done].
  simpl. rewrite putBefore_Permutation; [done|by rewrite IH'|].
  rewrite IH'. by eapply list_elem_of_lookup_2.
Qed.

Lemma afterPasses_Permutation n (ts : list Task) :
  NoDup (taskId <$> ts) -> afterPasses n ts ≡ₚ ts.
Proof.
  revert ts. induction n as [|n IH]; intros ts Hnd; simpl; [done|].
  pose proof (putMasterDetailsBefore_Permutation ts Hnd) as Hp.
  rewrite IH; [done|by rewrite Hp].
Qed.

Lemma afterPasses_S n (ts : list Task) :
  afterPasses (S n) ts = (___putMasterDetailsBefore (afterPasses n ts)).2.
Proof. revert ts. induction n as [|n IH]; intros ts; [done|]. simpl in *. by rewrite IH. Qed.

Lemma afterPasses_fixed n (ts : list Task) :
  (___putMasterDetailsBefore ts).1 = false -> afterPasses n ts = ts.
Proof.
  intros Hno. induction n as [|n IH]; simpl; [done|].
  by rewrite (putMasterDetailsBefore_no_swap ts Hno).
Qed.

(** ** The loop around [___putMasterDetailsBefore] *)

Lemma swappedAfter_S n sw (ts : list Task) :
  swappedAfter (S n) sw ts = (___putMasterDetailsBefore (afterPasses n ts)).1.
Proof.
  revert sw ts. induction n as [|n IH]; intros sw ts; [done|].
  change (swappedAfter (S (S n)) sw ts)
    with (swappedAfter (S n) (___putMasterDetailsBefore ts).1 (___putMasterDetailsBefore ts).2).
  by rewrite IH.
Qed.

(** Below ten iterations the condition holds whatever [swapped] is. *)
Lemma putMasterDetailsLoop_steps k fuel it sw (ts : list Task) :
  it + k <= 10 ->
  putMasterDetailsLoop (k + fuel) it sw ts
  = putMasterDetailsLoop fuel (it + k) (swappedAfter k sw ts) (afterPasses k ts).
Proof.
  revert it sw ts. induction k as [|k IH]; intros it sw ts Hk; simpl.
  - by rewrite Nat.add_0_r.
  - destruct (Nat.ltb_spec it 10); [|lia]. simpl.
    rewrite IH by lia. f_equal. lia.
Qed.

Lemma putMasterDetailsLoop_short fuel it sw (ts : list Task) :
  it + fuel <= 10 -> putMasterDetailsLoop fuel it sw ts = None.
Proof.
  revert it sw ts. induction fuel as [|fuel IH]; intros it sw ts Hk; simpl; [done|].
  destruct (Nat.ltb_spec it 10); [|lia]. simpl. apply IH. lia.
Qed.

(** Once a run has made no swap the condition [iteration < 10 || !swapped]
    holds at every later test: the loop does not end. *)
Lemma putMasterDetailsLoop_stuck fuel it (ts : list Task) :
  (___putMasterDetailsBefore ts).1 = false ->
  putMasterDetailsLoop fuel it false ts = None.
Proof.
  intros Hno. revert it. induction fuel as [|fuel IH]; intros it; simpl; [done|].
  rewrite orb_true_r, Hno, (putMasterDetailsBefore_no_swap ts Hno). apply IH.
Qed.

Lemma putMasterDetailsLoop_exit fuel it (ts : list Task) :
  10 <= it -> putMasterDetailsLoop (S fuel) it true ts = Some ts.
Proof. intros Hit. simpl. by destruct (Nat.ltb_spec it 10); [lia|]. Qed.

(** The loop ends exactly when the tenth run has made a swap, and then
    after that run. *)
Lemma putMasterDetailsLoop_result fuel (ts : list Task) :
  putMasterDetailsLoop fuel 0 true ts
  = if (11 <=? fuel) && swappedAfter 10 true ts
    then Some (afterPasses 10 ts) else None.
Proof.
  destruct (Nat.leb_spec 11 fuel) as [Hfuel|Hfuel].
  - rewrite andb_true_l.
    assert (fuel = 10 + S (fuel - 11)) as -> by lia.
    rewrite (putMasterDetailsLoop_steps 10) by lia.
    destruct (swappedAfter 10 true ts) eqn:Hsw.
    + apply putMasterDetailsLoop_exit. lia.
    + apply putMasterDetailsLoop_stuck.
      rewrite swappedAfter_S in Hsw.
      rewrite afterPasses_S, (putMasterDetailsBefore_no_swap _ Hsw). exact Hsw.
  - rewrite andb_false_l. apply putMasterDetailsLoop_short. lia.
Qed.

Lemma setup_result fuel (objects : list ScriptObject) :
  setup fuel objects
  = if (11 <=? fuel) && swappedAfter 10 true (createTaskChain objects)
    then Some (afterPasses 10 (createTaskChain objects),
               createQueryTasks (afterPasses 10 (createTaskChain objects)))
    else None.
Proof.
  unfold setup. rewrite putMasterDetailsLoop_result.
  destruct (_ && _); reflexivity.
Qed.

Lemma swappedAfter_fixed n (ts : list Task) :
  (___putMasterDetailsBefore ts).1 = false -> swappedAfter (S n) true ts = false.
Proof. intros Hno. rewrite swappedAfter_S, afterPasses_fixed; exact Hno. Qed.

(** When the first run finds nothing to swap, [setup] does not return. *)
Lemma setup_no_swap_no_return fuel (objects : list ScriptObject) :
  (___putMasterDetailsBefore (createTaskChain objects)).1 = false ->
  setup fuel objects = None.
Proof.
  intros Hno. rewrite setup_result, (swappedAfter_fixed 9) by exact Hno.
  rewrite andb_false_r. reflexivity.
Qed.

(** C1 (the code departs from it). The claim: the fix-up loop of [setup]
    repeats the run only while a swap occurred, at most ten times, and always
    ends. The code tests [iteration < 10 || !swapped]: on a descriptor set
    where no run swaps anything (the empty set, a single entity without
    parents) the test holds every time, and the loop is still running
    whatever number of tests it is given. *)
Theorem setup_never_returns_without_swap : forall fuel,
  setup fuel [] = None
  /\ setup fuel [entity "Account" false [] []] = None.
Proof.
  intros fuel. split; apply setup_no_swap_no_return; reflexivity.
Qed.

(** ** The example of the three entities *)

Lemma afterPasses_first n (ts : list Task) :
  afterPasses (S n) ts = afterPasses n (___putMasterDetailsBefore ts).2.
Proof. reflexivity. Qed.

(** C2 (as amended). For [A] without parents, [B] looking up [A] and [C] a
    master-detail child of [B], supplied as [C], [A], [B]: the first
    [forEach] leaves the chain [C], [A], [B] (or [B], [C], [A] when the
    master-detail parent is also a parent lookup of [C]), and after the first
    run of the fix-up and after every later one the chain is
    [B], [C], [A]. *)
Theorem setup_CAB_order : forall (masterDetailIsLookup : bool) (n : nat),
  sObjectName <$> createTaskChain (descriptorsCAB masterDetailIsLookup)
  = (if masterDetailIsLookup then ["B"; "C"; "A"] else ["C"; "A"; "B"])%string
  /\ sObjectName <$> afterPasses (S n) (createTaskChain (descriptorsCAB masterDetailIsLookup))
     = ["B"; "C"; "A"]%string.
Proof.
  intros b n. split; [by destruct b|].
  rewrite afterPasses_first.
  destruct b; (rewrite afterPasses_fixed; [reflexivity|reflexivity]).
Qed.

(** C2 (as stated) fails: on that input [tasks] is never [A], [B], [C],
    whatever number of runs of the fix-up it has been through, and [setup]
    does not return. *)
Lemma setup_CAB_not_ABC :
  (forall n, sObjectName <$> afterPasses n (createTaskChain (descriptorsCAB false))
             <> ["A"; "B"; "C"]%string)
  /\ (forall fuel, setup fuel (descriptorsCAB false) = None).
Proof.
  split.
  - intros [|n].
    + discriminate.
    + rewrite afterPasses_first, afterPasses_fixed by reflexivity. discriminate.
  - intros fuel. rewrite setup_result.
    rewrite (swappedAfter_S 9), (afterPasses_first 8), afterPasses_fixed by reflexivity.
    rewrite andb_false_r. reflexivity.
Qed.

(** ** The chain built by the first [forEach] *)

Lemma zoneOf_setProcessAll o : zoneOf (setProcessAll o) = zoneOf o.
Proof. unfold zoneOf, setProcessAll. by destruct (_ || _). Qed.

Lemma name_setProcessAll o : name (setProcessAll o) = name o.
Proof. unfold setProcessAll. by destruct (_ || _). Qed.

Lemma isReadonlyObject_setProcessAll o :
  isReadonlyObject (setProcessAll o) = isReadonlyObject o.
Proof. unfold setProcessAll. by destruct (_ || _). Qed.

Lemma parentMasterDetailObjects_setProcessAll o :
  parentMasterDetailObjects (setProcessAll o) = parentMasterDetailObjects o.
Proof. unfold setProcessAll. by destruct (_ || _). Qed.

(** What [task.sourceData.allRecords] is once [setup] has made the task. *)
Lemma processAllSource_setProcessAll o :
  processAllSource (setProcessAll o)
  = allRecords o || isSpecialObject o || isObjectWithoutRelationships o.
Proof. unfold setProcessAll. by destruct (_ || _) eqn:H. Qed.

Lemma indexToInsertFor_range (ts : list Task) lower o :
  lower <= length ts ->
  lower <= indexToInsertFor ts lower o <= length ts.
Proof.
  intros Hlower. unfold indexToInsertFor.
  apply (foldl_invariant (fun k => lower <= k <= length ts)); [lia|].
  intros k i [Hi1 Hi2]%elem_of_reverse%elem_of_seq Hk.
  destruct (ts !! i) as [t|]; [|done].
  destruct (someNamed _ _); lia.
Qed.

Lemma addObject_Permutation c index o :
  tasks (addObject c index o) ≡ₚ mkTask index (setProcessAll o) :: tasks c.
Proof.
  unfold addObject.
  repeat case_match; simpl; unfold unshift, push;
    rewrite ?splice_insert_Permutation; try done.
  symmetry. apply Permutation_cons_append.
Qed.

Lemma addObjects_Permutation objects c index :
  tasks (addObjects c index objects)
  ≡ₚ tasks c ++ imap (fun i o => mkTask (index + i) (setProcessAll o)) objects.
Proof.
  revert c index. induction objects as [|o objects IH]; intros c index; simpl.
  - by rewrite app_nil_r.
  - rewrite IH, addObject_Permutation, Nat.add_0_r.
    assert (imap (fun i o => mkTask (S index + i) (setProcessAll o)) objects
            = imap ((fun i o => mkTask (index + i) (setProcessAll o)) ∘ S) objects)
      as ->; [|apply Permutation_middle].
    apply imap_ext. intros i x _. simpl. f_equal. lia.
Qed.

(** The chain holds one task for each descriptor, with the position of the
    descriptor for identity. *)
Lemma createTaskChain_Permutation objects :
  createTaskChain objects ≡ₚ imap (fun i o => mkTask i (setProcessAll o)) objects.
Proof. unfold createTaskChain. by rewrite addObjects_Permutation. Qed.

Lemma createTaskChain_NoDup objects : NoDup (taskId <$> createTaskChain objects).
Proof.
  rewrite createTaskChain_Permutation, fmap_imap.
  change (NoDup (imap (fun j (_ : ScriptObject) => j) objects)).
  rewrite (imap_seq_0 objects (fun i => i)), list_fmap_id. apply NoDup_seq.
Qed.

Lemma createTaskChain_elem_of objects t :
  t ∈ createTaskChain objects ->
  exists o, o ∈ objects /\ scriptObject t = setProcessAll o.
Proof.
  rewrite createTaskChain_Permutation.
  intros (i & o & -> & Ho)%elem_of_lookup_imap_1.
  exists o. split; [by eapply list_elem_of_lookup_2|done].
Qed.

Lemma addObject_chainZones c index o :
  chainZones c -> chainZones (addObject c index o).
Proof.
  intros (l0 & l1 & l2 & Hts & H0 & H1 & H2 & Hro & Hany).
  pose proof (zoneOf_setProcessAll o) as Hzone.
  unfold addObject.
  set (newTask := mkTask index (setProcessAll o)).
  assert (zone newTask = zoneOf (setProcessAll o)) as Hnew by done.
  unfold zoneOf in Hnew at 1.
  destruct (String.eqb (name (setProcessAll o)) RECORD_TYPE_SOBJECT_NAME).
  { exists (newTask :: l0), l1, l2. simpl. unfold unshift.
    rewrite Hts, Hro, Hany. repeat split; auto. }
  destruct (isReadonlyObject (setProcessAll o)).
  { exists l0, (newTask :: l1), l2. simpl.
    rewrite splice_insert_of_nat, Hts, Hro, Hany, take_app_length, drop_app_length.
    repeat split; auto; simpl; lia. }
  destruct (Nat.eqb_spec (length (tasks c)) 0) as [Hlen|Hlen].
  { apply nil_length_inv in Hlen. rewrite Hlen in Hts.
    symmetry in Hts. apply app_eq_nil in Hts as [-> [-> ->]%app_eq_nil].
    exists [], [], [newTask]. simpl. unfold push. rewrite Hlen, Hro, Hany.
    repeat split; auto. }
  pose proof (indexToInsertFor_range (tasks c) (lowerIndexForAnyObjects c)
                (setProcessAll o)) as Hrange.
  set (k := indexToInsertFor _ _ _) in *.
  assert (length (tasks c) = length l0 + length l1 + length l2) as Hlength
    by (rewrite Hts, !length_app; lia).
  destruct Hrange as [Hk1 Hk2]; [lia|].
  exists l0, l1, (take (k - (length l0 + length l1)) l2
                  ++ newTask :: drop (k - (length l0 + length l1)) l2).
  simpl. rewrite splice_insert_of_nat, Hts.
  repeat split; auto.
  - rewrite (app_assoc l0 l1 l2).
    rewrite take_app, drop_app, length_app.
    rewrite take_ge, drop_ge by (rewrite length_app; lia).
    by rewrite app_nil_l, <- !app_assoc.
  - apply Forall_app. split; [by apply Forall_take|].
    constructor; [done|by apply Forall_drop].
Qed.

Lemma addObjects_chainZones objects c index :
  chainZones c -> chainZones (addObjects c index objects).
Proof.
  revert c index. induction objects as [|o objects IH]; intros c index Hc; [done|].
  simpl. by apply IH, addObject_chainZones.
Qed.

Lemma chainZones_sorted c : chainZones c -> StronglySorted zoneLe (tasks c).
Proof.
  intros (l0 & l1 & l2 & -> & H0 & H1 & H2 & _).
  assert (forall k (l : list Task), Forall (fun t => zone t = k) l ->
            StronglySorted zoneLe l) as Hconst.
  { intros k l. induction 1 as [|x l Hx Hl IH]; constructor; [done|].
    eapply Forall_impl; [exact Hl|]. intros y Hy. unfold zoneLe. simpl in *. lia. }
  pose proof (Hconst _ _ H0). pose proof (Hconst _ _ H1). pose proof (Hconst _ _ H2).
  rewrite Forall_forall in H0, H1, H2.
  repeat apply StronglySorted_app_2; try done.
  - intros x1 x2 Hx1 [Hx2|Hx2]%elem_of_app; unfold zoneLe;
      rewrite (H0 x1 Hx1); lia.
  - intros x1 x2 Hx1 Hx2. unfold zoneLe. rewrite (H1 x1 Hx1), (H2 x2 Hx2). lia.
Qed.

Lemma createTaskChain_sorted objects :
  StronglySorted zoneLe (createTaskChain objects).
Proof.
  apply chainZones_sorted, addObjects_chainZones.
  exists [], [], []. by repeat split.
Qed.

(** ** The fix-up keeps the zones when master-details stay in their zone *)

Lemma StronglySorted_sublist {A} (R : relation A) (l1 l2 : list A) :
  l1 `sublist_of` l2 -> StronglySorted R l2 -> StronglySorted R l1.
Proof.
  induction 1 as [|x l1 l2 Hsub IH|x l1 l2 Hsub IH]; intros Hs; [done|..].
  - apply StronglySorted_cons in Hs as [Hx Hs].
    apply StronglySorted_cons. split; [|by apply IH].
    rewrite Forall_forall in Hx |- *. intros y Hy.
    apply Hx. by eapply elem_of_sublist.
  - apply StronglySorted_cons in Hs as [_ Hs]. by apply IH.
Qed.

Lemma zoneLe_lookup (ts : list Task) i j x y :
  StronglySorted zoneLe ts -> i <= j ->
  ts !! i = Some x -> ts !! j = Some y -> zoneLe x y.
Proof.
  intros Hs Hij Hi Hj.
  destruct (decide (i = j)) as [->|Hne].
  { simplify_eq. unfold zoneLe. lia. }
  rewrite <- (take_drop j ts) in Hs.
  eapply StronglySorted_app_1_elem_of; [exact Hs|..].
  - apply elem_of_take. exists i. split; [done|lia].
  - apply list_elem_of_lookup. exists 0. by rewrite lookup_drop, Nat.add_0_r.
Qed.

Lemma putBefore_sorted (ts : list Task) leftTask rightTask :
  NoDup (taskId <$> ts) -> leftTask ∈ ts -> rightTask ∈ ts ->
  zone leftTask = zone rightTask ->
  StronglySorted zoneLe ts ->
  StronglySorted zoneLe (putBefore ts leftTask rightTask).
Proof.
  intros Hnd [i Hi]%list_elem_of_lookup_1 [r Hr]%list_elem_of_lookup_1 Hzone Hs.
  rewrite (putBefore_lookup ts i r) by done.
  set (d := delete r ts).
  assert (StronglySorted zoneLe d) as Hd
    by (eapply StronglySorted_sublist; [apply sublist_delete|done]).
  assert (forall k x, d !! k = Some x ->
            exists k', ts !! k' = Some x /\ k <= k' <= S k) as Hlookup.
  { intros k x Hk. unfold d in Hk.
    destruct (Nat.lt_ge_cases k r).
    - rewrite list_lookup_delete_lt in Hk by done. exists k. split; [done|lia].
    - rewrite list_lookup_delete_ge in Hk by done. exists (S k). split; [done|lia]. }
  assert (forall x, x ∈ take i d -> zoneLe x leftTask) as Hbefore.
  { intros x (k & Hk & Hlt)%elem_of_take.
    destruct (Hlookup k x Hk) as (k' & Hk' & ?).
    apply (zoneLe_lookup ts k' i); [done|lia|done..]. }
  assert (forall y, y ∈ drop i d -> zoneLe leftTask y) as Hafter.
  { intros y [k Hk]%list_elem_of_lookup_1. rewrite lookup_drop in Hk.
    destruct (Hlookup _ y Hk) as (k' & Hk' & ?).
    apply (zoneLe_lookup ts i k'); [done|lia|done..]. }
  apply StronglySorted_app_2.
  - intros x1 x2 Hx1 [->|Hx2]%elem_of_cons.
    + specialize (Hbefore x1 Hx1). unfold zoneLe in *. lia.
    + rewrite <- (take_drop i d) in Hd.
      by eapply StronglySorted_app_1_elem_of.
  - eapply StronglySorted_sublist; [apply sublist_take|done].
  - apply StronglySorted_cons. split.
    + apply Forall_forall. intros y Hy. specialize (Hafter y Hy).
      unfold zoneLe in *. lia.
    + eapply StronglySorted_sublist; [apply sublist_drop|done].
Qed.

Lemma createTaskChain_stayInZone objects :
  masterDetailsStayInZone objects -> tasksStayInZone (createTaskChain objects).
Proof.
  intros Hobjs leftTask rightTask
    (ol & Hol & Hleft)%createTaskChain_elem_of
    (or & Hor & Hright)%createTaskChain_elem_of.
  unfold rightIsParentMasterDetailOfLeft, sObjectName, zone.
  rewrite Hleft, Hright, parentMasterDetailObjects_setProcessAll,
    name_setProcessAll, !zoneOf_setProcessAll.
  by apply Hobjs.
Qed.

Lemma putMasterDetailsBefore_sorted (ts : list Task) :
  NoDup (taskId <$> ts) -> tasksStayInZone ts ->
  StronglySorted zoneLe ts ->
  StronglySorted zoneLe (___putMasterDetailsBefore ts).2.
Proof.
  intros Hnd Hstay Hs. unfold ___putMasterDetailsBefore.
  cut (let st := foldl (leftStep ts) (false, ts) (seq 0 (length ts - 1)) in
       st.2 ≡ₚ ts /\ StronglySorted zoneLe st.2); [by intros [_ ?]|].
  apply (foldl_invariant (fun st => st.2 ≡ₚ ts /\ StronglySorted zoneLe st.2)); [done|].
  intros st leftIndex _ IH. unfold leftStep.
  destruct (ts !! leftIndex) as [leftTask|] eqn:Hl; [|done].
  apply (foldl_invariant (fun st => st.2 ≡ₚ ts /\ StronglySorted zoneLe st.2)); [done|].
  intros st' rightIndex [Hlt _]%elem_of_seq [Hperm Hsorted]. unfold rightStep.
  destruct (ts !! rightIndex) as [rightTask|] eqn:Hr; [|done].
  destruct (rightIsParentMasterDetailOfLeft leftTask rightTask) eqn:Hmd; [|done].
  assert (leftTask ∈ ts) as Hlin by (by eapply list_elem_of_lookup_2).
  assert (rightTask ∈ ts) as Hrin by (by eapply list_elem_of_lookup_2).
  assert (NoDup (taskId <$> st'.2)) as Hnd' by (by rewrite Hperm).
  simpl. split.
  - rewrite putBefore_Permutation; [done..|by rewrite Hperm].
  - apply putBefore_sorted; [done|by rewrite Hperm..| |done].
    pose proof (zoneLe_lookup ts leftIndex rightIndex _ _ Hs ltac:(lia) Hl Hr) as Hle.
    pose proof (Hstay _ _ Hlin Hrin Hmd). unfold zoneLe in Hle. lia.
Qed.

Lemma tasksStayInZone_Permutation (ts ts' : list Task) :
  ts' ≡ₚ ts -> tasksStayInZone ts -> tasksStayInZone ts'.
Proof.
  intros Hperm Hstay leftTask rightTask Hl Hr. apply Hstay; by rewrite <- Hperm.
Qed.

Lemma afterPasses_sorted n (ts : list Task) :
  NoDup (taskId <$> ts) -> tasksStayInZone ts ->
  StronglySorted zoneLe ts ->
  StronglySorted zoneLe (afterPasses n ts).
Proof.
  revert ts. induction n as [|n IH]; intros ts Hnd Hstay Hs; [done|].
  rewrite afterPasses_first.
  pose proof (putMasterDetailsBefore_Permutation ts Hnd) as Hperm.
  apply IH.
  - by rewrite Hperm.
  - by eapply tasksStayInZone_Permutation.
  - by apply putMasterDetailsBefore_sorted.
Qed.

Lemma sorted_zonesInOrder (ts : list Task) :
  StronglySorted zoneLe ts -> zonesInOrder ts.
Proof.
  intros Hs. split.
  - intros (t & [i Hi]%list_elem_of_lookup_1 & Ht).
    destruct ts as [|t0 ts']; [done|]. exists t0. split; [done|].
    pose proof (zoneLe_lookup (t0 :: ts') 0 i t0 t Hs ltac:(lia) eq_refl Hi) as Hle.
    unfold zoneLe, zone, zoneOf, isRecordType, sObjectName in *.
    rewrite Ht in Hle.
    destruct (String.eqb (name (scriptObject t0)) RECORD_TYPE_SOBJECT_NAME); [done|].
    destruct (isReadonlyObject (scriptObject t0)); lia.
  - intros i j r o Hi Hj Hr Ho1 Ho2.
    destruct (Nat.lt_ge_cases i j) as [|Hji]; [done|].
    pose proof (zoneLe_lookup ts j i o r Hs Hji Hj Hi) as Hle.
    unfold zoneLe, zone, zoneOf, isRecordType, sObjectName in *.
    rewrite Ho1, Ho2, Hr in Hle.
    destruct (String.eqb (name (scriptObject r)) RECORD_TYPE_SOBJECT_NAME); lia.
Qed.

(** ** The query order *)









(** ** The zones of the task chain *)

(** C6 (as amended). For every descriptor set the chain built by the first
    [forEach] of [setup] has the RecordType object first, if there is one,
    and every readonly entity before every entity that is neither; when no
    entity names among its master-detail parents an entity of a later zone,
    this still holds after any number of runs of the fix-up, and so of the
    [tasks] that [setup] returns. *)
Theorem setup_zones_in_order : forall (objects : list ScriptObject),
  zonesInOrder (createTaskChain objects)
  /\ (masterDetailsStayInZone objects ->
      (forall n, zonesInOrder (afterPasses n (createTaskChain objects)))
      /\ (forall fuel ts queryTasks,
            setup fuel objects = Some (ts, queryTasks) -> zonesInOrder ts)).
Proof.
  intros objects. split.
  { apply sorted_zonesInOrder, createTaskChain_sorted. }
  intros Hstay.
  assert (forall n, zonesInOrder (afterPasses n (createTaskChain objects))) as Hn.
  { intros n. apply sorted_zonesInOrder, afterPasses_sorted.
    - apply createTaskChain_NoDup.
    - by apply createTaskChain_stayInZone.
    - apply createTaskChain_sorted. }
  split; [exact Hn|].
  intros fuel ts queryTasks. rewrite setup_result.
  destruct (_ && _); [|discriminate].
  intros Heq.
  replace ts with (afterPasses 10 (createTaskChain objects)) by congruence.
  apply Hn.
Qed.

Lemma descriptorsZones_stayInZone : masterDetailsStayInZone descriptorsZones.
Proof.
  intros child parent Hchild Hparent. unfold descriptorsZones in *.
  repeat (apply elem_of_cons in Hchild as [->|Hchild]);
    try (by apply elem_of_nil in Hchild);
    repeat (apply elem_of_cons in Hparent as [->|Hparent]);
    try (by apply elem_of_nil in Hparent);
    vm_compute; (discriminate || lia).
Qed.

(** The RecordType object, a readonly entity and two entities that are
    master-detail parents of each other: [setup] returns, with the zones in
    order. *)
Lemma setup_zones_in_order_witness :
  masterDetailsStayInZone descriptorsZones
  /\ exists ts queryTasks,
       setup 11 descriptorsZones = Some (ts, queryTasks)
       /\ sObjectName <$> ts = ["RecordType"; "R"; "Y"; "X"]%string
       /\ zonesInOrder ts.
Proof.
  split; [exact descriptorsZones_stayInZone|].
  destruct (setup 11 descriptorsZones) as [[ts queryTasks]|] eqn:Hsetup.
  - exists ts, queryTasks. split; [reflexivity|]. split.
    + vm_compute in Hsetup. injection Hsetup as <- _. reflexivity.
    + exact (proj2 (proj2 (setup_zones_in_order descriptorsZones)
                      descriptorsZones_stayInZone) 11 ts queryTasks Hsetup).
  - vm_compute in Hsetup. discriminate Hsetup.
Defined.

(** C6 (as stated) fails. [R] is readonly and a master-detail child of [N],
    which is not readonly: the fix-up puts [N] before [R], and [setup]
    returns [N], [R], [Y], [X]. Without [X] and [Y] (whose swaps let the
    loop end) the chain is [N], [R] after every run of the fix-up. *)
Lemma setup_readonly_after_master :
  (exists ts queryTasks r o,
     setup 11 descriptorsReadonlyDetail = Some (ts, queryTasks)
     /\ sObjectName <$> ts = ["N"; "R"; "Y"; "X"]%string
     /\ ts !! 0 = Some o /\ ts !! 1 = Some r
     /\ isReadonlyObject (scriptObject r) = true
     /\ isRecordType o = false /\ isReadonlyObject (scriptObject o) = false
     /\ ~ zonesInOrder ts)
  /\ (forall n, sObjectName <$> afterPasses (S n)
                  (createTaskChain (take 2 descriptorsReadonlyDetail))
                = ["N"; "R"]%string).
Proof.
  split.
  - destruct (setup 11 descriptorsReadonlyDetail) as [[ts queryTasks]|] eqn:Hsetup;
      vm_compute in Hsetup; [|discriminate Hsetup].
    injection Hsetup as <- <-.
    eexists _, _, _, _. split; [reflexivity|].
    do 6 (split; [reflexivity|]).
    intros [_ Hro].
    specialize (Hro 1 0 _ _ eq_refl eq_refl eq_refl eq_refl eq_refl). lia.
  - intros n. rewrite afterPasses_first, afterPasses_fixed; reflexivity.
Qed.

(** ** The passes of [retrieveRecords] *)

Section RetrieveRecordsFacts.
Context {World : Type}.
Variable task_retrieveRecords : Task -> QueryMode -> bool -> World -> bool * World.

Lemma retrieveCalls_app tr1 tr2 :
  retrieveCalls (tr1 ++ tr2) = retrieveCalls tr1 ++ retrieveCalls tr2.
Proof. apply omap_app. Qed.

Lemma retrieveCalls_rlog method message (st : @Retrieval World) :
  retrieveCalls (retrieveTrace (rlog method message st))
  = retrieveCalls (retrieveTrace st).
Proof. unfold rlog. simpl. by rewrite retrieveCalls_app, app_nil_r. Qed.

Lemma retrieveCalls_logIfNothing (r : bool * @Retrieval World) :
  retrieveCalls (retrieveTrace (logIfNothing r)) = retrieveCalls (retrieveTrace r.2).
Proof. unfold logIfNothing. destruct r.1; [done|apply retrieveCalls_rlog]. Qed.

Lemma retrieveCalls_retrieveLoop queryTasks queryMode reversed st :
  retrieveCalls
    (retrieveTrace (retrieveLoop task_retrieveRecords queryTasks queryMode reversed st).2)
  = retrieveCalls (retrieveTrace st) ++ callsOfPass queryTasks queryMode reversed.
Proof.
  unfold retrieveLoop. generalize false as retrieved. revert st.
  induction queryTasks as [|task queryTasks IH]; intros st retrieved; simpl.
  - by rewrite app_nil_r.
  - rewrite IH. simpl. rewrite retrieveCalls_app. simpl.
    by rewrite <- app_assoc.
Qed.

Lemma retrieveCalls_summary (queryTasks : list Task) (st : @Retrieval World) :
  retrieveCalls (retrieveTrace
    (foldl (fun st (_ : Task) => rlog infoNormal queryingTotallyFetched st) st queryTasks))
  = retrieveCalls (retrieveTrace st).
Proof.
  revert st. induction queryTasks as [|task queryTasks IH]; intros st; simpl; [done|].
  by rewrite IH, retrieveCalls_rlog.
Qed.

(** C8. [retrieveRecords] makes six passes, in this order: source forwards;
    source backwards, twice; source forwards in reverse mode, twice;
    target. Each pass calls [task.retrieveRecords] on every task of
    [queryTasks], in query order, and is over before the next begins: the
    calls of the run are the calls of the six passes, one pass after the
    other. *)
Theorem retrieveRecords_six_passes :
  forall (queryTasks : list Task) (w : World),
    retrieveCalls (retrieveTrace
      (retrieveRecords task_retrieveRecords queryTasks (mkRetrieval w [])))
    = callsOfPass queryTasks forwards false
      ++ callsOfPass queryTasks backwards false
      ++ callsOfPass queryTasks backwards false
      ++ callsOfPass queryTasks forwards true
      ++ callsOfPass queryTasks forwards true
      ++ callsOfPass queryTasks target false.
Proof.
  intros queryTasks w. unfold retrieveRecords. cbv zeta.
  rewrite retrieveCalls_summary.
  repeat first
    [ rewrite retrieveCalls_rlog
    | rewrite retrieveCalls_logIfNothing
    | rewrite retrieveCalls_retrieveLoop ].
  simpl. by rewrite <- !app_assoc.
Qed.
End RetrieveRecordsFacts.

(** ** The prompt and the report of [updateRecords] *)

(** Unfolds the operations of [Job], to run a command on a state. *)
Ltac run_job :=
  unfold saveCSVFileAsync, emit, mbind, job_bind, jbind, jmodify, jget, jret, jthrow;
  simpl.

Lemma promptsAndWarnings_app tr1 tr2 :
  promptsAndWarnings (tr1 ++ tr2) = promptsAndWarnings tr1 ++ promptsAndWarnings tr2.
Proof. apply omap_app. Qed.

Lemma savedFiles_app tr1 tr2 :
  savedFiles (tr1 ++ tr2) = savedFiles tr1 ++ savedFiles tr2.
Proof. apply omap_app. Qed.

Lemma reportedRows_app rs1 rs2 :
  reportedRows (rs1 ++ rs2) = reportedRows rs1 ++ reportedRows rs2.
Proof. apply bind_app. Qed.

Lemma prompts_promptsAndWarnings tr :
  prompts (promptsAndWarnings tr) = prompts tr.
Proof.
  induction tr as [|e tr IH]; [done|].
  destruct e; simpl; try done; by rewrite <- IH.
Qed.

Lemma prompts_warnings rs : prompts (warningFor <$> rs) = [].
Proof. by induction rs. Qed.

Section UpdateRecordsFacts.
Variable task_updateRecords : Task -> QueryMode -> list ProcessedData * nat.
Variable userContinues : string -> nat -> bool.
Variable targetOrgMedia : DATA_MEDIA_TYPE.


Lemma delivered_refl s tr :
  promptsAndWarnings tr = [] -> savedFiles tr = [] ->
  forall total,
    delivered s (mkUpdate (noAbortPrompt s) total (allMissingParentLookups s)
                   (updateTrace s ++ tr)) [].
Proof.
  intros Hpw Hsaved total. unfold delivered, eventsFor, reportedRows. simpl.
  rewrite promptsAndWarnings_app, savedFiles_app, Hpw, Hsaved.
  destruct (noAbortPrompt s); simpl; by rewrite ?app_nil_r.
Qed.

Lemma silent_delivers m : silent m -> delivers userContinues m [].
Proof.
  intros Hm s. destruct (Hm s) as (s' & Hrun & Hs').
  unfold continues. rewrite orb_true_r. eauto.
Qed.

Lemma silent_emit_logged method message : silent (emit (ULogged method message)).
Proof. intros s. eexists. split; [reflexivity|]. by apply delivered_refl. Qed.

Lemma silent_emit_updated task updateMode : silent (emit (Updated task updateMode)).
Proof. intros s. eexists. split; [reflexivity|]. by apply delivered_refl. Qed.

Lemma silent_jret : silent (jret tt).
Proof.
  intros s. exists s. split; [reflexivity|].
  destruct s as [flag total acc tr].
  rewrite <- (app_nil_r tr) at 2. by apply (delivered_refl (mkUpdate flag total acc tr)).
Qed.

Lemma silent_logTotal : silent logTotal.
Proof.
  intros s. unfold logTotal, mbind, job_bind, jbind, jget.
  destruct (0 <? totalProcessedRecordsAmount s); apply silent_emit_logged.
Qed.

Lemma silent_total (f : nat -> nat) :
  silent (jmodify (fun s => mkUpdate (noAbortPrompt s) (f (totalProcessedRecordsAmount s))
                              (allMissingParentLookups s) (updateTrace s))).
Proof.
  intros s. eexists. split; [reflexivity|].
  rewrite <- (app_nil_r (updateTrace s)). by apply delivered_refl.
Qed.

(** Two parts of the run, one after the other. *)
Lemma delivers_bind (m1 m2 : Job Update unit) rs1 rs2 :
  delivers userContinues m1 rs1 -> delivers userContinues m2 rs2 -> delivers userContinues (m1 ;; m2) (rs1 ++ rs2).
Proof.
  intros H1 H2 s. specialize (H1 s).
  unfold mbind, job_bind, jbind, continues in *.
  destruct (noAbortPrompt s) eqn:Hflag; simpl in H1 |- *.
  - destruct H1 as (s1 & -> & Hf1 & Hacc1 & Hpw1 & Hsaved1).
    assert (noAbortPrompt s1 = true) as Hflag1 by (rewrite Hf1; by destruct rs1).
    specialize (H2 s1). rewrite Hflag1 in H2. simpl in H2.
    destruct H2 as (s2 & -> & Hf2 & Hacc2 & Hpw2 & Hsaved2).
    exists s2. split; [done|]. unfold delivered.
    rewrite Hflag, Hf2, Hacc2, Hacc1, Hpw2, Hpw1, Hsaved2, Hsaved1, Hflag1, Hflag.
    unfold eventsFor. rewrite reportedRows_app, fmap_app, <- !app_assoc.
    repeat split; by destruct rs1, rs2.
  - destruct rs1 as [|r later1]; simpl in H1 |- *.
    + destruct H1 as (s1 & -> & Hf1 & Hacc1 & Hpw1 & Hsaved1).
      rewrite Hflag in Hf1, Hpw1. unfold eventsFor in Hpw1.
      rewrite app_nil_r in Hacc1, Hpw1.
      specialize (H2 s1). rewrite Hf1 in H2. simpl in H2.
      destruct (match rs2 with [] => true | r :: _ => answer userContinues r end).
      * destruct H2 as (s2 & -> & Hf2 & Hacc2 & Hpw2 & Hsaved2).
        exists s2. split; [done|]. unfold delivered.
        by rewrite Hflag, Hf2, Hacc2, Hpw2, Hsaved2, Hf1, Hacc1, Hpw1, Hsaved1.
      * destruct H2 as (s2 & -> & r & later & -> & Hacc2 & Hpw2 & Hsaved2).
        exists s2. split; [done|]. exists r, later.
        by rewrite <- Hacc1, <- Hpw1, <- Hsaved1.
    + destruct (answer userContinues r) eqn:Hanswer.
      * destruct H1 as (s1 & -> & Hf1 & Hacc1 & Hpw1 & Hsaved1).
        specialize (H2 s1). rewrite Hf1 in H2. simpl in H2.
        destruct H2 as (s2 & -> & Hf2 & Hacc2 & Hpw2 & Hsaved2).
        exists s2. split; [done|]. unfold delivered.
        rewrite Hflag, Hf2, Hacc2, Hacc1, Hpw2, Hpw1, Hsaved2, Hsaved1, Hf1, Hflag.
        change (r :: later1 ++ rs2) with ((r :: later1) ++ rs2).
        rewrite reportedRows_app, <- !app_assoc. unfold eventsFor.
        change ((r :: later1) ++ rs2) with (r :: (later1 ++ rs2)).
        repeat split; [by destruct rs2|].
        f_equal. simpl. by rewrite fmap_app.
      * destruct H1 as (s1 & -> & r' & later' & [= <- <-] & Hacc1 & Hpw1 & Hsaved1).
        exists s1. split; [done|]. by exists r, (later1 ++ rs2).
Qed.

Lemma delivers_silent_l (m1 m2 : Job Update unit) rs :
  silent m1 -> delivers userContinues m2 rs -> delivers userContinues (m1 ;; m2) rs.
Proof. intros H1 H2. apply (delivers_bind m1 m2 [] rs); [by apply silent_delivers|done]. Qed.

Lemma delivers_silent_r (m1 m2 : Job Update unit) rs :
  delivers userContinues m1 rs -> silent m2 -> delivers userContinues (m1 ;; m2) rs.
Proof.
  intros H1 H2. rewrite <- (app_nil_r rs).
  apply delivers_bind; [done|by apply silent_delivers].
Qed.

(** One call of the callback. *)
Lemma delivers_warnUserCallback task data :
  delivers userContinues (warnUserCallback userContinues task data) [(task, data)].
Proof.
  intros [flag total acc tr].
  unfold continues, answer. simpl.
  unfold warnUserCallback, ___warn, ___promptToAbort, abortWithPrompt.
  run_job. destruct flag; simpl.
  - eexists. split; [reflexivity|]. unfold delivered, eventsFor, reportedRows. simpl.
    rewrite promptsAndWarnings_app, savedFiles_app, !app_nil_r. done.
  - destruct (userContinues (sObjectName task) (length (missingParentLookups data))); simpl.
    + eexists. split; [reflexivity|]. unfold delivered, eventsFor, reportedRows. simpl.
      rewrite promptsAndWarnings_app, savedFiles_app, !app_nil_r. done.
    + eexists. split; [reflexivity|]. exists (task, data), []. simpl.
      unfold reportedRows. simpl.
      rewrite !promptsAndWarnings_app, !savedFiles_app, !app_nil_r. done.
Qed.

Lemma delivers_callbacks task (datas : list ProcessedData) :
  delivers userContinues (jforEach datas (warnUserCallback userContinues task))
           ((fun data => (task, data)) <$> datas).
Proof.
  induction datas as [|data datas IH]; simpl.
  - apply silent_delivers, silent_jret.
  - apply (delivers_bind _ _ [(task, data)]); [apply delivers_warnUserCallback|done].
Qed.

Lemma delivers_updateTask updateMode task :
  delivers userContinues (updateTask task_updateRecords userContinues updateMode task)
           ((fun data => (task, data)) <$> (task_updateRecords task updateMode).1).
Proof.
  unfold updateTask. cbv zeta.
  apply delivers_silent_l; [apply silent_emit_updated|].
  apply delivers_silent_r; [apply delivers_callbacks|].
  intros s. unfold mbind, job_bind, jbind.
  destruct (0 <? (task_updateRecords task updateMode).2).
  - destruct (silent_emit_logged infoNormal updatingTargetObjectCompleted s)
      as (s1 & -> & Hf1 & Hacc1 & Hpw1 & Hsaved1).
    destruct (silent_total (fun n => n + (task_updateRecords task updateMode).2) s1)
      as (s2 & -> & Hf2 & Hacc2 & Hpw2 & Hsaved2).
    exists s2. split; [done|]. unfold delivered in *. simpl in *.
    rewrite Hf2, Hacc2, Hpw2, Hsaved2, Hf1, Hacc1, Hpw1, Hsaved1.
    unfold eventsFor. destruct (noAbortPrompt s), (noAbortPrompt s1);
      simpl; by rewrite ?app_nil_r.
  - apply (silent_total (fun n => n + (task_updateRecords task updateMode).2)).
Qed.

Lemma delivers_pass updateMode (ts : list Task) :
  delivers userContinues (jforEach ts (updateTask task_updateRecords userContinues updateMode))
           (reportsOfPass task_updateRecords ts updateMode).
Proof.
  induction ts as [|task ts IH]; simpl.
  - apply silent_delivers, silent_jret.
  - apply delivers_bind; [apply delivers_updateTask|done].
Qed.

Lemma delivers_updatePasses (ts : list Task) :
  delivers userContinues (updatePasses task_updateRecords userContinues targetOrgMedia ts)
           (allReports task_updateRecords targetOrgMedia ts).
Proof.
  unfold updatePasses, allReports.
  do 2 (apply delivers_silent_l; [apply silent_emit_logged|]).
  apply delivers_bind; [apply delivers_pass|].
  apply delivers_silent_l; [apply silent_logTotal|].
  do 2 (apply delivers_silent_l; [apply silent_emit_logged|]).
  apply delivers_silent_l; [apply (silent_total (fun _ => 0))|].
  apply delivers_silent_r; [|].
  - destruct targetOrgMedia; [apply delivers_pass|apply silent_delivers, silent_jret].
  - intros s. unfold mbind, job_bind, jbind.
    destruct (silent_logTotal s) as (s1 & -> & Hf1 & Hacc1 & Hpw1 & Hsaved1).
    destruct (silent_emit_logged infoVerbose newLine s1)
      as (s2 & -> & Hf2 & Hacc2 & Hpw2 & Hsaved2).
    exists s2. split; [done|]. unfold delivered in *. simpl in *.
    rewrite Hf2, Hacc2, Hpw2, Hsaved2, Hf1, Hacc1, Hpw1, Hsaved1.
    unfold eventsFor. destruct (noAbortPrompt s), (noAbortPrompt s1);
      simpl; by rewrite ?app_nil_r.
Qed.

(** The whole run, from the state it starts in: whether it returns, the
    accumulator, the prompts and warnings, and the report files saved. *)
Lemma updateRecords_run (ts : list Task) :
  let run := updateRecords task_updateRecords userContinues targetOrgMedia ts updateStart in
  let made := reportsMade task_updateRecords userContinues targetOrgMedia ts in
  run.1 = (if continues userContinues false (allReports task_updateRecords targetOrgMedia ts)
           then Some tt else None)
  /\ allMissingParentLookups run.2 = reportedRows made
  /\ promptsAndWarnings (updateTrace run.2) = eventsFor false made
  /\ savedFiles (updateTrace run.2)
     = [(MISSING_PARENT_LOOKUP_RECORDS_ERRORS_FILENAME, allMissingParentLookups run.2)].
Proof.
  cbv zeta. unfold updateRecords, reportsMade.
  pose proof (delivers_updatePasses ts updateStart) as Hpasses.
  unfold mbind, job_bind, jbind.
  set (rs := allReports task_updateRecords targetOrgMedia ts) in *.
  unfold continues in *. simpl in Hpasses |- *.
  destruct rs as [|r later].
  - destruct Hpasses as (s1 & -> & Hf & Hacc & Hpw & Hsaved).
    simpl in *. run_job.
    rewrite !promptsAndWarnings_app, !savedFiles_app, Hacc, Hpw, Hsaved. done.
  - fold (answer userContinues r) in Hpasses |- *. destruct (answer userContinues r).
    + destruct Hpasses as (s1 & -> & Hf & Hacc & Hpw & Hsaved).
      simpl in *. run_job.
      rewrite !promptsAndWarnings_app, !savedFiles_app, Hacc, Hpw, Hsaved.
      simpl. by rewrite !app_nil_r.
    + destruct Hpasses as (s1 & -> & r' & later' & [= <- <-] & Hacc & Hpw & Hsaved).
      simpl in *. done.
Qed.
End UpdateRecordsFacts.

(** C4. Across both passes of [updateRecords] the abort prompt is shown at
    most once in a run: the first call of the callback, in processing order
    (the forward pass over [tasks], then the backward pass), shows the
    prompt, and every later call, of any task in either pass, only emits a
    warning (there is none when the prompt is answered with abort, which ends
    the run). *)
Theorem updateRecords_prompts_once :
  forall (task_updateRecords : Task -> QueryMode -> list ProcessedData * nat)
         (userContinues : string -> nat -> bool)
         (targetOrgMedia : DATA_MEDIA_TYPE) (ts : list Task),
    let run := updateRecords task_updateRecords userContinues targetOrgMedia ts updateStart in
    promptsAndWarnings (updateTrace run.2)
    = match allReports task_updateRecords targetOrgMedia ts with
      | [] => []
      | first :: later =>
          promptFor first
          :: (if answer userContinues first then warningFor <$> later else [])
      end
    /\ length (prompts (updateTrace run.2)) <= 1.
Proof.
  intros task_updateRecords userContinues targetOrgMedia ts run.
  destruct (updateRecords_run task_updateRecords userContinues targetOrgMedia ts)
    as (_ & _ & Hpw & _).
  fold run in Hpw. unfold reportsMade, eventsFor in Hpw.
  rewrite <- prompts_promptsAndWarnings, Hpw.
  destruct (allReports task_updateRecords targetOrgMedia ts) as [|first later];
    [split; [done|simpl; lia]|].
  destruct (answer userContinues first); (split; [done|]); [|simpl; lia].
  change (prompts (promptFor first :: (warningFor <$> later)))
    with (promptFor first :: prompts (warningFor <$> later)).
  rewrite prompts_warnings. simpl. lia.
Qed.

(** C5. [updateRecords] appends the rows of every call of the callback, of
    both passes, to one accumulator, as they come; the report file is saved
    once in a run, at the end or from within the prompt answered with abort,
    and holds the whole accumulator: the rows of every call made in the run
    (all the calls when the run goes on to its end, the first one when its
    prompt aborts the run). *)
Theorem updateRecords_report_complete :
  forall (task_updateRecords : Task -> QueryMode -> list ProcessedData * nat)
         (userContinues : string -> nat -> bool)
         (targetOrgMedia : DATA_MEDIA_TYPE) (ts : list Task),
    let run := updateRecords task_updateRecords userContinues targetOrgMedia ts updateStart in
    let reports := allReports task_updateRecords targetOrgMedia ts in
    let made := reportsMade task_updateRecords userContinues targetOrgMedia ts in
    run.1 = (if continues userContinues false reports then Some tt else None)
    /\ made = (if continues userContinues false reports then reports else take 1 reports)
    /\ allMissingParentLookups run.2 = reportedRows made
    /\ savedFiles (updateTrace run.2)
       = [(MISSING_PARENT_LOOKUP_RECORDS_ERRORS_FILENAME, reportedRows made)].
Proof.
  intros task_updateRecords userContinues targetOrgMedia ts run reports made.
  destruct (updateRecords_run task_updateRecords userContinues targetOrgMedia ts)
    as (Hres & Hacc & _ & Hsaved).
  fold run reports made in Hres, Hacc, Hsaved.
  rewrite Hacc in Hsaved. repeat split; try done.
  unfold made, reportsMade, continues. fold reports.
  destruct reports as [|first later]; [done|]. simpl.
  by destruct (answer userContinues first).
Qed.

(** The example of the two entities: in the forward pass [X] reports two
    missing lookups and [Y] three more; the prompt is shown once, for [X],
    and the report saved holds the five rows. *)
Example updateRecords_X_then_Y :
  let row v := mkMissingParentLookup "" "" "" "" "" "" v in
  let X := mkTask 0 (entity "X" false [] []) in
  let Y := mkTask 1 (entity "Y" false [] []) in
  let task_updateRecords (task : Task) (updateMode : QueryMode) :=
    match updateMode, taskId task with
    | forwards, 0 => ([mkProcessedData [row "a"; row "b"]], 0)
    | forwards, 1 => ([mkProcessedData [row "c"; row "d"; row "e"]], 0)
    | _, _ => ([], 0)
    end in
  let run := updateRecords task_updateRecords (fun _ _ => true) Org [X; Y] updateStart in
  run.1 = Some tt
  /\ promptsAndWarnings (updateTrace run.2) = [PromptedToAbort "X" 2; Warned "Y" 3]
  /\ savedFiles (updateTrace run.2)
     = [(MISSING_PARENT_LOOKUP_RECORDS_ERRORS_FILENAME,
         [row "a"; row "b"; row "c"; row "d"; row "e"])].
Proof. repeat split. Qed.

(** ** The flush of the csv cache *)

Lemma jsmap_get_key {K V} `{EqDecision K} (m : JsMap K V) (k : K) :
  k ∈ jsmap_keys m -> is_Some (jsmap_get m k).
Proof.
  unfold jsmap_keys. induction m as [|[k' v] m IH]; simpl.
  - by intros ?%elem_of_nil.
  - intros Hk. destruct (decide (k' = k)) as [|Hne]; [by eexists|].
    apply elem_of_cons in Hk as [Hk|Hk]; [by destruct Hne|by apply IH].
Qed.

Lemma saveCachedCsvDataFiles_fold (updated : gset string)
    (m : JsMap string (JsMap string CsvRow)) (filePaths : list string) (d : Disk) :
  (forall filePath, filePath ∈ filePaths -> is_Some (jsmap_get m filePath)) ->
  writtenPaths
    (foldl (fun d filePath =>
              if decide (filePath ∈ updated) then
                match jsmap_get m filePath with
                | Some csvData => writeCsvFileAsync filePath (jsmap_values csvData) d
                | None => d
                end
              else d) d filePaths)
  = writtenPaths d ++ filter (fun filePath => filePath ∈ updated) filePaths.
Proof.
  revert d. induction filePaths as [|filePath filePaths IH]; intros d Hget; simpl.
  - by rewrite filter_nil, app_nil_r.
  - rewrite filter_cons. rewrite IH by (intros p Hp; apply Hget; by right).
    destruct (decide (filePath ∈ updated)); [|done].
    destruct (Hget filePath) as [csvData ->]; [left|].
    unfold writeCsvFileAsync, writtenPaths. rewrite fmap_app. simpl.
    by rewrite <- app_assoc.
Qed.

(** The paths written by a flush: the cached paths that are marked dirty, in
    the order of the cache, after what was written before. *)
Lemma saveCachedCsvDataFiles_paths (c : CachedCSVContent) (d : Disk) :
  writtenPaths (saveCachedCsvDataFiles c d)
  = writtenPaths d
    ++ filter (fun filePath => filePath ∈ updatedFilenames c)
              (jsmap_keys (csvDataCacheMap c)).
Proof.
  unfold saveCachedCsvDataFiles. apply saveCachedCsvDataFiles_fold.
  intros filePath. apply jsmap_get_key.
Qed.

(** C3 (as amended). [saveCachedCsvDataFiles] writes the cached file paths
    that are marked dirty (present in [updatedFilenames]), each once, with
    all the rows the cache holds for the path, and no other path; it marks no
    path clean, so a second flush with no new dirty path writes the same
    paths once more; a flush writes nothing when no cached path is marked
    dirty, as after [clear()]. *)
Theorem saveCachedCsvDataFiles_writes_dirty_paths :
  forall (c : CachedCSVContent) (d : Disk),
    let dirty := filter (fun filePath => filePath ∈ updatedFilenames c)
                        (jsmap_keys (csvDataCacheMap c)) in
    writtenPaths (saveCachedCsvDataFiles c d) = writtenPaths d ++ dirty
    /\ (forall filePath,
          filePath ∈ dirty
          <-> filePath ∈ jsmap_keys (csvDataCacheMap c) /\ filePath ∈ updatedFilenames c)
    /\ Forall (fun w => exists csvData,
                  jsmap_get (csvDataCacheMap c) w.1 = Some csvData
                  /\ w.2 = jsmap_values csvData)
              (saveCachedCsvDataFiles c [])
    /\ writtenPaths (saveCachedCsvDataFiles c (saveCachedCsvDataFiles c d))
       = writtenPaths d ++ dirty ++ dirty
    /\ saveCachedCsvDataFiles clear d = d.
Proof.
  intros c d dirty. split; [|split; [|split; [|split]]].
  - apply saveCachedCsvDataFiles_paths.
  - intros filePath. unfold dirty. rewrite list_elem_of_filter. tauto.
  - unfold saveCachedCsvDataFiles.
    apply (foldl_invariant
             (Forall (fun w => exists csvData,
                        jsmap_get (csvDataCacheMap c) w.1 = Some csvData
                        /\ w.2 = jsmap_values csvData))); [constructor|].
    intros d' filePath _ Hd'.
    destruct (decide (filePath ∈ updatedFilenames c)); [|done].
    destruct (jsmap_get (csvDataCacheMap c) filePath) as [csvData|] eqn:Hget; [|done].
    apply Forall_app. split; [done|]. constructor; [|constructor]. by exists csvData.
  - rewrite !saveCachedCsvDataFiles_paths. by rewrite <- app_assoc.
  - reflexivity.
Qed.

(** C3 (as stated) fails: with [a.csv] marked dirty, a second flush right
    after the first writes [a.csv] again. *)
Lemma saveCachedCsvDataFiles_twice :
  writtenPaths (saveCachedCsvDataFiles cacheWithDirtyFile []) = ["a.csv"%string]
  /\ writtenPaths (saveCachedCsvDataFiles cacheWithDirtyFile
                     (saveCachedCsvDataFiles cacheWithDirtyFile []))
     = ["a.csv"; "a.csv"]%string.
Proof. split; vm_compute; reflexivity. Qed.

(** ** The chunks of a CRUD job *)

Section ApiEngineBaseFacts.
Context {Rec : Type}.
Variable processCRUDApiBatchAsync : @ICsvChunk Rec -> option (list Rec).
Variable processCRUDSimulationBatchAsync : @ICsvChunk Rec -> option (list Rec).

Lemma processChunks_result (e : ApiEngineBase) (rest : list ICsvChunk)
    (allResultRecords : list Rec) (d : TargetDisk) :
  processChunks processCRUDApiBatchAsync processCRUDSimulationBatchAsync
    e rest allResultRecords d
  = match mapM (chunkResult processCRUDApiBatchAsync processCRUDSimulationBatchAsync e) rest with
    | Some results =>
        (Some (allResultRecords ++ concat results),
         writeToTargetCSVFileAsync e (allResultRecords ++ concat results) d)
    | None => (None, writeToTargetCSVFileAsync e [] d)
    end.
Proof.
  revert allResultRecords. induction rest as [|csvCunk rest IH]; intros allResultRecords; simpl.
  - by rewrite app_nil_r.
  - destruct (chunkResult _ _ e csvCunk) as [resultRecords|]; simpl; [|done].
    rewrite IH.
    destruct (mapM _ rest) as [results|]; simpl; [|done].
    by rewrite <- app_assoc.
Qed.

(** C10 (as amended). When processing a chunk yields a null result,
    [processCRUDApiJobAsync] returns null at once, whatever the chunks before
    it yielded, and calls [writeToTargetCSVFileAsync] with an empty list;
    when every chunk succeeds it returns the concatenation of the results of
    the chunks and calls [writeToTargetCSVFileAsync] with it. That call
    writes the target csv file when [createTargetCSVFiles] is set, and writes
    nothing otherwise. *)
Theorem processCRUDApiJobAsync_result :
  forall (e : ApiEngineBase) (d : TargetDisk),
    processCRUDApiJobAsync processCRUDApiBatchAsync processCRUDSimulationBatchAsync e d
    = match mapM (chunkResult processCRUDApiBatchAsync processCRUDSimulationBatchAsync e)
                 (chunks e) with
      | Some results =>
          (Some (concat results),
           if createTargetCSVFiles e
           then d ++ [(targetCSVFullFilename e, concat results)] else d)
      | None =>
          (None,
           if createTargetCSVFiles e
           then d ++ [(targetCSVFullFilename e, [])] else d)
      end.
Proof.
  intros e d. unfold processCRUDApiJobAsync. rewrite processChunks_result.
  by destruct (mapM _ _).
Qed.
End ApiEngineBaseFacts.

(** C10 (as stated) fails: on an engine with [createTargetCSVFiles] unset,
    the second chunk yields null and the method returns null, but it writes
    nothing to the target csv file. *)
Lemma processCRUDApiJobAsync_no_target_file :
  chunkResult failOnZero failOnZero engineWithoutTargetCSV <$> chunks engineWithoutTargetCSV
  = [Some [1; 2]; None]
  /\ processCRUDApiJobAsync failOnZero failOnZero engineWithoutTargetCSV [] = (None, []).
Proof. split; vm_compute; reflexivity. Qed.

(** ** Decimal numerals *)

Lemma string_app_cons c (s1 s2 : string) : String c s1 +:+ s2 = String c (s1 +:+ s2).
Proof. reflexivity. Qed.

Lemma string_app_nil_r (s : string) : s +:+ "" = s.
Proof. induction s as [|c s IH]; [done|]. by rewrite string_app_cons, IH. Qed.

Lemma string_app_assoc (s1 s2 s3 : string) : (s1 +:+ s2) +:+ s3 = s1 +:+ s2 +:+ s3.
Proof. induction s1 as [|c s1 IH]; [done|]. by rewrite !string_app_cons, IH. Qed.

Lemma fixedWidthDecimal_length w n : String.length (fixedWidthDecimal w n) = w.
Proof. induction w as [|w IH]; simpl; [done|by rewrite IH]. Qed.

(** The least significant digit comes last. *)
Lemma fixedWidthDecimal_snoc w n :
  fixedWidthDecimal (S w) n
  = fixedWidthDecimal w (n / 10) +:+ String (digitChar (n mod 10)) "".
Proof.
  induction w as [|w IH].
  - simpl. by rewrite Z.div_1_r.
  - change (fixedWidthDecimal (S (S w)) n)
      with (String (digitChar (n / 10 ^ Z.of_nat (S w) mod 10)) (fixedWidthDecimal (S w) n)).
    rewrite IH.
    change (fixedWidthDecimal (S w) (n / 10))
      with (String (digitChar (n / 10 / 10 ^ Z.of_nat w mod 10))
              (fixedWidthDecimal w (n / 10))).
    rewrite string_app_cons. do 2 f_equal.
    rewrite Zdiv_Zdiv by lia. do 2 f_equal.
    rewrite Nat2Z.inj_succ, Z.pow_succ_r by lia. done.
Qed.

(** Zeros in front of a numeral that is wide enough for the number. *)
Lemma leadingZeros_fixedWidthDecimal k w n :
  (0 <= n < 10 ^ Z.of_nat w)%Z ->
  leadingZeros k (fixedWidthDecimal w n) = fixedWidthDecimal (k + w) n.
Proof.
  intros Hn. induction k as [|k IH]; simpl; [done|].
  rewrite IH. f_equal.
  assert (10 ^ Z.of_nat w <= 10 ^ Z.of_nat (k + w))%Z
    by (apply Z.pow_le_mono_r; lia).
  by rewrite Z.div_small by lia.
Qed.

(** [String(num)]: the numeral of [num] on as many digits as it takes. *)
Lemma digitsOf_fixedWidthDecimal fuel num acc :
  (0 <= num < 2 ^ Z.of_nat fuel)%Z -> 1 <= fuel ->
  exists w,
    digitsOf fuel num acc = fixedWidthDecimal w num +:+ acc
    /\ 1 <= w
    /\ (num < 10 ^ Z.of_nat w)%Z
    /\ (num = 0%Z -> w = 1)
    /\ (0 < num -> 10 ^ Z.of_nat (w - 1) <= num)%Z.
Proof.
  revert num acc. induction fuel as [|fuel IH]; intros num acc Hnum Hfuel; [lia|].
  simpl. destruct (Z.eqb_spec (num / 10) 0) as [Hsmall|Hbig].
  - assert (0 <= num < 10)%Z as Hdigit.
    { pose proof (Z.div_mod num 10). pose proof (Z.mod_pos_bound num 10). lia. }
    exists 1. simpl. rewrite Z.div_1_r. repeat split; lia.
  - assert (1 <= num / 10)%Z as Hge.
    { pose proof (Z.div_pos num 10). lia. }
    assert (num / 10 < 2 ^ Z.of_nat fuel)%Z as Hlt.
    { apply Z.div_lt_upper_bound; [lia|].
      rewrite Nat2Z.inj_succ, Z.pow_succ_r in Hnum by lia. lia. }
    assert (1 <= fuel) as Hfuel'.
    { destruct fuel; [|lia]. simpl in Hlt. lia. }
    destruct (IH (num / 10)%Z (String (digitChar (num mod 10)) acc))
      as (w & Heq & Hw & Hub & _ & Hlb); [lia|done|].
    exists (S w). rewrite Heq, fixedWidthDecimal_snoc, string_app_assoc.
    pose proof (Z.div_mod num 10). pose proof (Z.mod_pos_bound num 10).
    specialize (Hlb ltac:(lia)).
    replace (S w - 1) with (S (w - 1)) by lia.
    rewrite !Nat2Z.inj_succ, !Z.pow_succ_r by lia.
    repeat split; try lia.
Qed.

Lemma numberToString_fixedWidthDecimal num :
  (0 <= num)%Z ->
  exists w,
    numberToString num = fixedWidthDecimal w num
    /\ 1 <= w
    /\ (num < 10 ^ Z.of_nat w)%Z
    /\ (num = 0%Z -> w = 1)
    /\ (0 < num -> 10 ^ Z.of_nat (w - 1) <= num)%Z.
Proof.
  intros Hnum. unfold numberToString.
  destruct (digitsOf_fixedWidthDecimal (S (Z.to_nat (Z.log2 num))) num "")
    as (w & Heq & Hw); [|lia|].
  - split; [done|].
    rewrite Nat2Z.inj_succ, Z2Nat.id by apply Z.log2_nonneg.
    destruct (decide (num = 0%Z)) as [->|]; [done|].
    apply Z.log2_spec. lia.
  - exists w. split; [|done].
    by rewrite Heq, string_app_nil_r.
Qed.

(** Below [10 ^ size] the padded numeral has exactly [size] digits. *)
Lemma addLeadnigZeros_fixedWidthDecimal num size :
  1 <= size -> (0 <= num < 10 ^ Z.of_nat size)%Z ->
  addLeadnigZeros num size = fixedWidthDecimal size num.
Proof.
  intros Hsize Hnum. unfold addLeadnigZeros.
  destruct (numberToString_fixedWidthDecimal num) as (w & -> & Hw & Hub & Hzero & Hlb);
    [lia|].
  rewrite fixedWidthDecimal_length.
  assert (w <= size) as Hle.
  { destruct (decide (num = 0%Z)) as [Hz|Hnz]; [rewrite (Hzero Hz); lia|].
    specialize (Hlb ltac:(lia)).
    destruct (Nat.le_gt_cases w size) as [|Hgt]; [done|].
    assert (10 ^ Z.of_nat size <= 10 ^ Z.of_nat (w - 1))%Z
      by (apply Z.pow_le_mono_r; lia).
    lia. }
  rewrite leadingZeros_fixedWidthDecimal by lia.
  f_equal. lia.
Qed.

(** ** The order of the synthetic ids *)

Lemma digitChar_compare (d1 d2 : Z) :
  (0 <= d1 <= 9)%Z -> (0 <= d2 <= 9)%Z ->
  Ascii.compare (digitChar d1) (digitChar d2) = (d1 ?= d2)%Z.
Proof.
  intros H1 H2.
  assert (d1 = 0 \/ d1 = 1 \/ d1 = 2 \/ d1 = 3 \/ d1 = 4 \/ d1 = 5 \/ d1 = 6
          \/ d1 = 7 \/ d1 = 8 \/ d1 = 9)%Z as Hd1 by lia.
  assert (d2 = 0 \/ d2 = 1 \/ d2 = 2 \/ d2 = 3 \/ d2 = 4 \/ d2 = 5 \/ d2 = 6
          \/ d2 = 7 \/ d2 = 8 \/ d2 = 9)%Z as Hd2 by lia.
  destruct_or!; subst; reflexivity.
Qed.

Lemma string_compare_cons c1 c2 (s1 s2 : string) :
  String.compare (String c1 s1) (String c2 s2)
  = match Ascii.compare c1 c2 with
    | Eq => String.compare s1 s2
    | Lt => Lt
    | Gt => Gt
    end.
Proof. simpl. by destruct (Ascii.compare c1 c2). Qed.

(** Numerals of the same width are ordered as the numbers they write. *)
Lemma fixedWidthDecimal_compare w (a b : Z) :
  String.compare (fixedWidthDecimal w a) (fixedWidthDecimal w b)
  = (a mod 10 ^ Z.of_nat w ?= b mod 10 ^ Z.of_nat w)%Z.
Proof.
  induction w as [|w IH].
  - simpl. by rewrite !Z.mod_1_r.
  - change (fixedWidthDecimal (S w) a)
      with (String (digitChar (a / 10 ^ Z.of_nat w mod 10)) (fixedWidthDecimal w a)).
    change (fixedWidthDecimal (S w) b)
      with (String (digitChar (b / 10 ^ Z.of_nat w mod 10)) (fixedWidthDecimal w b)).
    assert (0 < 10 ^ Z.of_nat w)%Z as Hpos by (apply Z.pow_pos_nonneg; lia).
    rewrite string_compare_cons, IH.
    rewrite digitChar_compare by (apply Z.mod_pos_bound || (pose proof (Z.mod_pos_bound (a / 10 ^ Z.of_nat w) 10); pose proof (Z.mod_pos_bound (b / 10 ^ Z.of_nat w) 10); lia)).
    rewrite Nat2Z.inj_succ, Z.pow_succ_r, (Z.mul_comm 10) by lia.
    rewrite !Z.rem_mul_r by lia.
    pose proof (Z.mod_pos_bound a (10 ^ Z.of_nat w) Hpos).
    pose proof (Z.mod_pos_bound b (10 ^ Z.of_nat w) Hpos).
    set (da := (a / 10 ^ Z.of_nat w mod 10)%Z) in *.
    set (db := (b / 10 ^ Z.of_nat w mod 10)%Z) in *.
    set (ra := (a mod 10 ^ Z.of_nat w)%Z) in *.
    set (rb := (b mod 10 ^ Z.of_nat w)%Z) in *.
    set (p := (10 ^ Z.of_nat w)%Z) in *.
    destruct (Z.compare_spec da db) as [->|Hlt|Hgt].
    + destruct (Z.compare_spec ra rb) as [->|Hlt|Hgt]; symmetry.
      * apply Z.compare_eq_iff. done.
      * apply Z.compare_lt_iff. lia.
      * apply Z.compare_gt_iff. lia.
    + symmetry. apply Z.compare_lt_iff. nia.
    + symmetry. apply Z.compare_gt_iff. nia.
Qed.

Lemma syntheticId_lt (a b : Z) :
  (0 <= a < 10 ^ 16)%Z -> (0 <= b < 10 ^ 16)%Z ->
  string_lt (syntheticId a) (syntheticId b) <-> (a < b)%Z.
Proof.
  intros Ha Hb. unfold string_lt, syntheticId.
  change ("ID" +:+ fixedWidthDecimal 16 a)
    with (String "I" (String "D" (fixedWidthDecimal 16 a))).
  change ("ID" +:+ fixedWidthDecimal 16 b)
    with (String "I" (String "D" (fixedWidthDecimal 16 b))).
  rewrite !string_compare_cons.
  change (Ascii.compare "I" "I") with Eq. change (Ascii.compare "D" "D") with Eq.
  rewrite fixedWidthDecimal_compare.
  change (10 ^ Z.of_nat 16)%Z with (10 ^ 16)%Z.
  rewrite !Z.mod_small by lia. apply Z.compare_lt_iff.
Qed.

Lemma syntheticId_length (a : Z) : String.length (syntheticId a) = 18.
Proof.
  unfold syntheticId.
  change ("ID" +:+ fixedWidthDecimal 16 a)
    with (String "I" (String "D" (fixedWidthDecimal 16 a))).
  change (S (S (String.length (fixedWidthDecimal 16 a))) = 18).
  by rewrite fixedWidthDecimal_length.
Qed.

Lemma MAX_EXACT_bound : (MAX_EXACT < 10 ^ 16)%Z.
Proof. reflexivity. Qed.

(** One read of [nextId], with the counter in the range where it is exact. *)
Lemma nextId_syntheticId (c : CachedCSVContent) :
  (1 <= idCounter c <= MAX_EXACT)%Z ->
  (nextId c).1 = syntheticId (idCounter c).
Proof.
  intros Hc. pose proof MAX_EXACT_bound. unfold nextId, syntheticId. simpl.
  by rewrite addLeadnigZeros_fixedWidthDecimal by (simpl; lia).
Qed.

Lemma nextIds_syntheticIds n (c : CachedCSVContent) :
  (1 <= idCounter c)%Z -> (idCounter c + Z.of_nat n - 1 <= MAX_EXACT)%Z ->
  (nextIds n c).1 = syntheticIds (idCounter c) n.
Proof.
  revert c. induction n as [|n IH]; intros c Hlo Hhi; [done|].
  change (nextIds (S n) c).1 with ((nextId c).1 :: (nextIds n (nextId c).2).1).
  rewrite nextId_syntheticId by lia. simpl syntheticIds. f_equal.
  destruct n as [|n]; [done|].
  assert (idCounter (nextId c).2 = idCounter c + 1)%Z as Hnext.
  { simpl. unfold increment. destruct (Z.ltb_spec (idCounter c) MAX_EXACT); lia. }
  rewrite IH by (rewrite Hnext; lia). by rewrite Hnext.
Qed.

Lemma syntheticIds_lookup n (counter : Z) k :
  k < n -> syntheticIds counter n !! k = Some (syntheticId (counter + Z.of_nat k)).
Proof.
  revert counter k. induction n as [|n IH]; intros counter k Hk; [lia|].
  destruct k as [|k]; simpl.
  - by rewrite Z.add_0_r.
  - rewrite IH by lia. do 2 f_equal. lia.
Qed.

Lemma syntheticIds_length n (counter : Z) : length (syntheticIds counter n) = n.
Proof. revert counter. induction n as [|n IH]; intros counter; simpl; [done|by rewrite IH]. Qed.

Lemma syntheticIds_sorted n (counter : Z) :
  (0 <= counter)%Z -> (counter + Z.of_nat n <= 10 ^ 16)%Z ->
  StronglySorted string_lt (syntheticIds counter n).
Proof.
  revert counter. induction n as [|n IH]; intros counter Hlo Hhi; simpl.
  - constructor.
  - apply StronglySorted_cons. split; [|apply IH; lia].
    apply Forall_lookup. intros k id Hk.
    assert (k < n) as Hlt
      by (apply lookup_lt_Some in Hk; by rewrite syntheticIds_length in Hk).
    rewrite syntheticIds_lookup in Hk by done. injection Hk as <-.
    apply syntheticId_lt; lia.
Qed.

Lemma string_lt_irrefl (s : string) : ~ string_lt s s.
Proof.
  unfold string_lt. intros Hlt.
  assert (String.compare s s = Eq) as Heq.
  { clear Hlt. induction s as [|c s IH]; [done|].
    rewrite string_compare_cons. unfold Ascii.compare.
    by rewrite N.compare_refl. }
  congruence.
Qed.

Lemma string_lt_sorted_NoDup (l : list string) :
  StronglySorted string_lt l -> NoDup l.
Proof.
  induction 1 as [|x l Hs IH Hx]; constructor; [|done].
  intros Hin. rewrite Forall_forall in Hx.
  by apply (string_lt_irrefl x), Hx.
Qed.

(** C9. Every read of [nextId] returns ["ID"] followed by the decimal value
    of the counter, zero-padded to 16 digits; the counter starts at 1, so the
    [k]-th read of a run (from 0) returns the id of [k + 1]; the ids of a run
    are strictly increasing, as strings, and pairwise distinct. The run is
    one of at most 2^53 reads: up to there the counter, a JavaScript number,
    counts exactly. *)
Theorem nextId_ids_increasing_distinct : forall (n : nat),
  (Z.of_nat n <= MAX_EXACT)%Z ->
  let ids := (nextIds n clear).1 in
  (forall k, k < n ->
     ids !! k = Some ("ID" +:+ fixedWidthDecimal 16 (Z.of_nat k + 1)))
  /\ Forall (fun id => String.length id = 18) ids
  /\ StronglySorted string_lt ids
  /\ NoDup ids.
Proof.
  intros n Hn ids. pose proof MAX_EXACT_bound as Hmax.
  assert (ids = syntheticIds 1 n) as ->
    by (apply (nextIds_syntheticIds n clear); simpl; lia).
  assert (StronglySorted string_lt (syntheticIds 1 n)) as Hsorted
    by (apply syntheticIds_sorted; lia).
  split; [|split; [|split]].
  - intros k Hk. rewrite syntheticIds_lookup by done.
    unfold syntheticId. do 3 f_equal. lia.
  - apply Forall_lookup. intros k id Hk.
    assert (k < n) as Hlt
      by (apply lookup_lt_Some in Hk; by rewrite syntheticIds_length in Hk).
    rewrite syntheticIds_lookup in Hk by done. injection Hk as <-.
    apply syntheticId_length.
  - exact Hsorted.
  - by apply string_lt_sorted_NoDup.
Qed.

(** The first three ids of a run. *)
Lemma nextId_ids_increasing_distinct_witness :
  (Z.of_nat 3 <= MAX_EXACT)%Z
  /\ (nextIds 3 clear).1
     = ["ID0000000000000001"; "ID0000000000000002"; "ID0000000000000003"]%string
  /\ StronglySorted string_lt (nextIds 3 clear).1
  /\ NoDup (nextIds 3 clear).1.
Proof.
  assert (Z.of_nat 3 <= MAX_EXACT)%Z as Hn by (vm_compute; discriminate).
  split; [exact Hn|]. split; [reflexivity|].
  exact (proj2 (proj2 (nextId_ids_increasing_distinct 3 Hn))).
Defined.

(** * Further properties *)

(** ** The task chain holds one task for each descriptor *)

Lemma afterPasses_chain_Permutation n objects :
  afterPasses n (createTaskChain objects) ≡ₚ imap taskOf objects.
Proof.
  rewrite afterPasses_Permutation by apply createTaskChain_NoDup.
  apply createTaskChain_Permutation.
Qed.

Lemma afterPasses_chain_NoDup n objects :
  NoDup (taskId <$> afterPasses n (createTaskChain objects)).
Proof.
  rewrite afterPasses_Permutation by apply createTaskChain_NoDup.
  apply createTaskChain_NoDup.
Qed.

(** X1. Whatever the descriptors are, and after any number of runs of the
    fix-up, the task chain holds exactly one task for each descriptor of
    [script.objects], the one [setup] made for it: the [splice] calls lose
    no task and double none. *)
Theorem setup_one_task_per_object : forall (objects : list ScriptObject) (n : nat),
  afterPasses n (createTaskChain objects) ≡ₚ imap taskOf objects
  /\ NoDup (taskId <$> afterPasses n (createTaskChain objects))
  /\ length (afterPasses n (createTaskChain objects)) = length objects.
Proof.
  intros objects n. split; [apply afterPasses_chain_Permutation|].
  split; [apply afterPasses_chain_NoDup|].
  by rewrite afterPasses_chain_Permutation, length_imap.
Qed.

(** ** The index a new object is inserted at *)

(** The downward scan keeps the last index it meets, which is the least. *)
Lemma indexToInsert_scan (ts : list Task) (o : ScriptObject) n lower :
  lower + n = length ts ->
  let r := foldr (fun existedTaskIndex indexToInsert =>
                    match ts !! existedTaskIndex with
                    | Some existedTask =>
                        if someNamed (parentLookupObjects (scriptObject existedTask)) (name o)
                        then existedTaskIndex else indexToInsert
                    | None => indexToInsert
                    end) (length ts) (seq lower n) in
  lower <= r <= length ts
  /\ (forall i t, lower <= i < r -> ts !! i = Some t -> looksUp t o = false)
  /\ (r < length ts -> exists t, ts !! r = Some t /\ looksUp t o = true).
Proof.
  revert lower. induction n as [|n IH]; intros lower Hlen; simpl.
  - split; [lia|]. split; [intros; lia|lia].
  - destruct (IH (S lower)) as (Hr & Hbefore & Hat); [lia|].
    destruct (ts !! lower) as [t|] eqn:Ht.
    + destruct (someNamed _ _) eqn:Hlook.
      * split; [lia|]. split; [intros; lia|]. intros _. by exists t.
      * split; [lia|]. split; [|done].
        intros i t' Hi Hi'. destruct (decide (i = lower)) as [->|Hne].
        -- by simplify_eq.
        -- apply (Hbefore i); [lia|done].
    + apply lookup_ge_None in Ht. lia.
Qed.

Lemma foldl_reverse_foldr {A B} (f : A -> B -> A) (l : list B) (a : A) :
  foldl f a (reverse l) = foldr (fun x acc => f acc x) a l.
Proof.
  induction l as [|x l IH]; [done|].
  by rewrite reverse_cons, foldl_snoc, IH.
Qed.

(** X2. The index the scan of [setup] finds for a new object is the least
    index, from [lowerIndexForAnyObjects] on, of a task that names the
    object among its parent lookups, and the length of the chain when no
    such task is there: the object goes just before the first task that
    looks it up, or to the end. *)
Theorem indexToInsertFor_first_child :
  forall (ts : list Task) (lower : nat) (objectToAdd : ScriptObject),
  lower <= length ts ->
  lower <= indexToInsertFor ts lower objectToAdd <= length ts
  /\ (forall i t, lower <= i < indexToInsertFor ts lower objectToAdd ->
        ts !! i = Some t -> looksUp t objectToAdd = false)
  /\ (indexToInsertFor ts lower objectToAdd < length ts ->
        exists t, ts !! indexToInsertFor ts lower objectToAdd = Some t
                  /\ looksUp t objectToAdd = true).
Proof.
  intros ts lower o Hlower. unfold indexToInsertFor.
  rewrite foldl_reverse_foldr.
  apply (indexToInsert_scan ts o (length ts - lower) lower). lia.
Qed.

(** [A] is added to the chain of [B] and [C], which both look it up: it
    goes where [B] stands. *)
Lemma indexToInsertFor_first_child_witness :
  let ts := createTaskChain [entity "B" false ["A"%string] []; entity "C" false ["A"%string] []] in
  let A := entity "A" false [] [] in
  0 <= length ts
  /\ exists t, ts !! indexToInsertFor ts 0 A = Some t /\ looksUp t A = true.
Proof.
  intros ts A.
  assert (0 <= length ts) as Hlower by (vm_compute; lia).
  split; [exact Hlower|].
  apply (proj2 (proj2 (indexToInsertFor_first_child ts 0 A Hlower))).
  vm_compute. lia.
Defined.

(** ** Where [putBefore] leaves the two tasks *)

(** X3. [putBefore], the two [splice] calls of the fix-up, puts [rightTask]
    at the index [leftTask] had. When [rightTask] stood behind [leftTask]
    it ends just before it; when it stood before [leftTask] already, it
    ends just behind it. *)
Theorem putBefore_position :
  forall (ts : list Task) (i j : nat) (leftTask rightTask : Task),
  NoDup (taskId <$> ts) ->
  ts !! i = Some leftTask -> ts !! j = Some rightTask -> i <> j ->
  putBefore ts leftTask rightTask !! i = Some rightTask
  /\ putBefore ts leftTask rightTask !! (if decide (i < j) then S i else i - 1)
     = Some leftTask.
Proof.
  intros ts i j leftTask rightTask Hnd Hi Hj Hne.
  rewrite (putBefore_lookup ts i j) by done.
  pose proof (lookup_lt_Some _ _ _ Hi) as Hilt.
  pose proof (lookup_lt_Some _ _ _ Hj) as Hjlt.
  assert (length (delete j ts) = length ts - 1) as Hlen
    by (rewrite length_delete; [done|by eexists]).
  assert (length (take i (delete j ts)) = i) as Htake
    by (rewrite length_take; lia).
  split.
  - rewrite lookup_app_r by lia. by rewrite Htake, Nat.sub_diag.
  - destruct (decide (i < j)) as [Hlt|Hge].
    + rewrite lookup_app_r by lia. rewrite Htake.
      replace (S i - i) with 1 by lia. simpl.
      rewrite lookup_drop, Nat.add_0_r, list_lookup_delete_lt by lia. done.
    + rewrite lookup_app_l by lia.
      rewrite lookup_take_lt by lia.
      rewrite list_lookup_delete_ge by lia.
      by replace (S (i - 1)) with i by lia.
Qed.

(** [D] stands behind its master [P]: [putBefore] moves [P] behind [D]. *)
Lemma putBefore_position_witness :
  let ts := createTaskChain [entity "P" false [] []; entity "D" false [] ["P"%string]] in
  sObjectName <$> ts = ["P"; "D"]%string
  /\ sObjectName <$> (putBefore ts (taskOf 1 (entity "D" false [] ["P"%string]))
                                  (taskOf 0 (entity "P" false [] [])))
     = ["D"; "P"]%string
  /\ putBefore ts (taskOf 1 (entity "D" false [] ["P"%string]))
                  (taskOf 0 (entity "P" false [] [])) !! 0
     = Some (taskOf 1 (entity "D" false [] ["P"%string])).
Proof.
  intros ts. split; [reflexivity|]. split; [reflexivity|].
  exact (proj2 (putBefore_position ts 1 0 _ _
           (createTaskChain_NoDup _) eq_refl eq_refl (Nat.neq_succ_0 0))).
Defined.

(** ** A master that stands behind two or more of its details *)

Section DetailsBeforeMaster.
Variable details : list Task.
Variable master : Task.
Hypothesis ids_distinct : NoDup (taskId <$> details ++ [master]).
Hypothesis master_of_each :
  forall d, d ∈ details -> rightIsParentMasterDetailOfLeft d master = true.
Hypothesis no_detail_is_master :
  forall d t, d ∈ details -> t ∈ details -> rightIsParentMasterDetailOfLeft d t = false.

(** The inner loop, for the detail at [leftIndex]: the master alone is
    moved. *)
Lemma rightSteps_details (st : bool * list Task) leftIndex d :
  details !! leftIndex = Some d ->
  foldl (rightStep (details ++ [master]) d) st
        (seq (S leftIndex) (length (details ++ [master]) - S leftIndex))
  = (true, putBefore st.2 d master).
Proof.
  intros Hd. pose proof (lookup_lt_Some _ _ _ Hd) as Hlt.
  rewrite length_app. simpl.
  replace (length details + 1 - S leftIndex)
    with ((length details - S leftIndex) + 1) by lia.
  rewrite seq_app, foldl_app. simpl.
  replace (S (leftIndex + (length details - S leftIndex))) with (length details) by lia.
  assert (foldl (rightStep (details ++ [master]) d) st
            (seq (S leftIndex) (length details - S leftIndex)) = st) as ->.
  { apply (foldl_invariant (fun st' => st' = st)); [done|].
    intros st' rightIndex [Hr1 Hr2]%elem_of_seq ->. unfold rightStep.
    rewrite lookup_app_l by lia.
    destruct (details !! rightIndex) as [t|] eqn:Ht; [|done].
    rewrite no_detail_is_master; [done|by eapply list_elem_of_lookup_2..]. }
  unfold rightStep. rewrite list_lookup_middle by done.
  rewrite master_of_each; [done|by eapply list_elem_of_lookup_2].
Qed.

Lemma NoDup_master_in p :
  NoDup (taskId <$> take p details ++ master :: drop p details).
Proof.
  assert (take p details ++ master :: drop p details ≡ₚ details ++ [master]) as ->;
    [|exact ids_distinct].
  rewrite <- Permutation_middle, take_drop. apply Permutation_cons_append.
Qed.

(** With the master at position [p], the detail at [leftIndex >= p] is one
    further; [putBefore] takes the master out and puts it back there. *)
Lemma putBefore_master_in p leftIndex d :
  p <= leftIndex -> details !! leftIndex = Some d ->
  putBefore (take p details ++ master :: drop p details) d master
  = take (S leftIndex) details ++ master :: drop (S leftIndex) details.
Proof.
  intros Hp Hd. pose proof (lookup_lt_Some _ _ _ Hd) as Hlt.
  assert (length (take p details) = p) as Hlen by (rewrite length_take; lia).
  rewrite (putBefore_lookup _ (S leftIndex) p).
  - assert (delete p (take p details ++ master :: drop p details) = details) as ->; [|done].
    rewrite <- Hlen at 1. by rewrite delete_middle, take_drop.
  - apply NoDup_master_in.
  - rewrite lookup_app_r by lia. rewrite Hlen.
    replace (S leftIndex - p) with (S (leftIndex - p)) by lia. simpl.
    rewrite lookup_drop. by replace (p + (leftIndex - p)) with leftIndex by lia.
  - rewrite <- Hlen at 1. by rewrite list_lookup_middle.
Qed.

(** The state of the outer loop after its first [i] steps. *)
Lemma leftSteps_details i :
  i <= length details ->
  foldl (leftStep (details ++ [master])) (false, details ++ [master]) (seq 0 i)
  = match i with
    | 0 => (false, details ++ [master])
    | 1 => (true, master :: details)
    | _ => (true, take i details ++ master :: drop i details)
    end.
Proof.
  induction i as [|i IH]; intros Hi; [done|].
  rewrite seq_S, foldl_app, IH by lia. simpl.
  destruct (lookup_lt_is_Some_2 details i) as [d Hd]; [lia|].
  unfold leftStep. rewrite lookup_app_l, Hd by lia.
  rewrite rightSteps_details by done.
  destruct i as [|[|i]]; simpl.
  - f_equal. rewrite (putBefore_lookup _ 0 (length details)).
    + by rewrite delete_middle, app_nil_r.
    + exact ids_distinct.
    + by rewrite lookup_app_l, Hd by lia.
    + by rewrite list_lookup_middle.
  - f_equal. apply (putBefore_master_in 0 1 d); [lia|done].
  - f_equal. apply (putBefore_master_in (S (S i)) (S (S i)) d); [lia|done].
Qed.

(** X4. A master that stands last, behind two or more of its details, is
    never put before them: one run of the fix-up moves it before the first
    detail and then behind each of the others in turn, so the run reports a
    swap and leaves the chain as it was. The chain is the same after any
    number of runs, and the loop ends, after the tenth run, with the
    master still last. *)
Theorem putMasterDetailsBefore_master_stays_behind :
  2 <= length details ->
  ___putMasterDetailsBefore (details ++ [master]) = (true, details ++ [master])
  /\ (forall n, afterPasses n (details ++ [master]) = details ++ [master])
  /\ (forall fuel, 11 <= fuel ->
        putMasterDetailsLoop fuel 0 true (details ++ [master])
        = Some (details ++ [master])).
Proof.
  intros Hlen.
  assert (___putMasterDetailsBefore (details ++ [master])
          = (true, details ++ [master])) as Hpass.
  { unfold ___putMasterDetailsBefore. rewrite length_app. simpl.
    replace (length details + 1 - 1) with (length details) by lia.
    rewrite leftSteps_details by done.
    destruct (length details) as [|[|k]] eqn:Hk; [lia..|].
    rewrite <- Hk. by rewrite take_ge, drop_ge by lia. }
  assert (forall n, afterPasses n (details ++ [master]) = details ++ [master]) as Hn.
  { induction n as [|n IH]; [done|]. simpl. by rewrite Hpass. }
  split; [exact Hpass|]. split; [exact Hn|].
  intros fuel Hfuel. rewrite putMasterDetailsLoop_result.
  destruct (Nat.leb_spec 11 fuel); [|lia].
  rewrite (swappedAfter_S 9), !Hn, Hpass. reflexivity.
Qed.
End DetailsBeforeMaster.

(** Two details [D1] and [D2] of [P], supplied before it and not looking it
    up: [setup] leaves the loop with the master last. *)
Lemma putMasterDetailsBefore_master_stays_behind_witness :
  let objects := [ entity "D1" false [] ["P"%string];
                   entity "D2" false [] ["P"%string];
                   entity "P" false [] [] ] in
  sObjectName <$> createTaskChain objects = ["D1"; "D2"; "P"]%string
  /\ putMasterDetailsLoop 11 0 true (createTaskChain objects)
     = Some (createTaskChain objects).
Proof.
  intros objects. split; [reflexivity|].
  refine (proj2 (proj2 (putMasterDetailsBefore_master_stays_behind
            [taskOf 0 (entity "D1" false [] ["P"%string]);
             taskOf 1 (entity "D2" false [] ["P"%string])]
            (taskOf 2 (entity "P" false [] [])) _ _ _ _)) 11 _).
  - apply (createTaskChain_NoDup objects).
  - apply Forall_forall. repeat constructor.
  - intros d t Hd. revert t. apply Forall_forall. revert d Hd. apply Forall_forall.
    repeat constructor.
  - simpl. lia.
  - lia.
Defined.

(** ** When [setup] returns *)

(** X5. When [setup] returns, the loop has made exactly ten runs of the
    fix-up, the tenth run made a swap, and the chain holds two tasks of
    which one names the other among its master-detail parents. *)
Theorem setup_returns_after_ten_passes :
  forall (fuel : nat) (objects : list ScriptObject) (ts queryTasks : list Task),
  setup fuel objects = Some (ts, queryTasks) ->
  11 <= fuel
  /\ ts = afterPasses 10 (createTaskChain objects)
  /\ queryTasks = createQueryTasks ts
  /\ (___putMasterDetailsBefore (afterPasses 9 (createTaskChain objects))).1 = true
  /\ exists leftTask rightTask,
       leftTask ∈ ts /\ rightTask ∈ ts
       /\ rightIsParentMasterDetailOfLeft leftTask rightTask = true.
Proof.
  intros fuel objects ts queryTasks. rewrite setup_result.
  destruct (Nat.leb_spec 11 fuel) as [Hfuel|]; [|done].
  rewrite andb_true_l.
  destruct (swappedAfter 10 true (createTaskChain objects)) eqn:Hsw; [|done].
  intros Heq.
  assert (ts = afterPasses 10 (createTaskChain objects)) as Hts by congruence.
  assert (queryTasks = createQueryTasks ts) as Hq by congruence.
  rewrite swappedAfter_S in Hsw.
  repeat split; [done..|].
  set (prev := afterPasses 9 (createTaskChain objects)) in *.
  assert (exists leftTask rightTask, leftTask ∈ prev /\ rightTask ∈ prev
            /\ rightIsParentMasterDetailOfLeft leftTask rightTask = true)
    as (l & r & Hl & Hr & Hlr).
  { destruct (decide (Exists (fun l => Exists (fun r =>
                 rightIsParentMasterDetailOfLeft l r = true) prev) prev)) as [Hex|Hno].
    - apply Exists_exists in Hex as (l & Hl & Hex).
      apply Exists_exists in Hex as (r & Hr & Hlr). by exists l, r.
    - exfalso. revert Hsw. cut ((___putMasterDetailsBefore prev).1 = false).
      { intros ->. done. }
      unfold ___putMasterDetailsBefore.
      apply (foldl_invariant (fun st => st.1 = false)); [done|].
      intros st leftIndex _ IH. unfold leftStep.
      destruct (prev !! leftIndex) as [leftTask|] eqn:Hleft; [|done].
      apply (foldl_invariant (fun st => st.1 = false)); [done|].
      intros st' rightIndex _ IH'. unfold rightStep.
      destruct (prev !! rightIndex) as [rightTask|] eqn:Hright; [|done].
      destruct (rightIsParentMasterDetailOfLeft leftTask rightTask) eqn:Hlr; [|done].
      exfalso. apply Hno. apply Exists_exists. exists leftTask.
      split; [by eapply list_elem_of_lookup_2|].
      apply Exists_exists. exists rightTask.
      split; [by eapply list_elem_of_lookup_2|done]. }
  assert (ts ≡ₚ prev) as Hperm.
  { rewrite Hts. unfold prev.
    by rewrite !afterPasses_Permutation by apply createTaskChain_NoDup. }
  exists l, r. by rewrite !Hperm.
Qed.

Lemma setup_returns_after_ten_passes_witness :
  exists ts queryTasks,
    setup 11 descriptorsZones = Some (ts, queryTasks)
    /\ ts = afterPasses 10 (createTaskChain descriptorsZones).
Proof.
  eexists _, _. split; [vm_compute; reflexivity|].
  refine (proj1 (proj2 (setup_returns_after_ten_passes 11 descriptorsZones _ _ _))).
  vm_compute. reflexivity.
Defined.

(** ** What [setup] leaves in [processAllSource] and [processAllTarget] *)

Lemma processAllTarget_setProcessAll o :
  processAllTarget (setProcessAll o)
  = allRecords o || isSpecialObject o || isObjectWithoutRelationships o
    || hasComplexExternalId o || hasAutonumberExternalId o.
Proof.
  unfold setProcessAll.
  by destruct (allRecords o || isSpecialObject o || isObjectWithoutRelationships o).
Qed.

(** X6. For every task of the chain, [sourceData.allRecords] is
    [allRecords || isSpecialObject || isObjectWithoutRelationships] of its
    descriptor, and [targetData.allRecords] is that or
    [hasComplexExternalId || hasAutonumberExternalId]: what the descriptor
    held in [processAllSource] and [processAllTarget] before [setup] does
    not count, and a task that reads all source records reads all target
    records too. *)
Theorem setup_allRecords_flags : forall (objects : list ScriptObject) (n : nat),
  Forall (fun t =>
            exists o, objects !! taskId t = Some o
              /\ sourceData_allRecords t
                 = allRecords o || isSpecialObject o || isObjectWithoutRelationships o
              /\ targetData_allRecords t
                 = sourceData_allRecords t
                   || hasComplexExternalId o || hasAutonumberExternalId o)
         (afterPasses n (createTaskChain objects)).
Proof.
  intros objects n. apply Forall_forall. intros t.
  rewrite afterPasses_chain_Permutation.
  intros (i & o & -> & Ho)%elem_of_lookup_imap_1.
  exists o. unfold sourceData_allRecords, targetData_allRecords, taskOf. simpl.
  rewrite processAllSource_setProcessAll, processAllTarget_setProcessAll.
  done.
Qed.

(** ** Finding a task by the name of its object *)

Lemma getTaskBySObjectName_NoDup (ts : list Task) (t : Task) :
  NoDup (sObjectName <$> ts) -> t ∈ ts ->
  getTaskBySObjectName ts (sObjectName t) = Some t.
Proof.
  unfold getTaskBySObjectName.
  induction ts as [|x ts IH]; intros Hnd Ht; [by apply elem_of_nil in Ht|].
  rewrite fmap_cons in Hnd. apply NoDup_cons in Hnd as [Hnotin Hnd].
  destruct (decide (sObjectName x = sObjectName t)) as [Heq|Hne].
  - rewrite filter_cons_True by done. simpl.
    apply elem_of_cons in Ht as [->|Ht]; [done|].
    exfalso. apply Hnotin. rewrite Heq. by apply list_elem_of_fmap_2.
  - rewrite filter_cons_False by done.
    apply elem_of_cons in Ht as [->|Ht]; [done|]. by apply IH.
Qed.

Lemma getTaskBySObjectName_absent (ts : list Task) (n : string) :
  n ∉ sObjectName <$> ts -> getTaskBySObjectName ts n = None.
Proof.
  unfold getTaskBySObjectName. induction ts as [|x ts IH]; intros Hn; [done|].
  rewrite fmap_cons in Hn. apply not_elem_of_cons in Hn as [Hne Hn].
  rewrite filter_cons_False by done. by apply IH.
Qed.

Lemma chain_names n objects :
  sObjectName <$> afterPasses n (createTaskChain objects) ≡ₚ name <$> objects.
Proof.
  rewrite afterPasses_chain_Permutation, fmap_imap.
  rewrite (imap_ext _ (const name)); [by rewrite imap_const|].
  intros i o _. apply name_setProcessAll.
Qed.

(** X7. When the descriptors have distinct names, [getTaskBySObjectName]
    answers, for the name of a descriptor, the task [setup] made for it,
    and [undefined] for a name that no descriptor has. *)
Theorem getTaskBySObjectName_of_setup :
  forall (objects : list ScriptObject) (n : nat),
  NoDup (name <$> objects) ->
  (forall i o, objects !! i = Some o ->
     getTaskBySObjectName (afterPasses n (createTaskChain objects)) (name o)
     = Some (taskOf i o))
  /\ (forall sObjectName',
        sObjectName' ∉ name <$> objects ->
        getTaskBySObjectName (afterPasses n (createTaskChain objects)) sObjectName' = None).
Proof.
  intros objects n Hnd. split.
  - intros i o Ho.
    assert (name o = sObjectName (taskOf i o)) as ->
      by (unfold sObjectName; simpl; by rewrite name_setProcessAll).
    apply getTaskBySObjectName_NoDup.
    + by rewrite chain_names.
    + rewrite afterPasses_chain_Permutation.
      by apply elem_of_lookup_imap_2.
  - intros n' Hn'. apply getTaskBySObjectName_absent. by rewrite chain_names.
Qed.

Lemma getTaskBySObjectName_of_setup_witness :
  NoDup (name <$> descriptorsZones)
  /\ getTaskBySObjectName (afterPasses 10 (createTaskChain descriptorsZones)) "Y"
     = Some (taskOf 2 (entity "Y" false ["X"%string] ["X"%string]))
  /\ getTaskBySObjectName (afterPasses 10 (createTaskChain descriptorsZones)) "Z" = None.
Proof.
  assert (NoDup (name <$> descriptorsZones)) as Hnd
    by (apply (bool_decide_unpack _); by vm_compute).
  split; [exact Hnd|]. split.
  - exact (proj1 (getTaskBySObjectName_of_setup descriptorsZones 10 Hnd) 2 _ eq_refl).
  - apply (proj2 (getTaskBySObjectName_of_setup descriptorsZones 10 Hnd)).
    apply (bool_decide_unpack _). by vm_compute.
Defined.

(** ** The tasks before and after a task *)

Lemma filter_all {A} (P : A -> Prop) `{forall x, Decision (P x)} (l : list A) :
  Forall P l -> filter P l = l.
Proof.
  induction 1 as [|x l Hx Hl IH]; [done|].
  by rewrite filter_cons_True, IH.
Qed.

Lemma filter_none {A} (P : A -> Prop) `{forall x, Decision (P x)} (l : list A) :
  Forall (fun x => ~ P x) l -> filter P l = [].
Proof.
  induction 1 as [|x l Hx Hl IH]; [done|].
  by rewrite filter_cons_False.
Qed.

Lemma indexOf_absent (ts : list Task) (t : Task) :
  taskId t ∉ taskId <$> ts -> indexOf sameTask ts t = (-1)%Z.
Proof.
  unfold indexOf. generalize 0%Z.
  induction ts as [|x ts IH]; intros k Ht; [done|]. simpl.
  rewrite fmap_cons in Ht. apply not_elem_of_cons in Ht as [Hne Ht].
  destruct (sameTask x t) eqn:Hsame; [|by apply IH].
  apply sameTask_true in Hsame. congruence.
Qed.

Lemma filter_before {A} (P : A -> Prop) `{forall x, Decision (P x)} (l : list A) i :
  (forall j x, l !! j = Some x -> P x <-> j < i) -> filter P l = take i l.
Proof.
  intros HP. rewrite <- (take_drop i l) at 1. rewrite filter_app.
  rewrite filter_all, filter_none; [by rewrite app_nil_r|..].
  - apply Forall_lookup. intros j x Hj. rewrite lookup_drop in Hj.
    rewrite (HP _ _ Hj). lia.
  - apply Forall_lookup. intros j x Hj. apply lookup_take_Some in Hj as [Hj Hji].
    by rewrite (HP _ _ Hj).
Qed.

Lemma filter_from {A} (P : A -> Prop) `{forall x, Decision (P x)} (l : list A) i :
  (forall j x, l !! j = Some x -> P x <-> i <= j) -> filter P l = drop i l.
Proof.
  intros HP. rewrite <- (take_drop i l) at 1. rewrite filter_app.
  rewrite filter_none, filter_all; [done|..].
  - apply Forall_lookup. intros j x Hj. rewrite lookup_drop in Hj.
    rewrite (HP _ _ Hj). lia.
  - apply Forall_lookup. intros j x Hj. apply lookup_take_Some in Hj as [Hj Hji].
    rewrite (HP _ _ Hj). lia.
Qed.

(** X8. In a chain of distinct tasks, [prevTasks] of the task at index [i]
    is the tasks before it and [nextTasks] the tasks after it, in chain
    order: the chain is [prevTasks], the task, [nextTasks]. For a task that
    is not in the chain [indexOf] answers [-1]: it has no [prevTasks], and
    every task of the chain is among its [nextTasks]. *)
Theorem prevTasks_nextTasks_split : forall (jobTasks : list Task),
  NoDup (taskId <$> jobTasks) ->
  (forall i task, jobTasks !! i = Some task ->
     prevTasks jobTasks task = take i jobTasks
     /\ nextTasks jobTasks task = drop (S i) jobTasks
     /\ jobTasks = prevTasks jobTasks task ++ task :: nextTasks jobTasks task)
  /\ (forall task, taskId task ∉ taskId <$> jobTasks ->
        prevTasks jobTasks task = [] /\ nextTasks jobTasks task = jobTasks).
Proof.
  intros ts Hnd. split.
  - intros i t Hi.
    assert (prevTasks ts t = take i ts) as Hprev.
    { apply filter_before. intros j x Hj.
      rewrite (indexOf_lookup ts i t), (indexOf_lookup ts j x) by done. lia. }
    assert (nextTasks ts t = drop (S i) ts) as Hnext.
    { apply filter_from. intros j x Hj.
      rewrite (indexOf_lookup ts i t), (indexOf_lookup ts j x) by done. lia. }
    split; [done|]. split; [done|].
    rewrite Hprev, Hnext. symmetry. by apply take_drop_middle.
  - intros t Ht. split.
    + change (prevTasks ts t = take 0 ts). apply filter_before. intros j x Hj.
      rewrite (indexOf_absent ts t), (indexOf_lookup ts j x) by done. lia.
    + change (nextTasks ts t = drop 0 ts). apply filter_from. intros j x Hj.
      rewrite (indexOf_absent ts t), (indexOf_lookup ts j x) by done. lia.
Qed.

Lemma prevTasks_nextTasks_split_witness :
  let ts := createTaskChain descriptorsZones in
  let Y := taskOf 2 (entity "Y" false ["X"%string] ["X"%string]) in
  NoDup (taskId <$> ts)
  /\ sObjectName <$> ts = ["RecordType"; "R"; "Y"; "X"]%string
  /\ sObjectName <$> prevTasks ts Y = ["RecordType"; "R"]%string
  /\ prevTasks ts Y = take 2 ts.
Proof.
  intros ts Y.
  assert (NoDup (taskId <$> ts)) as Hnd by apply createTaskChain_NoDup.
  assert (ts !! 2 = Some Y) as HY by (vm_compute; reflexivity).
  split; [exact Hnd|]. split; [vm_compute; reflexivity|].
  split; [vm_compute; reflexivity|].
  exact (proj1 (proj1 (prevTasks_nextTasks_split ts Hnd) 2 Y HY)).
Defined.

(** ** The loops over the task chain *)

Section TaskLoopsFacts.
Context {World : Type}.
Variable task_getTotalRecordsCountAsync : Task -> World -> World.
Variable task_deleteOldTargetRecords : Task -> World -> bool * World.
Variable deletes : Task -> bool.
Hypothesis deletes_answer :
  forall task w, (task_deleteOldTargetRecords task w).1 = deletes task.

Lemma deleteLoop_trace (l : list Task) (acc : bool * @JobRun World) :
  let r := foldl (fun (acc : bool * JobRun) task =>
                    let r := task_deleteOldTargetRecords task (jobWorld acc.2) in
                    (r.1 || acc.1,
                     mkJobRun r.2 (jobTrace acc.2 ++ [DeletedOldRecords task])))
                 acc l in
  jobTrace r.2 = jobTrace acc.2 ++ (DeletedOldRecords <$> l)
  /\ r.1 = existsb deletes l || acc.1.
Proof.
  revert acc. induction l as [|task l IH]; intros acc; simpl.
  - by rewrite app_nil_r.
  - destruct (IH ((task_deleteOldTargetRecords task (jobWorld acc.2)).1 || acc.1,
                  mkJobRun (task_deleteOldTargetRecords task (jobWorld acc.2)).2
                           (jobTrace acc.2 ++ [DeletedOldRecords task]))) as [Htr Hb].
    simpl in *. rewrite Htr, Hb, deletes_answer, <- app_assoc. split; [done|].
    destruct (deletes task), (existsb deletes l), acc.1; done.
Qed.

Lemma countLoop_trace (l : list Task) (st : @JobRun World) :
  jobTrace (foldl (fun st task =>
                     mkJobRun (task_getTotalRecordsCountAsync task (jobWorld st))
                              (jobTrace st ++ [CountedRecords task])) st l)
  = jobTrace st ++ (CountedRecords <$> l).
Proof.
  revert st. induction l as [|task l IH]; intros st; simpl.
  - by rewrite app_nil_r.
  - rewrite IH. simpl. by rewrite <- app_assoc.
Qed.

Lemma taskCalls_counted (l : list Task) : taskCalls (CountedRecords <$> l) = l.
Proof. induction l as [|x l IH]; [done|]. unfold taskCalls in *. csimpl. by rewrite IH. Qed.

Lemma taskCalls_deleted (l : list Task) : taskCalls (DeletedOldRecords <$> l) = l.
Proof. induction l as [|x l IH]; [done|]. unfold taskCalls in *. csimpl. by rewrite IH. Qed.

Lemma jobMessages_deleted (l : list Task) : jobMessages (DeletedOldRecords <$> l) = [].
Proof. induction l as [|x l IH]; [done|]. unfold jobMessages in *. csimpl. by rewrite IH. Qed.

Lemma taskCalls_app tr1 tr2 : taskCalls (tr1 ++ tr2) = taskCalls tr1 ++ taskCalls tr2.
Proof. apply omap_app. Qed.

Lemma jobMessages_app tr1 tr2 : jobMessages (tr1 ++ tr2) = jobMessages tr1 ++ jobMessages tr2.
Proof. apply omap_app. Qed.

Lemma existsb_reverse {A} (f : A -> bool) (l : list A) :
  existsb f (reverse l) = existsb f l.
Proof.
  induction l as [|x l IH]; [done|].
  rewrite reverse_cons, existsb_app, IH. simpl.
  by destruct (f x), (existsb f l).
Qed.

(** X9. [getTotalRecordsCount] calls every task once, in chain order;
    [deleteOldRecords] calls every task once, the last of the chain first,
    also after a task has answered that it deleted records; it then logs
    [deletingOldDataCompleted] when some task deleted records and
    [deletingOldDataSkipped] when none did. *)
Theorem deleteOldRecords_reverse_order : forall (ts : list Task) (w : World),
  taskCalls (jobTrace (getTotalRecordsCount task_getTotalRecordsCountAsync ts
                         (mkJobRun w []))) = ts
  /\ taskCalls (jobTrace (deleteOldRecords task_deleteOldTargetRecords ts
                            (mkJobRun w []))) = reverse ts
  /\ jobMessages (jobTrace (deleteOldRecords task_deleteOldTargetRecords ts
                              (mkJobRun w [])))
     = [inl newLine; inr deletingOldData;
        inr (if existsb deletes ts then deletingOldDataCompleted
             else deletingOldDataSkipped)].
Proof.
  intros ts w. split.
  { unfold getTotalRecordsCount. rewrite countLoop_trace, taskCalls_app. simpl.
    apply taskCalls_counted. }
  unfold deleteOldRecords. cbv zeta.
  match goal with |- context [foldl ?f ?a ?l] =>
    destruct (deleteLoop_trace l a) as [Htr Hb] end.
  cbv zeta in Htr, Hb.
  destruct (foldl _ _ _) as [b st] eqn:Hfold.
  cbn [fst snd jobTrace jlog] in Htr, Hb |- *.
  rewrite orb_false_r, existsb_reverse in Hb. rewrite <- Hb.
  split.
  - destruct b; unfold jlog; cbn [jobTrace];
      rewrite Htr, !taskCalls_app, taskCalls_deleted; simpl; by rewrite app_nil_r.
  - destruct b; unfold jlog; cbn [jobTrace];
      by rewrite Htr, !jobMessages_app, jobMessages_deleted.
Qed.
End TaskLoopsFacts.

(** [getTotalRecordsCount] and [deleteOldRecords] on the chain [C], [A],
    [B], where [A] alone has old records to delete. *)
Lemma deleteOldRecords_reverse_order_witness :
  let ts := createTaskChain (descriptorsCAB false) in
  let deleteOldTargetRecords :=
    fun (task : Task) (w : unit) => (String.eqb (sObjectName task) "A", w) in
  sObjectName <$> taskCalls (jobTrace (deleteOldRecords deleteOldTargetRecords ts
                                         (mkJobRun tt [])))
  = ["B"; "A"; "C"]%string
  /\ jobMessages (jobTrace (deleteOldRecords deleteOldTargetRecords ts (mkJobRun tt [])))
     = [inl newLine; inr deletingOldData; inr deletingOldDataCompleted].
Proof.
  intros ts deleteOldTargetRecords.
  pose proof (deleteOldRecords_reverse_order (fun _ w => w) deleteOldTargetRecords
                (fun task => String.eqb (sObjectName task) "A")
                (fun _ _ => eq_refl) ts tt) as (_ & Hcalls & Hlog).
  split; [by rewrite Hcalls|exact Hlog].
Defined.

(** ** The calls of [task.updateRecords] *)

Section UpdateCallsFacts.
Variable task_updateRecords : Task -> QueryMode -> list ProcessedData * nat.
Variable userContinues : string -> nat -> bool.
Variable targetOrgMedia : DATA_MEDIA_TYPE.

Lemma updateCalls_app tr1 tr2 :
  updateCalls (tr1 ++ tr2) = updateCalls tr1 ++ updateCalls tr2.
Proof. apply omap_app. Qed.

Lemma makesCalls_bind (m1 m2 : Job Update unit) calls1 calls2 :
  makesCalls m1 calls1 -> makesCalls m2 calls2 -> makesCalls (m1 ;; m2) (calls1 ++ calls2).
Proof.
  intros H1 H2 s. specialize (H1 s).
  unfold mbind, job_bind, jbind. destruct (m1 s) as [[[]|] s1]; simpl in *.
  - specialize (H2 s1). destruct (m2 s1) as [[[]|] s2]; simpl in *.
    + by rewrite H2, H1, app_assoc.
    + destruct H2 as [k Hk]. exists (length calls1 + k).
      by rewrite Hk, H1, take_app_add, app_assoc.
  - destruct H1 as [k Hk]. exists (k `min` length calls1).
    rewrite Hk. f_equal. rewrite take_app_le by lia.
    destruct (Nat.le_gt_cases k (length calls1)).
    + by rewrite Nat.min_l.
    + rewrite Nat.min_r by lia. by rewrite !take_ge by lia.
Qed.

Lemma makesCalls_bind_get (k : Update -> Job Update unit) calls :
  (forall s0, makesCalls (k s0) calls) -> makesCalls (s ← jget; k s) calls.
Proof. intros Hk s. apply (Hk s s). Qed.

Lemma makesCalls_emit e :
  makesCalls (emit e) (match e with
                       | Updated task updateMode => [(task, updateMode)]
                       | _ => []
                       end).
Proof. intros s. unfold emit, jmodify. simpl. rewrite updateCalls_app. by destruct e. Qed.

Lemma makesCalls_quiet (f : Update -> Update) :
  (forall s, updateTrace (f s) = updateTrace s) -> makesCalls (jmodify f) [].
Proof. intros Hf s. unfold jmodify. simpl. by rewrite Hf, app_nil_r. Qed.

Lemma makesCalls_jret : makesCalls (jret tt) [].
Proof. intros s. simpl. by rewrite app_nil_r. Qed.

Lemma makesCalls_jthrow : makesCalls jthrow [].
Proof. intros s. simpl. exists 0. by rewrite app_nil_r. Qed.

Lemma makesCalls_logged method message : makesCalls (emit (ULogged method message)) [].
Proof. apply (makesCalls_emit (ULogged method message)). Qed.

Lemma makesCalls_saveCSVFileAsync fileName data :
  makesCalls (saveCSVFileAsync fileName data) [].
Proof.
  unfold saveCSVFileAsync.
  apply (makesCalls_bind _ _ [] []); [apply makesCalls_logged|].
  apply (makesCalls_emit (SavedCSVFile fileName data)).
Qed.

Lemma makesCalls_warnUserCallback task data :
  makesCalls (warnUserCallback userContinues task data) [].
Proof.
  unfold warnUserCallback.
  apply (makesCalls_bind _ _ [] []); [by apply makesCalls_quiet|].
  apply makesCalls_bind_get. intros s0.
  destruct (noAbortPrompt s0).
  - apply (makesCalls_emit (Warned _ _)).
  - apply (makesCalls_bind _ _ [] []); [|by apply makesCalls_quiet].
    unfold ___promptToAbort, abortWithPrompt.
    apply (makesCalls_bind _ _ [] []); [apply (makesCalls_emit (PromptedToAbort _ _))|].
    destruct (userContinues _ _); [apply makesCalls_jret|].
    apply (makesCalls_bind _ _ [] []); [|apply makesCalls_jthrow].
    apply makesCalls_bind_get. intros s1. apply makesCalls_saveCSVFileAsync.
Qed.

Lemma makesCalls_callbacks task (datas : list ProcessedData) :
  makesCalls (jforEach datas (warnUserCallback userContinues task)) [].
Proof.
  induction datas as [|data datas IH]; simpl; [apply makesCalls_jret|].
  apply (makesCalls_bind _ _ [] []); [apply makesCalls_warnUserCallback|done].
Qed.

Lemma makesCalls_updateTask updateMode task :
  makesCalls (updateTask task_updateRecords userContinues updateMode task)
             [(task, updateMode)].
Proof.
  unfold updateTask. cbv zeta.
  apply (makesCalls_bind _ _ [_] []); [apply (makesCalls_emit (Updated _ _))|].
  apply (makesCalls_bind _ _ [] []); [apply makesCalls_callbacks|].
  apply (makesCalls_bind _ _ [] []); [|by apply makesCalls_quiet].
  destruct (0 <? _); [apply makesCalls_logged|apply makesCalls_jret].
Qed.

Lemma makesCalls_pass updateMode (ts : list Task) :
  makesCalls (jforEach ts (updateTask task_updateRecords userContinues updateMode))
             (callsOfUpdatePass ts updateMode).
Proof.
  induction ts as [|task ts IH]; simpl; [apply makesCalls_jret|].
  apply (makesCalls_bind _ _ [_]); [apply makesCalls_updateTask|done].
Qed.

Lemma makesCalls_logTotal : makesCalls logTotal [].
Proof.
  unfold logTotal. apply makesCalls_bind_get. intros s0.
  destruct (0 <? _); apply makesCalls_logged.
Qed.

(** X10. The calls of [task.updateRecords] of a run that returns are the
    forward pass over the chain, in chain order, and then, when the target
    is an org, the backward pass over the chain in the same order; with a
    file target there is no backward call. A run that a prompt aborts has
    made a first part of these calls. *)
Theorem updateRecords_calls : forall (ts : list Task),
  let run := updateRecords task_updateRecords userContinues targetOrgMedia ts updateStart in
  let calls := callsOfUpdatePass ts forwards
               ++ match targetOrgMedia with
                  | Org => callsOfUpdatePass ts backwards
                  | File => []
                  end in
  match run.1 with
  | Some _ => updateCalls (updateTrace run.2) = calls
  | None => exists k, updateCalls (updateTrace run.2) = take k calls
  end.
Proof.
  intros ts. cbv zeta.
  assert (makesCalls (updateRecords task_updateRecords userContinues targetOrgMedia ts)
            (callsOfUpdatePass ts forwards
             ++ match targetOrgMedia with
                | Org => callsOfUpdatePass ts backwards
                | File => []
                end)) as Hrun.
  { unfold updateRecords, updatePasses.
    rewrite <- (app_nil_r (_ ++ _)).
    apply makesCalls_bind;
      [|apply makesCalls_bind_get; intros s0; apply makesCalls_saveCSVFileAsync].
    do 2 (apply (makesCalls_bind _ _ []); [apply makesCalls_logged|]).
    apply makesCalls_bind; [apply makesCalls_pass|].
    apply (makesCalls_bind _ _ []); [apply makesCalls_logTotal|].
    do 2 (apply (makesCalls_bind _ _ []); [apply makesCalls_logged|]).
    apply (makesCalls_bind _ _ []); [by apply makesCalls_quiet|].
    rewrite <- (app_nil_r (match targetOrgMedia with Org => _ | File => _ end)).
    apply makesCalls_bind.
    - destruct targetOrgMedia; [apply makesCalls_pass|apply makesCalls_jret].
    - apply (makesCalls_bind _ _ [] []); [apply makesCalls_logTotal|apply makesCalls_logged]. }
  exact (Hrun updateStart).
Qed.
End UpdateCallsFacts.

(** ** The value mapping table *)

Lemma jsmap_get_set {K V} `{EqDecision K} (m : JsMap K V) (k k' : K) (v : V) :
  jsmap_get (jsmap_set m k v) k' = if decide (k = k') then Some v else jsmap_get m k'.
Proof.
  induction m as [|[k0 v0] m IH]; simpl.
  - by destruct (decide (k = k')).
  - destruct (decide (k0 = k)) as [->|Hne]; simpl.
    + by destruct (decide (k = k')).
    + destruct (decide (k0 = k')) as [->|Hne']; [|done].
      by destruct (decide (k = k')) as [->|].
Qed.

Section LoadCSVValueMappingFacts.
Variable trim : string -> string.

(** Whether a row gives the value for [rawValue] under [key]. *)
Lemma mappedValue_loadValueMappingRow m row key rawValue :
  mappedValue (loadValueMappingRow trim m row) key rawValue
  = if isValueMappingRow row
       && bool_decide (valueMappingKey trim row = key)
       && bool_decide (valueMappingRawValue trim row = rawValue)
    then Some (valueMappingValue trim row)
    else mappedValue m key rawValue.
Proof.
  unfold loadValueMappingRow, mappedValue, jsmap_has.
  destruct (isValueMappingRow row); [|done]. cbv zeta. rewrite andb_true_l.
  destruct (jsmap_get m (valueMappingKey trim row)) as [values|] eqn:Hget; simpl.
  - rewrite Hget, jsmap_get_set.
    case_bool_decide as Hkey.
    + subst key. rewrite decide_True by done. rewrite Hget. simpl.
      rewrite jsmap_get_set. case_bool_decide as Hraw.
      * by rewrite decide_True.
      * by rewrite decide_False.
    + by rewrite decide_False.
  - rewrite jsmap_get_set, decide_True by done. rewrite jsmap_get_set.
    case_bool_decide as Hkey.
    + subst key. rewrite decide_True by done. rewrite Hget. simpl.
      case_bool_decide as Hraw.
      * by rewrite decide_True.
      * by rewrite decide_False.
    + rewrite decide_False by done. by rewrite jsmap_get_set, decide_False.
Qed.

(** X11. The value mapping table after [_loadCSVValueMappingFileAsync]
    gives, for a key and a raw value, the value of the last row of the file
    that has both [ObjectName] and [FieldName] and whose trimmed names and
    raw value are these; with no such row it gives what it gave before. The
    key is the two trimmed names one after the other. *)
Theorem loadCSVValueMapping_last_row_wins :
  forall (csvRows : list RawCsvRow) (csvValuesMapping : JsMap string (JsMap string string))
         (key rawValue : string),
  mappedValue (loadCSVValueMapping trim csvRows csvValuesMapping) key rawValue
  = match List.find (fun row => isValueMappingRow row
                                && bool_decide (valueMappingKey trim row = key)
                                && bool_decide (valueMappingRawValue trim row = rawValue))
                    (reverse csvRows) with
    | Some row => Some (valueMappingValue trim row)
    | None => mappedValue csvValuesMapping key rawValue
    end.
Proof.
  intros csvRows m key rawValue. unfold loadCSVValueMapping.
  induction csvRows as [|row csvRows IH] using rev_ind; [done|].
  rewrite foldl_snoc, reverse_snoc, mappedValue_loadValueMappingRow. simpl.
  destruct (_ && _); [done|exact IH].
Qed.
End LoadCSVValueMappingFacts.

(** ** The validation and the repair of the csv files *)

Ltac run_csv :=
  unfold saveIssuesCSVFileAsync, flushCachedCsvDataFiles, clearCachedCSVData,
    setCache, addIssues, cemit, mbind, mret, run_bind, run_ret, rbind, rmodify,
    rget, rret, rthrow;
  simpl.

Ltac run_csv_steps :=
  unfold saveIssuesCSVFileAsync, flushCachedCsvDataFiles, clearCachedCSVData,
    setCache, addIssues, cemit, mbind, mret, run_bind, run_ret, rbind, rmodify,
    rget, rret, rthrow;
  cbn [fst snd csvIssues cachedCSVContent csvValuesMapping csvDisk csvTrace negb].

Lemma issuePrompts_app tr1 tr2 : issuePrompts (tr1 ++ tr2) = issuePrompts tr1 ++ issuePrompts tr2.
Proof. apply omap_app. Qed.

Lemma savedIssueReports_app tr1 tr2 :
  savedIssueReports (tr1 ++ tr2) = savedIssueReports tr1 ++ savedIssueReports tr2.
Proof. apply omap_app. Qed.

Lemma csvTaskCalls_app tr1 tr2 : csvTaskCalls (tr1 ++ tr2) = csvTaskCalls tr1 ++ csvTaskCalls tr2.
Proof. apply omap_app. Qed.

Lemma issuePrompts_tasks (f : Task -> CsvEvent) (ts : list Task) :
  (forall task, issuePrompts [f task] = []) -> issuePrompts (f <$> ts) = [].
Proof.
  intros Hf. induction ts as [|task ts IH]; [done|].
  rewrite fmap_cons. change (f task :: (f <$> ts)) with ([f task] ++ (f <$> ts)).
  by rewrite issuePrompts_app, Hf, IH.
Qed.

Lemma savedIssueReports_tasks (f : Task -> CsvEvent) (ts : list Task) :
  (forall task, savedIssueReports [f task] = []) -> savedIssueReports (f <$> ts) = [].
Proof.
  intros Hf. induction ts as [|task ts IH]; [done|].
  rewrite fmap_cons. change (f task :: (f <$> ts)) with ([f task] ++ (f <$> ts)).
  by rewrite savedIssueReports_app, Hf, IH.
Qed.

Lemma csvTaskCalls_tasks (f : Task -> CsvEvent) (ts : list Task) :
  (forall task, csvTaskCalls [f task] = [f task]) -> csvTaskCalls (f <$> ts) = f <$> ts.
Proof.
  intros Hf. induction ts as [|task ts IH]; [done|].
  rewrite fmap_cons. change (f task :: (f <$> ts)) with ([f task] ++ (f <$> ts)).
  by rewrite csvTaskCalls_app, Hf, IH.
Qed.

Section ValidateCSVFilesFacts.
Variable task_validateCSV : Task -> list ICSVIssueCsvRow.
Variable task_repairCSV : Task -> CachedCSVContent -> list ICSVIssueCsvRow * CachedCSVContent.
Variable csvFileExists : Task -> bool.
Variable valueMappingRows : list RawCsvRow.
Variable trim : string -> string.
Variable userContinuesOnIssues : nat -> bool.
Variable sourceOrgMedia : DATA_MEDIA_TYPE.
Variable importCSVFilesAsIs : bool.
Variable validateCSVFilesOnly : bool.

(** The first loop: every task is asked, and its issues are added. *)
Lemma validateLoop_run (ts : list Task) issues c mapping d tr :
  rforEach ts (fun task => cemit (ValidatedCSV task) ;; addIssues (task_validateCSV task))
           (mkCsvJob issues c mapping d tr)
  = (inr tt, mkCsvJob (issues ++ structureIssues task_validateCSV ts) c mapping d
                      (tr ++ (ValidatedCSV <$> ts))).
Proof.
  revert issues tr. induction ts as [|task ts IH]; intros issues tr.
  - simpl. unfold rret. by rewrite !app_nil_r.
  - simpl. run_csv. rewrite IH.
    unfold structureIssues. csimpl. by rewrite <- !app_assoc.
Qed.

(** The second loop: every task repairs the cache the one before left. *)
Lemma repairLoop_run (ts : list Task) issues c mapping d tr :
  rforEach ts (fun task =>
                 s ← rget;
                 let r := task_repairCSV task (cachedCSVContent s) in
                 cemit (RepairedCSV task) ;; setCache r.2 ;; addIssues r.1)
           (mkCsvJob issues c mapping d tr)
  = (inr tt, mkCsvJob (issues ++ (repairAll task_repairCSV ts c).1)
                      (repairAll task_repairCSV ts c).2 mapping d
                      (tr ++ (RepairedCSV <$> ts))).
Proof.
  revert issues c tr. induction ts as [|task ts IH]; intros issues c tr.
  - simpl. unfold rret. by rewrite !app_nil_r.
  - simpl. run_csv. rewrite IH. csimpl. by rewrite <- !app_assoc.
Qed.

(** The whole of [_validateAndRepairSourceCSVFiles], case by case. *)
Lemma validateAndRepair_run (ts : list Task) c mapping d tr :
  let structural := structureIssues task_validateCSV ts in
  let rep := repairAll task_repairCSV ts c in
  let flushed := saveCachedCsvDataFiles rep.2 d in
  let updated := CLogged infoVerbose (inr csvFilesWereUpdated) in
  let writing := CLogged infoVerbose (inl writingToCSV) in
  _validateAndRepairSourceCSVFiles task_validateCSV task_repairCSV userContinuesOnIssues ts
    (mkCsvJob [] c mapping d tr)
  = if 0 <? length structural then
      if userContinuesOnIssues (length structural) then
        (inr tt,
         mkCsvJob (structural ++ rep.1) rep.2 mapping flushed
           (tr ++ (ValidatedCSV <$> ts) ++ [PromptedOnIssues (length structural)]
               ++ (RepairedCSV <$> ts)
               ++ [updated; writing;
                   SavedIssues CSV_ISSUES_ERRORS_FILENAME (structural ++ rep.1);
                   WarnedOnIssues (length (structural ++ rep.1))]))
      else
        (inl CommandAbortedByUser,
         mkCsvJob structural c mapping d
           (tr ++ (ValidatedCSV <$> ts)
               ++ [PromptedOnIssues (length structural); writing;
                   SavedIssues CSV_ISSUES_ERRORS_FILENAME structural]))
    else if 0 <? length rep.1 then
      if userContinuesOnIssues (length rep.1) then
        (inr tt,
         mkCsvJob rep.1 rep.2 mapping flushed
           (tr ++ (ValidatedCSV <$> ts) ++ (RepairedCSV <$> ts)
               ++ [updated; PromptedOnIssues (length rep.1)]))
      else
        (inl CommandAbortedByUser,
         mkCsvJob rep.1 rep.2 mapping flushed
           (tr ++ (ValidatedCSV <$> ts) ++ (RepairedCSV <$> ts)
               ++ [updated; PromptedOnIssues (length rep.1); writing;
                   SavedIssues CSV_ISSUES_ERRORS_FILENAME rep.1]))
    else
      (inr tt,
       mkCsvJob rep.1 rep.2 mapping flushed
         (tr ++ (ValidatedCSV <$> ts) ++ (RepairedCSV <$> ts)
             ++ [updated; CLogged infoVerbose (inr noIssuesFoundDuringCSVValidation)])).
Proof.
  cbv zeta. unfold _validateAndRepairSourceCSVFiles.
  unfold mbind at 1. unfold run_bind, rbind. rewrite validateLoop_run.
  rewrite app_nil_l.
  set (structural := structureIssues task_validateCSV ts).
  set (rep := repairAll task_repairCSV ts c).
  unfold mbind at 1. unfold rget at 1. cbn [csvIssues].
  destruct (0 <? length structural) eqn:Hstructural.
  - unfold ___promptToAbortOnIssues, abortWithPromptOnIssues.
    destruct (userContinuesOnIssues (length structural)) eqn:Hanswer.
    + run_csv. rewrite Hanswer. simpl. rewrite repairLoop_run. simpl.
      fold rep.
      assert ((0 <? length (structural ++ rep.1)) = true) as ->.
      { apply Nat.ltb_lt. apply Nat.ltb_lt in Hstructural. rewrite length_app. lia. }
      simpl. by rewrite <- !app_assoc.
    + run_csv. rewrite Hanswer. simpl. by rewrite <- !app_assoc.
  - run_csv. rewrite repairLoop_run. simpl. fold rep.
    apply Nat.ltb_ge in Hstructural.
    assert (structural = []) as Hnil by (destruct structural; [done|simpl in *; lia]).
    rewrite Hnil. simpl.
    destruct (0 <? length rep.1) eqn:Hrep; simpl.
    + unfold ___promptToAbortOnIssues, abortWithPromptOnIssues. run_csv.
      destruct (userContinuesOnIssues (length rep.1)); simpl; by rewrite <- !app_assoc.
    + by rewrite <- !app_assoc.
Qed.

Lemma validateAndRepair_facts (ts : list Task) c mapping d tr :
  let run := _validateAndRepairSourceCSVFiles task_validateCSV task_repairCSV
               userContinuesOnIssues ts (mkCsvJob [] c mapping d tr) in
  let structural := structureIssues task_validateCSV ts in
  let rep := repairAll task_repairCSV ts c in
  let early := abortsOnStructure task_validateCSV userContinuesOnIssues ts in
  (exists ps, issuePrompts (csvTrace run.2) = issuePrompts tr ++ ps /\ length ps <= 1
              /\ (returned run.1 = false -> length ps = 1))
  /\ csvTaskCalls (csvTrace run.2)
     = csvTaskCalls tr ++ (ValidatedCSV <$> ts) ++ (if early then [] else RepairedCSV <$> ts)
  /\ savedIssueReports (csvTrace run.2)
     = savedIssueReports tr
       ++ (if negb (returned run.1) || (0 <? length structural)
           then [(CSV_ISSUES_ERRORS_FILENAME, csvIssues run.2)] else [])
  /\ run.1 <> inl SuccessExit
  /\ (run.1 = inr tt -> csvIssues run.2 = structural ++ rep.1)
  /\ cachedCSVContent run.2 = (if early then c else rep.2)
  /\ csvDisk run.2 = (if early then d else saveCachedCsvDataFiles rep.2 d)
  /\ csvValuesMapping run.2 = mapping
  /\ (early = true <-> run.1 = inl CommandAbortedByUser /\ csvIssues run.2 = structural
                       /\ 0 < length structural).
Proof.
  cbv zeta. rewrite validateAndRepair_run. cbv zeta. unfold abortsOnStructure.
  pose proof (issuePrompts_tasks ValidatedCSV ts (fun _ => eq_refl)) as Hp1.
  pose proof (issuePrompts_tasks RepairedCSV ts (fun _ => eq_refl)) as Hp2.
  pose proof (savedIssueReports_tasks ValidatedCSV ts (fun _ => eq_refl)) as Hs1.
  pose proof (savedIssueReports_tasks RepairedCSV ts (fun _ => eq_refl)) as Hs2.
  pose proof (csvTaskCalls_tasks ValidatedCSV ts (fun _ => eq_refl)) as Hc1.
  pose proof (csvTaskCalls_tasks RepairedCSV ts (fun _ => eq_refl)) as Hc2.
  set (structural := structureIssues task_validateCSV ts).
  set (rep := repairAll task_repairCSV ts c).
  assert ((0 <? length structural) = false -> structural = []) as Hnil.
  { intros H%Nat.ltb_ge. destruct structural; [done|simpl in *; lia]. }
  destruct (0 <? length structural) eqn:Hstructural;
    [destruct (userContinuesOnIssues (length structural))
    |rewrite (Hnil eq_refl); destruct (0 <? length rep.1) eqn:Hrep;
       [destruct (userContinuesOnIssues (length rep.1))|]];
    cbn [fst snd csvTrace csvIssues cachedCSVContent csvDisk csvValuesMapping
         andb negb orb returned];
    rewrite ?issuePrompts_app, ?savedIssueReports_app, ?csvTaskCalls_app,
      ?Hp1, ?Hp2, ?Hs1, ?Hs2, ?Hc1, ?Hc2;
    (split; [eexists; split; [reflexivity|split; [simpl; lia|done]]|]);
    (split; [by rewrite ?app_nil_r|]);
    (split; [by rewrite ?app_nil_r|]);
    (split; [done|]);
    (split; [done|]);
    (split; [done|]); (split; [done|]); (split; [done|]).
  - split; [done|by intros (? & _)].
  - split; [intros _|done]. apply Nat.ltb_lt in Hstructural. done.
  - split; [done|]. intros (_ & _ & Hlt). simpl in Hlt. lia.
  - split; [done|]. intros (_ & _ & Hlt). simpl in Hlt. lia.
  - split; [done|]. intros (_ & _ & Hlt). simpl in Hlt. lia.
Qed.

Lemma copyLoop_run (ts : list Task) issues c mapping d tr :
  _copyCSVFilesToSourceSubDir csvFileExists ts (mkCsvJob issues c mapping d tr)
  = (inr tt, mkCsvJob issues c mapping d
               (tr ++ (CopiedCSVFile <$> filter (fun task => csvFileExists task = true) ts))).
Proof.
  unfold _copyCSVFilesToSourceSubDir.
  revert tr. induction ts as [|task ts IH]; intros tr.
  - simpl. unfold rret. by rewrite app_nil_r.
  - simpl. destruct (csvFileExists task) eqn:Hexists.
    + rewrite filter_cons_True by done. run_csv. rewrite IH. csimpl.
      by rewrite <- app_assoc.
    + rewrite filter_cons_False by (by rewrite Hexists). run_csv. by rewrite IH.
Qed.

(** [validateCSVFiles] on a file source, from what
    [_validateAndRepairSourceCSVFiles] does in the state it finds. *)
Lemma validateCSVFiles_File (ts : list Task) c mapping d :
  let mapping' := if 0 <? length valueMappingRows
                  then loadCSVValueMapping trim valueMappingRows mapping else mapping in
  let tr := [MergedUserGroupCSVfiles]
            ++ (if 0 <? length valueMappingRows
                then [CLogged infoVerbose (inr readingValuesMappingFile)] else [])
            ++ (CopiedCSVFile <$> filter (fun task => csvFileExists task = true) ts) in
  let inner := _validateAndRepairSourceCSVFiles task_validateCSV task_repairCSV
                 userContinuesOnIssues ts
                 (mkCsvJob [] c mapping' d
                    (tr ++ [CLogged infoMinimal (inr validatingAndFixingSourceCSVFiles)])) in
  let completed := CLogged infoVerbose (inr validationAndFixingsourceCSVFilesCompleted) in
  validateCSVFiles task_validateCSV task_repairCSV csvFileExists valueMappingRows trim
    userContinuesOnIssues File importCSVFilesAsIs validateCSVFilesOnly ts
    (csvJobStart c mapping d)
  = if importCSVFilesAsIs then
      (inr tt, mkCsvJob [] c mapping' d
                 (tr ++ [CLogged infoMinimal (inr validatingSourceCSVFilesSkipped)]))
    else match inner.1 with
         | inl e => (inl e, inner.2)
         | inr _ =>
             if validateCSVFilesOnly then
               (inl SuccessExit,
                mkCsvJob (csvIssues inner.2) (cachedCSVContent inner.2)
                  (csvValuesMapping inner.2) (csvDisk inner.2)
                  (csvTrace inner.2 ++ [completed]))
             else
               (inr tt,
                mkCsvJob (csvIssues inner.2) clear
                  (csvValuesMapping inner.2) (csvDisk inner.2)
                  (csvTrace inner.2 ++ [completed]))
         end.
Proof.
  cbv zeta. unfold validateCSVFiles, csvJobStart, _loadCSVValueMappingFileAsync.
  destruct importCSVFilesAsIs; cbn [negb].
  - destruct (0 <? length valueMappingRows); run_csv_steps; by rewrite copyLoop_run.
  - destruct (0 <? length valueMappingRows); run_csv_steps; rewrite copyLoop_run;
      cbn [app]; destruct (_validateAndRepairSourceCSVFiles _ _ _ _ _) as [[e|[]] s2];
      try done; by destruct validateCSVFilesOnly.
Qed.
End ValidateCSVFilesFacts.

(** ** What a run of [validateCSVFiles] comes to *)

Lemma issuePrompts_logged method message : issuePrompts [CLogged method message] = [].
Proof. reflexivity. Qed.

Lemma csvTaskCalls_logged method message : csvTaskCalls [CLogged method message] = [].
Proof. reflexivity. Qed.

Lemma issuePrompts_prefix (logged : bool) (ts : list Task) :
  issuePrompts ([MergedUserGroupCSVfiles]
                ++ (if logged then [CLogged infoVerbose (inr readingValuesMappingFile)] else [])
                ++ (CopiedCSVFile <$> ts)) = [].
Proof.
  rewrite !issuePrompts_app, (issuePrompts_tasks CopiedCSVFile ts (fun _ => eq_refl)).
  by destruct logged.
Qed.

Lemma csvTaskCalls_prefix (logged : bool) (ts : list Task) :
  csvTaskCalls ([MergedUserGroupCSVfiles]
                ++ (if logged then [CLogged infoVerbose (inr readingValuesMappingFile)] else [])
                ++ (CopiedCSVFile <$> ts)) = [].
Proof.
  rewrite !csvTaskCalls_app. destruct logged; simpl;
    induction ts as [|task ts IH]; done.
Qed.

(** X12. [validateCSVFiles] calls [Common.abortWithPrompt] at most once,
    and it asks no task to repair its file before it has asked every task
    to validate its own: the calls of the tasks are none, the validation of
    the whole chain, or that followed by the repair of the whole chain. *)
Theorem validateCSVFiles_prompts_once :
  forall (task_validateCSV : Task -> list ICSVIssueCsvRow)
         (task_repairCSV : Task -> CachedCSVContent -> list ICSVIssueCsvRow * CachedCSVContent)
         (csvFileExists : Task -> bool) (valueMappingRows : list RawCsvRow)
         (trim : string -> string) (userContinuesOnIssues : nat -> bool)
         (sourceOrgMedia : DATA_MEDIA_TYPE) (importCSVFilesAsIs validateCSVFilesOnly : bool)
         (ts : list Task) (c : CachedCSVContent)
         (mapping : JsMap string (JsMap string string)) (d : Disk),
  let run := validateCSVFiles task_validateCSV task_repairCSV csvFileExists
               valueMappingRows trim userContinuesOnIssues sourceOrgMedia
               importCSVFilesAsIs validateCSVFilesOnly ts (csvJobStart c mapping d) in
  length (issuePrompts (csvTrace run.2)) <= 1
  /\ (csvTaskCalls (csvTrace run.2) = []
      \/ csvTaskCalls (csvTrace run.2) = (ValidatedCSV <$> ts)
      \/ csvTaskCalls (csvTrace run.2) = (ValidatedCSV <$> ts) ++ (RepairedCSV <$> ts)).
Proof.
  intros. subst run. destruct sourceOrgMedia.
  { simpl. split; [lia|by left]. }
  rewrite validateCSVFiles_File. cbv zeta.
  destruct importCSVFilesAsIs.
  { cbn [snd csvTrace].
    rewrite issuePrompts_app, csvTaskCalls_app, issuePrompts_prefix, csvTaskCalls_prefix.
    simpl. split; [lia|by left]. }
  match goal with |- context [_validateAndRepairSourceCSVFiles _ _ _ ts ?s] =>
    pose proof (validateAndRepair_facts task_validateCSV task_repairCSV
                  userContinuesOnIssues ts c
                  (csvValuesMapping s) d (csvTrace s)) as Hfacts;
    cbn [csvValuesMapping csvTrace] in Hfacts
  end.
  cbv zeta in Hfacts.
  destruct Hfacts as ((ps & Hps & Hlen & _) & Hcalls & _).
  rewrite issuePrompts_app, issuePrompts_prefix, issuePrompts_logged in Hps.
  rewrite csvTaskCalls_app, csvTaskCalls_prefix, csvTaskCalls_logged in Hcalls.
  rewrite !app_nil_l in Hps, Hcalls.
  destruct (_validateAndRepairSourceCSVFiles _ _ _ _ _) as [[e|[]] s2]; cbn [fst snd] in *.
  { rewrite Hps, Hcalls. split; [done|].
    destruct (abortsOnStructure _ _ _); [right; left; by rewrite app_nil_r|by right; right]. }
  assert (csvTaskCalls (csvTrace s2) = (ValidatedCSV <$> ts) ++ (RepairedCSV <$> ts)
          \/ csvTaskCalls (csvTrace s2) = ValidatedCSV <$> ts) as Hc.
  { rewrite Hcalls. destruct (abortsOnStructure _ _ _); [right; by rewrite app_nil_r|by left]. }
  destruct validateCSVFilesOnly; cbn [snd csvTrace];
    rewrite ?issuePrompts_app, ?csvTaskCalls_app, ?issuePrompts_logged,
      ?csvTaskCalls_logged, Hps, ?app_nil_r;
    (split; [done|]); destruct Hc as [->| ->]; auto.
Qed.

(** X13. [_validateAndRepairSourceCSVFiles] never ends with
    [SuccessExit]. It saves the issue report at most once, with all the
    issues found up to there: when it is aborted, and when it returns
    after the structure check had found issues. When the structure check
    finds none and the user goes on at the prompt after the repair, it
    returns without writing the report, though the repair found issues.
    When it returns, the issues are the ones of the structure check
    followed by the ones of the repair. *)
Theorem validateAndRepair_issue_report :
  forall (task_validateCSV : Task -> list ICSVIssueCsvRow)
         (task_repairCSV : Task -> CachedCSVContent -> list ICSVIssueCsvRow * CachedCSVContent)
         (userContinuesOnIssues : nat -> bool)
         (ts : list Task) (c : CachedCSVContent)
         (mapping : JsMap string (JsMap string string)) (d : Disk),
  let run := _validateAndRepairSourceCSVFiles task_validateCSV task_repairCSV
               userContinuesOnIssues ts (csvJobStart c mapping d) in
  run.1 <> inl SuccessExit
  /\ savedIssueReports (csvTrace run.2)
     = (if negb (returned run.1) || (0 <? length (structureIssues task_validateCSV ts))
        then [(CSV_ISSUES_ERRORS_FILENAME, csvIssues run.2)] else [])
  /\ (returned run.1 = true ->
      csvIssues run.2
      = structureIssues task_validateCSV ts ++ (repairAll task_repairCSV ts c).1).
Proof.
  intros. subst run. unfold csvJobStart.
  destruct (validateAndRepair_facts task_validateCSV task_repairCSV userContinuesOnIssues
              ts c mapping d []) as (_ & _ & Hsaved & Hexit & Hissues & _).
  split; [exact Hexit|]. split; [exact Hsaved|].
  intros Hret. apply Hissues. by destruct (_validateAndRepairSourceCSVFiles _ _ _ _ _).1 as [|[]].
Qed.

(** X14. When the run is aborted at the prompt after the structure
    check, no task has repaired anything and no cached file is written.
    Else every task has repaired the cache in turn and the dirty files of
    the repaired cache are written once, before the prompt that may follow:
    an abort at that prompt leaves the repaired files on disk. *)
Theorem validateAndRepair_flush :
  forall (task_validateCSV : Task -> list ICSVIssueCsvRow)
         (task_repairCSV : Task -> CachedCSVContent -> list ICSVIssueCsvRow * CachedCSVContent)
         (userContinuesOnIssues : nat -> bool)
         (ts : list Task) (c : CachedCSVContent)
         (mapping : JsMap string (JsMap string string)) (d : Disk),
  let run := _validateAndRepairSourceCSVFiles task_validateCSV task_repairCSV
               userContinuesOnIssues ts (csvJobStart c mapping d) in
  let repaired := (repairAll task_repairCSV ts c).2 in
  if abortsOnStructure task_validateCSV userContinuesOnIssues ts then
    returned run.1 = false /\ cachedCSVContent run.2 = c /\ csvDisk run.2 = d
    /\ csvTaskCalls (csvTrace run.2) = ValidatedCSV <$> ts
  else
    cachedCSVContent run.2 = repaired
    /\ csvDisk run.2 = saveCachedCsvDataFiles repaired d
    /\ writtenPaths (csvDisk run.2)
       = writtenPaths d
         ++ filter (fun filePath => filePath ∈ updatedFilenames repaired)
                   (jsmap_keys (csvDataCacheMap repaired))
    /\ csvTaskCalls (csvTrace run.2) = (ValidatedCSV <$> ts) ++ (RepairedCSV <$> ts).
Proof.
  intros. subst run repaired. unfold csvJobStart.
  destruct (validateAndRepair_facts task_validateCSV task_repairCSV userContinuesOnIssues
              ts c mapping d [])
    as (_ & Hcalls & _ & _ & _ & Hcache & Hdisk & _ & Hearly).
  destruct (abortsOnStructure task_validateCSV userContinuesOnIssues ts).
  - destruct (proj1 Hearly eq_refl) as (Hrun & _).
    rewrite Hrun, Hcache, Hdisk, Hcalls. by rewrite app_nil_r.
  - rewrite Hcache, Hdisk, Hcalls, saveCachedCsvDataFiles_paths. done.
Qed.

(** X15. With an org for source [validateCSVFiles] does nothing. With a
    file source and [importCSVFilesAsIs] it returns without calling a task,
    and leaves the cache and the cached files alone. Else, when it returns,
    [validateCSVFilesOnly] is off and the cache is cleared, so that the
    next synthetic id is [ID0000000000000001] again; it ends with
    [SuccessExit] only with [validateCSVFilesOnly] on, and then the cache
    is the repaired one; and when it is aborted, one prompt was shown. *)
Theorem validateCSVFiles_outcome :
  forall (task_validateCSV : Task -> list ICSVIssueCsvRow)
         (task_repairCSV : Task -> CachedCSVContent -> list ICSVIssueCsvRow * CachedCSVContent)
         (csvFileExists : Task -> bool) (valueMappingRows : list RawCsvRow)
         (trim : string -> string) (userContinuesOnIssues : nat -> bool)
         (importCSVFilesAsIs validateCSVFilesOnly : bool)
         (ts : list Task) (c : CachedCSVContent)
         (mapping : JsMap string (JsMap string string)) (d : Disk),
  validateCSVFiles task_validateCSV task_repairCSV csvFileExists valueMappingRows trim
    userContinuesOnIssues Org importCSVFilesAsIs validateCSVFilesOnly ts
    (csvJobStart c mapping d)
  = (inr tt, csvJobStart c mapping d)
  /\ let run := validateCSVFiles task_validateCSV task_repairCSV csvFileExists
                  valueMappingRows trim userContinuesOnIssues File
                  importCSVFilesAsIs validateCSVFilesOnly ts (csvJobStart c mapping d) in
     if importCSVFilesAsIs then
       run.1 = inr tt /\ csvTaskCalls (csvTrace run.2) = []
       /\ csvIssues run.2 = [] /\ cachedCSVContent run.2 = c /\ csvDisk run.2 = d
     else
       match run.1 with
       | inr _ =>
           validateCSVFilesOnly = false
           /\ cachedCSVContent run.2 = clear
           /\ (nextId (cachedCSVContent run.2)).1 = "ID0000000000000001"%string
       | inl SuccessExit =>
           validateCSVFilesOnly = true
           /\ cachedCSVContent run.2 = (repairAll task_repairCSV ts c).2
       | inl CommandAbortedByUser => length (issuePrompts (csvTrace run.2)) = 1
       end.
Proof.
  intros. split; [reflexivity|]. cbv zeta.
  rewrite validateCSVFiles_File. cbv zeta.
  destruct importCSVFilesAsIs.
  { cbn [fst snd csvTrace csvIssues cachedCSVContent csvDisk].
    by rewrite csvTaskCalls_app, csvTaskCalls_prefix. }
  match goal with |- context [_validateAndRepairSourceCSVFiles _ _ _ ts ?s] =>
    pose proof (validateAndRepair_facts task_validateCSV task_repairCSV
                  userContinuesOnIssues ts c
                  (csvValuesMapping s) d (csvTrace s)) as Hfacts;
    cbn [csvValuesMapping csvTrace] in Hfacts
  end.
  cbv zeta in Hfacts.
  destruct Hfacts as ((ps & Hps & _ & Hone) & _ & _ & Hexit & _ & Hcache & _ & _ & Hearly).
  rewrite issuePrompts_app, issuePrompts_prefix, issuePrompts_logged in Hps.
  rewrite !app_nil_l in Hps.
  destruct (_validateAndRepairSourceCSVFiles _ _ _ _ _) as [[e|[]] s2]; cbn [fst snd] in *.
  - destruct e; [done|]. rewrite Hps. by apply Hone.
  - destruct validateCSVFilesOnly; cbn [fst snd cachedCSVContent].
    + split; [done|]. rewrite Hcache.
      destruct (abortsOnStructure _ _ _); [|done].
      by destruct (proj1 Hearly eq_refl) as (? & _).
    + done.
Qed.

(** ** The engine in simulation mode *)

Ltac run_engine :=
  unfold setChunks, setSObjectNames, writeToTargetCSVFile, reportProgress, setEngine,
    orThrow, mbind, mret, job_bind, job_ret, jbind, jmodify, jget, jret, jthrow;
  cbn [fst snd engine_simulationMode engine_createTargetCSVFiles
       engine_targetCSVFullFilename operation updateRecordId engine_sObjectName
       oldSObjectName apiJobCreateResult_chunks targetFile progress idsMade].

Section ExecuteCRUDFacts.
Variable Object_keys : JsValue -> list string.
Variable __ID_FIELD_NAME : string.
Variable makeId : nat -> nat -> string.
Variable sourceRecordsToTarget : list JsValue -> string -> list JsValue * string.
Variable targetRecordsToSource : option (list JsValue) -> string -> option (list JsValue).
Variable createCRUDApiJobAsync : list JsValue -> CsvChunks.
Variable processCRUDApiBatchAsync : @ICsvChunk JsValue -> option (list JsValue).

(** A record of a stored chunk, and a change of it. *)
Lemma chunkRecord_middle sim create file op upd name old pre str done r todo post hd tf pr n :
  chunkRecord
    (mkEngine sim create file op upd name old
       (mkCsvChunks (pre ++ mkCsvChunk str (done ++ r :: todo) :: post) hd) tf pr n)
    (length pre) (length done)
  = r.
Proof.
  unfold chunkRecord, chunkRecords. cbn [apiJobCreateResult_chunks csvChunks].
  rewrite list_lookup_middle by done. cbn. by rewrite list_lookup_middle.
Qed.

Lemma setChunkRecord_middle sim create file op upd name old pre str done r r' todo post hd
    tf pr n :
  setChunkRecord (length pre) (length done) r'
    (mkEngine sim create file op upd name old
       (mkCsvChunks (pre ++ mkCsvChunk str (done ++ r :: todo) :: post) hd) tf pr n)
  = (Some tt,
     mkEngine sim create file op upd name old
       (mkCsvChunks (pre ++ mkCsvChunk str ((done ++ [r']) ++ todo) :: post) hd) tf pr n).
Proof.
  unfold setChunkRecord, setEngine, jmodify.
  cbn [engine_simulationMode engine_createTargetCSVFiles engine_targetCSVFullFilename
       operation updateRecordId engine_sObjectName oldSObjectName
       apiJobCreateResult_chunks targetFile progress idsMade csvChunks header].
  rewrite alter_app_r_alt, Nat.sub_diag by lia. cbn [alter list_alter csvString records].
  rewrite insert_app_r_alt, Nat.sub_diag by lia. cbn [insert list_insert].
  by rewrite <- app_assoc.
Qed.

(** The ids are assigned to the records of the chunk, in place. *)
Lemma assignIds_run (todo : list JsValue) :
  Forall (fun r => isObject r = true) todo ->
  forall done n sim create file op upd name old pre str post hd tf pr,
  assignIds makeId (length pre) (seq (length done) (length todo))
    (mkEngine sim create file op upd name old
       (mkCsvChunks (pre ++ mkCsvChunk str (done ++ todo) :: post) hd) tf pr n)
  = (Some tt,
     mkEngine sim create file op upd name old
       (mkCsvChunks
          (pre ++ mkCsvChunk str (done ++ imap (fun i => withId (makeId 18 (n + i))) todo)
               :: post) hd)
       tf pr (n + length todo)).
Proof.
  induction 1 as [|r todo Hr Htodo IH]; intros.
  - cbn. by rewrite Nat.add_0_r.
  - destruct r as [| | |props]; try done.
    cbn [length seq assignIds]. run_engine.
    rewrite chunkRecord_middle. cbn [setProperty].
    rewrite setChunkRecord_middle.
    replace (S (length done))
      with (length (done ++ [JsObject (jsmap_set props "Id" (JsText (makeId 18 n)))]))
      by (rewrite length_app; simpl; lia).
    rewrite IH. rewrite imap_cons, <- app_assoc. cbn [app].
    unfold withId at 2. cbn [setProperty default].
    rewrite Nat.add_0_r. do 2 f_equal; [|lia].
    unfold id. do 6 f_equal.
    apply imap_ext. intros i x _. simpl. do 3 f_equal. lia.
Qed.

(** The internal id field is deleted from the records of the chunk, in
    place, and the records are answered. *)
Lemma deleteIdFields_run (todo : list JsValue) :
  Forall (fun r => isObject r = true) todo ->
  forall done n sim create file op upd name old pre str post hd tf pr,
  deleteIdFields __ID_FIELD_NAME (length pre) (seq (length done) (length todo))
    (mkEngine sim create file op upd name old
       (mkCsvChunks (pre ++ mkCsvChunk str (done ++ todo) :: post) hd) tf pr n)
  = (Some (withoutProperty __ID_FIELD_NAME <$> todo),
     mkEngine sim create file op upd name old
       (mkCsvChunks
          (pre ++ mkCsvChunk str (done ++ (withoutProperty __ID_FIELD_NAME <$> todo))
               :: post) hd)
       tf pr n).
Proof.
  induction 1 as [|r todo Hr Htodo IH]; intros.
  - done.
  - destruct r as [| | |props]; try done.
    cbn [length seq deleteIdFields]. run_engine.
    rewrite chunkRecord_middle. cbn [deleteProperty].
    rewrite setChunkRecord_middle.
    replace (S (length done))
      with (length (done ++ [JsObject (filter (fun p => p.1 <> __ID_FIELD_NAME) props)]))
      by (rewrite length_app; simpl; lia).
    rewrite IH. by rewrite fmap_cons, <- app_assoc.
Qed.

Lemma mapM_deleteProperty (rs : list JsValue) :
  Forall (fun r => isObject r = true) rs ->
  mapM (fun record => deleteProperty record __ID_FIELD_NAME) rs
  = Some (withoutProperty __ID_FIELD_NAME <$> rs).
Proof.
  induction 1 as [|r rs Hr Hrs IH]; [done|].
  destruct r as [| | |props]; try done.
  change (mapM (fun record => deleteProperty record __ID_FIELD_NAME) (JsObject props :: rs))
    with (x ← deleteProperty (JsObject props) __ID_FIELD_NAME;
          k ← mapM (fun record => deleteProperty record __ID_FIELD_NAME) rs;
          mret (x :: k)).
  by rewrite IH.
Qed.

Lemma simulatedRecords_length e (records : list JsValue) :
  length (simulatedRecords __ID_FIELD_NAME makeId e records) = length records.
Proof.
  unfold simulatedRecords. destruct (operation e); [destruct (updateRecordId e)|..];
    by rewrite ?length_imap, ?length_fmap.
Qed.

(** One chunk in simulation mode: the records answered are the records of
    the chunk, which hold afterwards what the answer holds. *)
Lemma processCRUDSimulationBatch_run cb create file op upd name old pre str rs post hd
    tf pr n :
  Forall (fun r => isObject r = true) rs ->
  let e := mkEngine true create file op upd name old
             (mkCsvChunks (pre ++ mkCsvChunk str rs :: post) hd) tf pr n in
  let resultRecords := simulatedRecords __ID_FIELD_NAME makeId e rs in
  processCRUDSimulationBatch __ID_FIELD_NAME makeId (length pre) cb e
  = (Some (Some resultRecords),
     mkEngine true create file op upd name old
       (mkCsvChunks (pre ++ mkCsvChunk str resultRecords :: post) hd) tf
       (pr ++ (if cb then ["OperationStarted"; "OperationFinished"]%string else []))
       (match op with
        | Insert => if upd then n + length rs else n
        | _ => n
        end)).
Proof.
  intros Hobj. cbv zeta.
  unfold processCRUDSimulationBatch, getResultRecordsOfChunk, simulatedRecords,
    getResultRecordsArray, chunkRecords.
  pose proof (assignIds_run rs Hobj [] n true create file op upd name old pre str post hd tf)
    as Hids.
  pose proof (deleteIdFields_run rs Hobj [] n true create file op upd name old pre str post hd tf)
    as Hdel.
  cbn [app length] in Hids, Hdel.
  destruct cb, op as [| |k]; [destruct upd| | |destruct upd| |];
    repeat first
      [ rewrite list_lookup_middle by done
      | rewrite Hids
      | rewrite Hdel
      | progress run_engine
      | progress cbn [fmap option_fmap option_map records csvChunks fst snd negb] ];
    rewrite <- ?app_assoc, ?app_nil_r; reflexivity.
Qed.

(** X16. In simulation mode, on records (after the source mapping) that
    are objects, different ones, and at least one: [executeCRUD] returns,
    through the target mapping, as many records as it was handed, in the
    same order: each with a new id for an insert with [updateRecordId],
    each without the internal id field for a delete, and unchanged
    otherwise. The records are changed in place, they are not copied: the
    one chunk the method makes of all the records holds afterwards what
    the result holds. It calls the progress callback, when it has one,
    twice, writes the result once to the target csv file when
    [createTargetCSVFiles] is set, and leaves [sObjectName] as it found
    it. *)
Theorem executeCRUD_simulation :
  forall (e : Engine) (allRecords : list JsValue) (progressCallback : bool),
  let mapped := sourceRecordsToTarget allRecords (engine_sObjectName e) in
  let resultRecords := simulatedRecords __ID_FIELD_NAME makeId e mapped.1 in
  engine_simulationMode e = true ->
  mapped.1 <> [] ->
  Forall (fun r => isObject r = true) mapped.1 ->
  exists e',
    executeCRUD Object_keys __ID_FIELD_NAME makeId sourceRecordsToTarget
      targetRecordsToSource createCRUDApiJobAsync processCRUDApiBatchAsync
      allRecords progressCallback e
    = (Some (targetRecordsToSource (Some resultRecords) (engine_sObjectName e)), e')
    /\ length resultRecords = length mapped.1
    /\ engine_sObjectName e' = engine_sObjectName e
    /\ progress e' = progress e
                     ++ (if progressCallback
                         then ["OperationStarted"; "OperationFinished"]%string else [])
    /\ targetFile e' = targetFile e
                       ++ (if engine_createTargetCSVFiles e
                           then [(engine_targetCSVFullFilename e, resultRecords)] else [])
    /\ csvChunks (apiJobCreateResult_chunks e') = [mkCsvChunk "" resultRecords].
Proof.
  intros e allRecords cb mapped resultRecords Hsim Hne Hobj.
  subst resultRecords mapped.
  destruct e as [sim create file op upd name old chunks tf pr n].
  cbn [engine_simulationMode engine_sObjectName engine_createTargetCSVFiles
       engine_targetCSVFullFilename progress targetFile] in *.
  subst sim.
  unfold executeCRUD, createCRUDSimulationJobAsync, getSourceRecordsArray, fromArray,
    fromArrayChunks, processCRUDApiJob.
  run_engine.
  destruct (sourceRecordsToTarget allRecords name) as [recs newName] eqn:Hmap.
  cbn [fst snd] in *.
  destruct recs as [|r rs]; [done|].
  assert (isObject r = true) as Hr by (by inversion Hobj).
  destruct r as [| | |props]; try done.
  pose proof (fun hd old' tf' pr' n' =>
                processCRUDSimulationBatch_run cb create file op upd newName old' [] ""
                  (JsObject props :: rs) [] hd tf' pr' n' Hobj) as Hbatch.
  cbv zeta in Hbatch. cbn [app length] in Hbatch.
  assert (forall n', simulatedRecords __ID_FIELD_NAME makeId
                       (mkEngine true create file op upd name old chunks tf pr n')
                       (JsObject props :: rs)
                     = simulatedRecords __ID_FIELD_NAME makeId
                         (mkEngine true create file op upd newName name
                            (mkCsvChunks [mkCsvChunk "" (JsObject props :: rs)]
                               (Object_keys (JsObject props))) tf pr n')
                         (JsObject props :: rs)) as Hsame by done.
  rewrite Hsame.
  destruct op as [| |k];
    cbn -[processCRUDSimulationBatch simulatedRecords];
    run_engine; cbn [negb csvChunks length seq processCRUDChunks];
    run_engine; cbn [negb];
    rewrite Hbatch; cbn -[simulatedRecords];
    rewrite simulatedRecords_length;
    destruct create; cbn -[simulatedRecords]; eexists; (split; [reflexivity|]);
    cbn -[simulatedRecords]; by rewrite ?app_nil_r.
Qed.

(** X17. In simulation mode, with no record at all, [executeCRUD] throws:
    [fromArray] makes one empty chunk and [Object.keys] is called on its
    missing first record. Nothing is written and no progress is reported,
    and [sObjectName] is left with the name the source mapping gave. *)
Theorem executeCRUD_simulation_empty :
  forall (e : Engine) (allRecords : list JsValue) (progressCallback : bool),
  let mapped := sourceRecordsToTarget allRecords (engine_sObjectName e) in
  let run := executeCRUD Object_keys __ID_FIELD_NAME makeId sourceRecordsToTarget
               targetRecordsToSource createCRUDApiJobAsync processCRUDApiBatchAsync
               allRecords progressCallback e in
  engine_simulationMode e = true ->
  mapped.1 = [] ->
  run.1 = None
  /\ engine_sObjectName run.2 = mapped.2
  /\ oldSObjectName run.2 = engine_sObjectName e
  /\ targetFile run.2 = targetFile e
  /\ progress run.2 = progress e.
Proof.
  intros e allRecords cb mapped run Hsim Hnil. subst run mapped.
  destruct e as [sim create file op upd name old chunks tf pr n].
  simpl in Hsim, Hnil. subst sim.
  unfold executeCRUD, createCRUDSimulationJobAsync, getSourceRecordsArray.
  run_engine. rewrite Hnil. cbn [negb].
  by destruct op.
Qed.

Lemma keepsNames_bind {A B} (m : Job Engine A) (k : A -> Job Engine B) :
  keepsNames m -> (forall a, keepsNames (k a)) -> keepsNames (m ≫= k).
Proof.
  intros Hm Hk s. unfold mbind, job_bind, jbind.
  destruct (Hm s) as [H1 H2]. destruct (m s) as [[a|] s1]; [|done].
  destruct (Hk a s1) as [H3 H4]. simpl in *. by rewrite H3, H4.
Qed.

Lemma keepsNames_jret {A} (a : A) : keepsNames (jret a : Job Engine A).
Proof. done. Qed.

Lemma keepsNames_jget : keepsNames (jget : Job Engine Engine).
Proof. done. Qed.

Lemma keepsNames_orThrow {A} (r : option A) : keepsNames (orThrow r).
Proof. by destruct r. Qed.

Lemma keepsNames_setEngine (f : Engine -> Engine) :
  (forall s, engine_sObjectName (f s) = engine_sObjectName s
             /\ oldSObjectName (f s) = oldSObjectName s) ->
  keepsNames (setEngine f).
Proof. intros Hf s. apply Hf. Qed.

Lemma keepsNames_reportProgress cb jobState : keepsNames (reportProgress cb jobState).
Proof. destruct cb; [by apply keepsNames_setEngine|apply keepsNames_jret]. Qed.

Lemma keepsNames_writeToTargetCSVFile recs : keepsNames (writeToTargetCSVFile recs).
Proof.
  apply keepsNames_bind; [apply keepsNames_jget|]. intros e.
  destruct (engine_createTargetCSVFiles e); [by apply keepsNames_setEngine|apply keepsNames_jret].
Qed.

Lemma keepsNames_setChunkRecord index recordIndex record :
  keepsNames (setChunkRecord index recordIndex record).
Proof. by apply keepsNames_setEngine. Qed.

Lemma keepsNames_assignIds index recordIndexes :
  keepsNames (assignIds makeId index recordIndexes).
Proof.
  induction recordIndexes as [|recordIndex rest IH]; [apply keepsNames_jret|]. simpl.
  apply keepsNames_bind; [apply keepsNames_jget|]. intros e.
  apply keepsNames_bind; [by apply keepsNames_setEngine|]. intros _.
  apply keepsNames_bind; [apply keepsNames_orThrow|]. intros record.
  apply keepsNames_bind; [apply keepsNames_setChunkRecord|]. intros _. apply IH.
Qed.

Lemma keepsNames_deleteIdFields index recordIndexes :
  keepsNames (deleteIdFields __ID_FIELD_NAME index recordIndexes).
Proof.
  induction recordIndexes as [|recordIndex rest IH]; [apply keepsNames_jret|]. simpl.
  apply keepsNames_bind; [apply keepsNames_jget|]. intros e.
  apply keepsNames_bind; [apply keepsNames_orThrow|]. intros record.
  apply keepsNames_bind; [apply keepsNames_setChunkRecord|]. intros _.
  apply keepsNames_bind; [apply IH|]. intros rest'. apply keepsNames_jret.
Qed.

Lemma keepsNames_getResultRecordsOfChunk index :
  keepsNames (getResultRecordsOfChunk __ID_FIELD_NAME index).
Proof.
  unfold getResultRecordsOfChunk.
  apply keepsNames_bind; [apply keepsNames_jget|]. intros e.
  apply keepsNames_bind; [apply keepsNames_orThrow|]. intros records.
  destruct (operation e), (engine_simulationMode e);
    first [apply keepsNames_deleteIdFields|apply keepsNames_orThrow].
Qed.

Lemma keepsNames_processCRUDSimulationBatch index cb :
  keepsNames (processCRUDSimulationBatch __ID_FIELD_NAME makeId index cb).
Proof.
  unfold processCRUDSimulationBatch.
  apply keepsNames_bind; [apply keepsNames_reportProgress|]. intros _.
  apply keepsNames_bind; [apply keepsNames_jget|]. intros e.
  apply keepsNames_bind.
  { destruct (operation e); [destruct (updateRecordId e)|..]; try apply keepsNames_jret.
    apply keepsNames_bind; [apply keepsNames_orThrow|]. intros records.
    apply keepsNames_assignIds. }
  intros _.
  apply keepsNames_bind; [apply keepsNames_reportProgress|]. intros _.
  apply keepsNames_bind; [apply keepsNames_getResultRecordsOfChunk|].
  intros r. apply keepsNames_jret.
Qed.

Lemma keepsNames_processCRUDChunks indexes cb acc :
  keepsNames (processCRUDChunks __ID_FIELD_NAME makeId processCRUDApiBatchAsync
                indexes cb acc).
Proof.
  revert acc. induction indexes as [|index rest IH]; intros acc; simpl.
  - apply keepsNames_bind; [apply keepsNames_writeToTargetCSVFile|].
    intros _. apply keepsNames_jret.
  - apply keepsNames_bind; [apply keepsNames_jget|]. intros e.
    apply keepsNames_bind.
    { destruct (negb _); [|apply keepsNames_processCRUDSimulationBatch].
      apply keepsNames_bind; [apply keepsNames_orThrow|]. intros csvCunk.
      apply keepsNames_jret. }
    intros [resultRecords|]; [apply IH|].
    apply keepsNames_bind; [apply keepsNames_writeToTargetCSVFile|].
    intros _. apply keepsNames_jret.
Qed.

Lemma keepsNames_createJob e0 recs :
  keepsNames (if negb (engine_simulationMode e0)
              then setChunks (createCRUDApiJobAsync recs)
              else createCRUDSimulationJobAsync Object_keys recs).
Proof.
  destruct (negb _); [by apply keepsNames_setEngine|].
  unfold createCRUDSimulationJobAsync.
  apply keepsNames_bind; [apply keepsNames_jget|]. intros e.
  apply keepsNames_bind; [apply keepsNames_orThrow|]. intros source.
  apply keepsNames_bind; [apply keepsNames_orThrow|]. intros [chunks|];
    [by apply keepsNames_setEngine|done].
Qed.

(** The end of [executeCRUD], after two parts that keep the names. *)
Lemma restoreNames_run {A} (create : Job Engine unit) (process : Job Engine A)
    (result : A -> Engine -> option (list JsValue)) (s1 : Engine) :
  keepsNames create -> keepsNames process ->
  let run := (create ;;
              resultRecords ← process;
              e ← jget;
              setSObjectNames (oldSObjectName e) (oldSObjectName e) ;;
              jret (result resultRecords e)) s1 in
  oldSObjectName run.2 = oldSObjectName s1
  /\ engine_sObjectName run.2
     = match run.1 with
       | Some _ => oldSObjectName s1
       | None => engine_sObjectName s1
       end.
Proof.
  intros Hcreate Hprocess. cbv zeta. unfold mbind, job_bind, jbind.
  destruct (Hcreate s1) as [Hn1 Ho1]. destruct (create s1) as [[[]|] s2]; [|done].
  destruct (Hprocess s2) as [Hn2 Ho2]. destruct (process s2) as [[r|] s3].
  - run_engine. simpl in *. by rewrite Ho2, Ho1.
  - simpl in *. by rewrite Hn2, Ho2, Hn1, Ho1.
Qed.

(** X18. In either mode, after [executeCRUD] [oldSObjectName] is the name
    the engine had; [sObjectName] is that name again when the method
    returns, and the target name of the source mapping when it throws. *)
Theorem executeCRUD_sObjectName :
  forall (e : Engine) (allRecords : list JsValue) (progressCallback : bool),
  let run := executeCRUD Object_keys __ID_FIELD_NAME makeId sourceRecordsToTarget
               targetRecordsToSource createCRUDApiJobAsync processCRUDApiBatchAsync
               allRecords progressCallback e in
  oldSObjectName run.2 = engine_sObjectName e
  /\ engine_sObjectName run.2
     = match run.1 with
       | Some _ => engine_sObjectName e
       | None => (sourceRecordsToTarget allRecords (engine_sObjectName e)).2
       end.
Proof.
  intros e allRecords cb. cbv zeta. unfold executeCRUD.
  unfold mbind at 1. unfold job_bind, jbind, jget at 1.
  unfold mbind at 1. unfold job_bind, jbind, setSObjectNames at 1, setEngine, jmodify.
  match goal with |- context [(?create ≫= ?k) ?s1] =>
    pose proof (restoreNames_run create
                  (processCRUDApiJob __ID_FIELD_NAME makeId processCRUDApiBatchAsync cb)
                  (fun r e1 => targetRecordsToSource r (oldSObjectName e1)) s1
                  (keepsNames_createJob e _)) as Hrun
  end.
  cbv zeta in Hrun. apply Hrun.
  unfold processCRUDApiJob.
  apply keepsNames_bind; [apply keepsNames_jget|]. intros e1.
  apply keepsNames_processCRUDChunks.
Qed.



(** X20. For a delete outside simulation mode, on records that are
    objects: [getSourceRecordsArray] keeps the [Id] of each record and
    [getResultRecordsArray] makes of each id an object with the single
    property [Id]; a record without [Id] comes back with [Id] undefined. *)
Theorem getResultRecordsArray_of_source :
  forall (e : Engine) (records : list JsValue),
  operation e = Delete ->
  engine_simulationMode e = false ->
  Forall (fun r => isObject r = true) records ->
  getSourceRecordsArray e records ≫= getResultRecordsArray __ID_FIELD_NAME e
  = Some ((fun record =>
             JsObject [("Id"%string, default JsUndefined (getProperty record "Id"))])
          <$> records).
Proof.
  intros e records Hop Hsim Hobj.
  unfold getSourceRecordsArray, getResultRecordsArray. rewrite Hop, Hsim. cbn [negb].
  induction Hobj as [|r rs Hr Hrs IH]; [done|].
  destruct r as [| | |props]; try done.
  change (mapM (fun x => getProperty x "Id") (JsObject props :: rs))
    with (x ← getProperty (JsObject props) "Id";
          k ← mapM (fun x => getProperty x "Id") rs; mret (x :: k)).
  cbn [getProperty]. cbn [mbind option_bind].
  destruct (mapM (fun x => getProperty x "Id") rs) as [ids|]; [|done].
  cbn [mbind option_bind mret option_ret] in *.
  change (mapM (fun record => Some (JsObject [("Id"%string, record)]))
               (default JsUndefined (jsmap_get props "Id") :: ids))
    with (x ← Some (JsObject [("Id"%string, default JsUndefined (jsmap_get props "Id"))]);
          k ← mapM (fun record => Some (JsObject [("Id"%string, record)])) ids;
          mret (x :: k)).
  cbn [mbind option_bind]. rewrite IH. done.
Qed.
End ExecuteCRUDFacts.

(** Two records inserted in simulation mode: the records answered have
    their ids, and so have the records of the chunk the engine keeps. *)
Lemma executeCRUD_simulation_witness :
  let inserted :=
    [ JsObject [("Name"%string, JsText "Acme"); ("Id"%string, JsText "SIM-A")];
      JsObject [("Id"%string, JsText "SIM-B"); ("Name"%string, JsText "Bolt")] ] in
  exists e',
    executeCRUD exampleKeys "___Id" exampleMakeId sourceRecordsToTarget_default
      targetRecordsToSource_default exampleCreateJob exampleBatch
      exampleRecords true (exampleEngine true)
    = (Some (Some inserted), e')
    /\ progress e' = ["OperationStarted"; "OperationFinished"]%string
    /\ csvChunks (apiJobCreateResult_chunks e') = [mkCsvChunk "" inserted].
Proof.
  intros inserted.
  destruct (executeCRUD_simulation exampleKeys "___Id" exampleMakeId
              sourceRecordsToTarget_default targetRecordsToSource_default
              exampleCreateJob exampleBatch (exampleEngine true) exampleRecords true
              eq_refl)
    as (e' & Hrun & _ & _ & Hprogress & _ & Hchunks).
  - discriminate.
  - repeat constructor.
  - exists e'. split; [exact Hrun|]. split; [exact Hprogress|exact Hchunks].
Defined.

(** No record at all, in simulation mode. *)
Lemma executeCRUD_simulation_empty_witness :
  (executeCRUD exampleKeys "___Id" exampleMakeId sourceRecordsToTarget_default
     targetRecordsToSource_default exampleCreateJob exampleBatch
     [] true (exampleEngine true)).1 = None.
Proof.
  exact (proj1 (executeCRUD_simulation_empty exampleKeys "___Id" exampleMakeId
                  sourceRecordsToTarget_default targetRecordsToSource_default
                  exampleCreateJob exampleBatch (exampleEngine true) [] true
                  eq_refl eq_refl)).
Defined.


(** The two records, deleted outside simulation mode: the first has no id. *)
Lemma getResultRecordsArray_of_source_witness :
  let e := mkEngine false true "Account_delete_target.csv" Delete false "Account" ""
             (mkCsvChunks [] []) [] [] 0 in
  getSourceRecordsArray e exampleRecords = Some [JsUndefined; JsText "001"]
  /\ getSourceRecordsArray e exampleRecords ≫= getResultRecordsArray "___Id" e
     = Some [ JsObject [("Id"%string, JsUndefined)];
              JsObject [("Id"%string, JsText "001")] ].
Proof.
  intros e. split; [reflexivity|].
  refine (getResultRecordsArray_of_source "___Id" e exampleRecords eq_refl eq_refl _).
  repeat constructor.
Defined.

(** ** A script that lists the parents first *)

Lemma parentLookupObjects_setProcessAll o :
  parentLookupObjects (setProcessAll o) = parentLookupObjects o.
Proof. unfold setProcessAll. by destruct (_ || _). Qed.

(** Nobody looks the object up: the scan answers the end of the chain. *)
Lemma indexToInsertFor_nobody (ts : list Task) lower o :
  lower <= length ts ->
  Forall (fun t => looksUp t o = false) ts ->
  indexToInsertFor ts lower o = length ts.
Proof.
  intros Hlower Hnobody. unfold indexToInsertFor. rewrite foldl_reverse_foldr.
  destruct (indexToInsert_scan ts o (length ts - lower) lower) as (Hr & _ & Hat); [lia|].
  cbv zeta in *.
  match goal with |- ?r = _ => destruct (decide (r < length ts)) as [Hlt|]; [|lia] end.
  destruct (Hat Hlt) as (t & Ht & Hlook).
  rewrite Forall_lookup in Hnobody. rewrite (Hnobody _ _ Ht) in Hlook. done.
Qed.

Lemma addObjects_parents_first (objects : list ScriptObject) (c : Chain) (index : nat) :
  lowerIndexForAnyObjects c <= length (tasks c) ->
  Forall (fun o => zoneOf o = 2) objects ->
  Forall (fun t => Forall (fun o => looksUp t o = false) objects) (tasks c) ->
  (forall i j oi oj, i < j -> objects !! i = Some oi -> objects !! j = Some oj ->
     someNamed (parentLookupObjects oi) (name oj) = false) ->
  tasks (addObjects c index objects)
  = tasks c ++ imap (fun i => taskOf (index + i)) objects.
Proof.
  revert c index. induction objects as [|o objects IH]; intros c index Hlower Hzone Hchain Hpairs.
  - simpl. by rewrite app_nil_r.
  - apply Forall_cons in Hzone as [Hzo Hzone].
    assert (tasks (addObject c index o) = tasks c ++ [taskOf index o]
            /\ lowerIndexForAnyObjects (addObject c index o) = lowerIndexForAnyObjects c)
      as [Htasks Hlow].
    { unfold addObject, zoneOf in *. rewrite name_setProcessAll, isReadonlyObject_setProcessAll.
      destruct (String.eqb (name o) RECORD_TYPE_SOBJECT_NAME); [done|].
      destruct (isReadonlyObject o); [done|].
      destruct (length (tasks c) =? 0); [done|]. simpl.
      rewrite indexToInsertFor_nobody; [|done|].
      - by rewrite splice_insert_of_nat, take_ge, drop_ge by lia.
      - eapply Forall_impl; [exact Hchain|]. intros t Ht.
        apply Forall_cons in Ht as [Ht _]. unfold looksUp in *.
        by rewrite name_setProcessAll. }
    simpl. rewrite IH.
    + rewrite Htasks, <- app_assoc. simpl. rewrite Nat.add_0_r. do 2 f_equal.
      apply imap_ext. intros i x _. simpl. f_equal. lia.
    + rewrite Hlow, Htasks, length_app. lia.
    + done.
    + rewrite Htasks. apply Forall_app. split.
      * eapply Forall_impl; [exact Hchain|]. intros t Ht. by apply Forall_cons in Ht as [_ Ht].
      * constructor; [|constructor]. apply Forall_lookup. intros j oj Hj.
        unfold looksUp, taskOf. simpl. rewrite parentLookupObjects_setProcessAll.
        apply (Hpairs 0 (S j)); [lia|done|done].
    + intros i j oi oj Hij Hi Hj. apply (Hpairs (S i) (S j)); [lia|done..].
Qed.

(** X21. When no descriptor is the RecordType object or readonly, and
    none names a later descriptor among its parent lookups, the first
    [forEach] of [setup] leaves the tasks in the order the descriptors were
    supplied in. *)
Theorem createTaskChain_parents_first : forall (objects : list ScriptObject),
  Forall (fun o => zoneOf o = 2) objects ->
  (forall i j oi oj, i < j -> objects !! i = Some oi -> objects !! j = Some oj ->
     someNamed (parentLookupObjects oi) (name oj) = false) ->
  createTaskChain objects = imap taskOf objects.
Proof.
  intros objects Hzone Hpairs. unfold createTaskChain.
  rewrite addObjects_parents_first; [done|simpl; lia|done|constructor|done].
Qed.

Lemma createTaskChain_parents_first_witness :
  Forall (fun o => zoneOf o = 2) descriptorsABC
  /\ sObjectName <$> createTaskChain descriptorsABC = ["A"; "B"; "C"]%string
  /\ createTaskChain descriptorsABC = imap taskOf descriptorsABC.
Proof.
  assert (Forall (fun o => zoneOf o = 2) descriptorsABC) as Hzone by (repeat constructor).
  split; [exact Hzone|]. split; [reflexivity|].
  apply (createTaskChain_parents_first descriptorsABC Hzone).
  intros [|[|[|i]]] [|[|[|j]]] oi oj Hij Hi Hj; simpl in *; simplify_eq; try lia; reflexivity.
Defined.

(** ** The totals [updateRecords] logs *)

Section UpdateTotalsFacts.
Variable task_updateRecords : Task -> QueryMode -> list ProcessedData * nat.
Variable userContinues : string -> nat -> bool.
Variable targetOrgMedia : DATA_MEDIA_TYPE.
Hypothesis no_report : forall task updateMode, (task_updateRecords task updateMode).1 = [].

Lemma updateMessages_app tr1 tr2 :
  updateMessages (tr1 ++ tr2) = updateMessages tr1 ++ updateMessages tr2.
Proof. apply omap_app. Qed.

Lemma updateTask_no_report updateMode task noPrompt total missing tr :
  updateTask task_updateRecords userContinues updateMode task
    (mkUpdate noPrompt total missing tr)
  = (Some tt,
     mkUpdate noPrompt (total + (task_updateRecords task updateMode).2) missing
       (tr ++ [Updated task updateMode]
           ++ (if 0 <? (task_updateRecords task updateMode).2
               then [ULogged infoNormal updatingTargetObjectCompleted] else []))).
Proof.
  unfold updateTask. cbv zeta. rewrite no_report.
  destruct (0 <? (task_updateRecords task updateMode).2); run_job;
    by rewrite <- ?app_assoc, ?app_nil_r.
Qed.

(** A pass in which no task reports: the total grows by what the tasks
    processed, and nothing but the lines of the tasks is logged. *)
Lemma updatePass_no_report updateMode (ts : list Task) noPrompt total missing tr :
  exists tr',
    jforEach ts (updateTask task_updateRecords userContinues updateMode)
      (mkUpdate noPrompt total missing tr)
    = (Some tt, mkUpdate noPrompt (total + processedInPass task_updateRecords ts updateMode)
                  missing tr')
    /\ updateMessages tr' = updateMessages tr ++ taskLines task_updateRecords ts updateMode
    /\ promptsAndWarnings tr' = promptsAndWarnings tr
    /\ savedFiles tr' = savedFiles tr.
Proof.
  revert total tr. induction ts as [|task ts IH]; intros total tr.
  - exists tr. simpl. unfold jret, processedInPass. simpl.
    by rewrite Nat.add_0_r, app_nil_r.
  - simpl. unfold mbind, job_bind, jbind. rewrite updateTask_no_report.
    match goal with |- context [jforEach ts _ (mkUpdate _ ?total' _ ?tr0)] =>
      destruct (IH total' tr0) as (tr' & -> & Hm & Hp & Hs)
    end.
    exists tr'. rewrite Hm, Hp, Hs.
    rewrite !updateMessages_app, !promptsAndWarnings_app, !savedFiles_app.
    unfold processedInPass, taskLines. csimpl.
    destruct (0 <? (task_updateRecords task updateMode).2); simpl;
      rewrite ?app_nil_r, <- ?app_assoc; (split; [do 2 f_equal; lia|done]).
Qed.

(** X22. When no task reports missing lookups, [updateRecords] returns
    and shows no prompt and no warning. Each of its two steps logs one line
    for every task that processed records and closes with the total of the
    step alone, [nothingUpdated] when that is zero: the total of the second
    step is counted from zero, and with a file target the second step logs
    [nothingUpdated]. The report saved at the end is empty. *)
Theorem updateRecords_totals : forall (ts : list Task),
  let run := updateRecords task_updateRecords userContinues targetOrgMedia ts updateStart in
  run.1 = Some tt
  /\ updateMessages (updateTrace run.2)
     = [(infoMinimal, newLine); (headerMinimal, updatingTarget)]
       ++ taskLines task_updateRecords ts forwards
       ++ [totalLine (processedInPass task_updateRecords ts forwards)]
       ++ [(infoMinimal, newLine); (headerMinimal, updatingTarget)]
       ++ match targetOrgMedia with
          | Org => taskLines task_updateRecords ts backwards
                   ++ [totalLine (processedInPass task_updateRecords ts backwards)]
          | File => [totalLine 0]
          end
       ++ [(infoVerbose, newLine); (infoVerbose, writingToCSV)]
  /\ promptsAndWarnings (updateTrace run.2) = []
  /\ savedFiles (updateTrace run.2) = [(MISSING_PARENT_LOOKUP_RECORDS_ERRORS_FILENAME, [])].
Proof.
  intros ts. cbv zeta. unfold updateRecords, updatePasses, updateStart, logTotal, resetTotal.
  run_job.
  match goal with |- context [jforEach ts _ (mkUpdate _ ?total' _ ?tr0)] =>
    destruct (updatePass_no_report forwards ts false total' [] tr0) as (tr1 & -> & Hm1 & Hp1 & Hs1)
  end.
  run_job. unfold totalLine.
  destruct targetOrgMedia.
  - destruct (0 <? processedInPass task_updateRecords ts forwards); run_job;
      match goal with |- context [jforEach ts _ (mkUpdate _ ?total' _ ?tr0)] =>
        destruct (updatePass_no_report backwards ts false total' [] tr0)
          as (tr2 & -> & Hm2 & Hp2 & Hs2)
      end;
      run_job;
      destruct (0 <? processedInPass task_updateRecords ts backwards); run_job;
      rewrite !updateMessages_app, !promptsAndWarnings_app, !savedFiles_app, Hm2, Hp2, Hs2;
      rewrite !updateMessages_app, !promptsAndWarnings_app, !savedFiles_app, Hm1, Hp1, Hs1;
      simpl; rewrite <- ?app_assoc; done.
  - destruct (0 <? processedInPass task_updateRecords ts forwards); run_job;
      rewrite !updateMessages_app, !promptsAndWarnings_app, !savedFiles_app, Hm1, Hp1, Hs1;
      simpl; rewrite <- ?app_assoc; done.
Qed.
End UpdateTotalsFacts.

(** The chain [C], [A], [B] with a file target, where [A] alone has records
    to process, two of them. *)
Lemma updateRecords_totals_witness :
  let task_updateRecords :=
    fun (task : Task) (_ : QueryMode) =>
      (@nil ProcessedData, if String.eqb (sObjectName task) "A" then 2 else 0) in
  updateMessages
    (updateTrace (updateRecords task_updateRecords (fun _ _ => true) File
                    (createTaskChain (descriptorsCAB false)) updateStart).2)
  = [ (infoMinimal, newLine); (headerMinimal, updatingTarget);
      (infoNormal, updatingTargetObjectCompleted); (infoNormal, updatingTargetCompleted);
      (infoMinimal, newLine); (headerMinimal, updatingTarget);
      (infoNormal, nothingUpdated);
      (infoVerbose, newLine); (infoVerbose, writingToCSV) ].
Proof.
  intros task_updateRecords.
  exact (proj1 (proj2 (updateRecords_totals task_updateRecords (fun _ _ => true) File
                         (fun _ _ => eq_refl) (createTaskChain (descriptorsCAB false))))).
Defined.

(** ** Runs of the CSV validation on an example *)

(** The second of two rows for the same key and raw value wins. *)
Lemma loadCSVValueMapping_last_row_wins_witness :
  mappedValue (loadCSVValueMapping exampleTrim exampleMappingRows []) "AccountType" "Old"
  = Some "Second"%string.
Proof.
  exact (loadCSVValueMapping_last_row_wins exampleTrim exampleMappingRows []
           "AccountType" "Old").
Defined.

(** Issues that the repair alone finds, and a user who goes on: the method
    returns with one issue and no report. *)
Lemma validateAndRepair_issue_report_witness :
  let run := _validateAndRepairSourceCSVFiles (fun _ => []) exampleRepair (fun _ => true)
               (createTaskChain [entity "Account" false [] []])
               (csvJobStart clear [] []) in
  returned run.1 = true
  /\ length (csvIssues run.2) = 1
  /\ savedIssueReports (csvTrace run.2) = [].
Proof.
  intros run. split; [reflexivity|]. split; [reflexivity|].
  exact (proj1 (proj2 (validateAndRepair_issue_report (fun _ => []) exampleRepair
                         (fun _ => true) (createTaskChain [entity "Account" false [] []])
                         clear [] []))).
Defined.


(** The repair finds an issue and the user gives up at the prompt that
    follows: the repaired file is written all the same. *)
Lemma validateAndRepair_flush_witness :
  let run := _validateAndRepairSourceCSVFiles (fun _ => []) exampleRepairDirty
               (fun _ => false) (createTaskChain [entity "Account" false [] []])
               (csvJobStart clear [] []) in
  run.1 = inl CommandAbortedByUser
  /\ csvDisk run.2 = saveCachedCsvDataFiles cacheWithDirtyFile []
  /\ csvTaskCalls (csvTrace run.2)
     = (ValidatedCSV <$> createTaskChain [entity "Account" false [] []])
       ++ (RepairedCSV <$> createTaskChain [entity "Account" false [] []]).
Proof.
  intros run.
  pose proof (validateAndRepair_flush (fun _ => []) exampleRepairDirty
                (fun _ => false) (createTaskChain [entity "Account" false [] []])
                clear [] []) as H.
  cbv zeta in H.
  change (abortsOnStructure (fun _ => []) (fun _ => false)
            (createTaskChain [entity "Account" false [] []])) with false in H.
  cbv iota in H. destruct H as (_ & Hdisk & _ & Hcalls).
  split; [by vm_compute|]. split; [exact Hdisk|exact Hcalls].
Defined.

(** A file source that is validated and repaired: the cache is cleared and
    the ids start again. *)
Lemma validateCSVFiles_outcome_witness :
  let run := validateCSVFiles (fun _ => []) exampleRepairDirty (fun _ => true)
               exampleMappingRows exampleTrim (fun _ => true) File false false
               (createTaskChain [entity "Account" false [] []])
               (csvJobStart clear [] []) in
  run.1 = inr tt
  /\ cachedCSVContent run.2 = clear
  /\ (nextId (cachedCSVContent run.2)).1 = "ID0000000000000001"%string.
Proof.
  intros run.
  assert (run.1 = inr tt) as Hrun by by vm_compute.
  split; [exact Hrun|].
  pose proof (proj2 (validateCSVFiles_outcome (fun _ => []) exampleRepairDirty
                       (fun _ => true) exampleMappingRows exampleTrim (fun _ => true)
                       false false (createTaskChain [entity "Account" false [] []])
                       clear [] [])) as H.
  cbv zeta iota in H. fold run in H. rewrite Hrun in H.
  exact (proj2 H).
Defined.
